(** * px2cc: the PromptX action pipeline of [src/PromptXActionProcessor.js]

    A shallow embedding of the four stages of the pipeline (RoleLoader,
    DependencyAnalyzer, CognitionLoader, LayerAssembler) and of the entry
    point [processRole], together with the properties that the
    specification states about them.

    JavaScript strings are sequences of UTF-16 code units; the regular
    expressions of the source carry no [u] flag, so every character class
    ranges over single code units.  Strings are therefore lists of code
    units, each an [N]. *)

From Stdlib Require Import NArith Ascii String.
From stdpp Require Import base tactics option list numbers.

Set Default Proof Using "Type".
Local Open Scope N_scope.

(** ** Strings *)

Abbreviation str := (list N).

Module Utf16.

Fixpoint bytes (s : string) : str :=
  match s with
  | EmptyString => []
  | String a s' => N_of_ascii a :: bytes s'
  end.

(** One code point as one code unit, or as a surrogate pair. *)
Definition units (cp : N) : str :=
  if cp <? 65536 then [cp]
  else [55296 + N.shiftr (cp - 65536) 10; 56320 + N.land (cp - 65536) 1023].

(** UTF-8 decoding: [need] continuation bytes are still expected for the
    code point accumulated in [acc]. *)
Fixpoint decode (need : nat) (acc : N) (bs : str) : str :=
  match bs with
  | [] => []
  | b :: bs' =>
      match need with
      | O =>
          if b <? 128 then b :: decode 0 0 bs'
          else if b <? 224 then decode 1 (N.land b 31) bs'
          else if b <? 240 then decode 2 (N.land b 15) bs'
          else decode 3 (N.land b 7) bs'
      | S n =>
          let acc' := N.lor (N.shiftl acc 6) (N.land b 63) in
          match n with
          | O => units acc' ++ decode 0 0 bs'
          | S _ => decode n acc' bs'
          end
      end
  end.

(** The code units of a source literal, given as UTF-8 text. *)
Definition lit (s : string) : str := decode 0 0 (bytes s).

End Utf16.

Definition js (s : string) : str := Utf16.lit s.
Arguments js _%_string.

Definition NL : N := 10.
Definition dquote : str := [34].
Definition backtick : str := [96].

(** The class [\s] of a regular expression without the [u] flag, which is
    also the set that [String.prototype.trim] removes: WhiteSpace and
    LineTerminator code units. *)
Definition is_space (c : N) : bool :=
  (c =? 9) || (c =? 10) || (c =? 11) || (c =? 12) || (c =? 13) || (c =? 32)
  || (c =? 160) || (c =? 5760) || ((8192 <=? c) && (c <=? 8202))
  || (c =? 8232) || (c =? 8233) || (c =? 8239) || (c =? 8287)
  || (c =? 12288) || (c =? 65279).

Fixpoint trimStart (s : str) : str :=
  match s with
  | c :: s' => if is_space c then trimStart s' else s
  | [] => []
  end.

Definition trimEnd (s : str) : str := reverse (trimStart (reverse s)).

(** [String.prototype.trim] *)
Definition trim (s : str) : str := trimStart (trimEnd s).

(** [!text] for a string: only the empty string is falsy. *)
Definition falsy (s : str) : bool := match s with [] => true | _ => false end.

(** ** Regular expressions

    Every regular expression of the source is a sequence of literal text and
    of quantified single-character classes.  [exec] follows the backtracking
    order of ECMAScript: a greedy quantifier tries the longest repetition
    first, a lazy one the shortest, and the first alternative that lets the
    rest of the pattern match wins. *)

Module RegExp.

Inductive atom :=
| Lit (ci : bool) (l : str)   (* literal text; [ci]: flag [i] *)
| Star (p : N → bool)            (* [class]*  greedy *)
| Plus (p : N → bool)            (* [class]+  greedy *)
| Opt (p : N → bool)             (* [class]?  greedy *)
| Lazy (p : N → bool).           (* [class]*? lazy *)

Definition regex := list atom.

(** A successful match: the text matched by each atom, in order, and the
    text that follows the match. *)
Definition result := option (list str * str).

Definition push (piece : str) (r : result) : result :=
  match r with
  | Some (ps, rest) => Some (piece :: ps, rest)
  | None => None
  end.

(** Canonicalize of a pattern without the [u] flag, restricted to the
    ASCII range: a code unit above 127 never canonicalizes to an ASCII
    one, and every literal of the source is ASCII. *)
Definition canon (c : N) : N :=
  if (97 <=? c) && (c <=? 122) then c - 32 else c.

Definition same (ci : bool) (a c : N) : bool :=
  if ci then canon a =? canon c else a =? c.

Fixpoint strip (ci : bool) (l s : str) : option (str * str) :=
  match l with
  | [] => Some ([], s)
  | a :: l' =>
      match s with
      | c :: s' =>
          if same ci a c then
            match strip ci l' s' with
            | Some (m, rest) => Some (c :: m, rest)
            | None => None
            end
          else None
      | [] => None
      end
  end.

Fixpoint greedy (p : N → bool) (k : str → result) (acc s : str) : result :=
  match s with
  | c :: s' =>
      if p c then
        match greedy p k (acc ++ [c]) s' with
        | Some x => Some x
        | None => push acc (k s)
        end
      else push acc (k s)
  | [] => push acc (k s)
  end.

Fixpoint lazy (p : N → bool) (k : str → result) (acc s : str) : result :=
  match push acc (k s) with
  | Some x => Some x
  | None =>
      match s with
      | c :: s' => if p c then lazy p k (acc ++ [c]) s' else None
      | [] => None
      end
  end.

(** Match [r] at the start of [s]. *)
Fixpoint exec (r : regex) : str → result :=
  match r with
  | [] => λ s, Some ([], s)
  | Lit ci l :: r' => λ s,
      match strip ci l s with
      | Some (m, s') => push m (exec r' s')
      | None => None
      end
  | Star p :: r' => greedy p (exec r') []
  | Plus p :: r' => λ s,
      match s with
      | c :: s' => if p c then greedy p (exec r') [c] s' else None
      | [] => None
      end
  | Opt p :: r' => λ s,
      match s with
      | c :: s' =>
          if p c then
            match push [c] (exec r' s') with
            | Some x => Some x
            | None => push [] (exec r' s)
            end
          else push [] (exec r' s)
      | [] => push [] (exec r' s)
      end
  | Lazy p :: r' => lazy p (exec r') []
  end.

(** A left-to-right scan for successive matches (flag [g]): the text is
    cut into code units kept as they are and matches.  [skip] counts the
    code units of the current match still to be passed over; after an
    empty match the scan advances by one code unit. *)
Inductive seg :=
| Keep (c : N)
| Hit (ps : list str).

Fixpoint scan (r : regex) (s : str) (skip : nat) : list seg :=
  match s with
  | [] =>
      match skip with
      | O => match exec r [] with Some (ps, _) => [Hit ps] | None => [] end
      | S _ => []
      end
  | c :: s' =>
      match skip with
      | S n => scan r s' n
      | O =>
          match exec r s with
          | Some (ps, _) =>
              match length (concat ps) with
              | O => Hit ps :: Keep c :: scan r s' 0
              | S n => Hit ps :: scan r s' n
              end
          | None => Keep c :: scan r s' 0
          end
      end
  end.

(** [s.replace(/r/g, repl)] for a replacement text without [$] patterns *)
Definition replaceAll (r : regex) (repl s : str) : str :=
  flat_map (λ g, match g with Keep c => [c] | Hit _ => repl end) (scan r s 0).

(** [Array.from(s.matchAll(/r/g))]: the pieces of every match *)
Definition matchAll (r : regex) (s : str) : list (list str) :=
  omap (λ g, match g with Keep _ => None | Hit ps => Some ps end) (scan r s 0).

(** [s.match(/r/)]: the leftmost match, with the text before it *)
Fixpoint search (r : regex) (s : str) : option (str * list str * str) :=
  match exec r s with
  | Some (ps, rest) => Some ([], ps, rest)
  | None =>
      match s with
      | [] => None
      | c :: s' =>
          match search r s' with
          | Some (pre, ps, rest) => Some (c :: pre, ps, rest)
          | None => None
          end
      end
  end.

(** The text of capture group number [i], counting atoms from 0. *)
Definition piece (ps : list str) (i : nat) : str := default [] (ps !! i).

Definition any : N → bool := λ _, true.
Definition eqc (a : N) : N → bool := λ c, c =? a.
Definition neqc (a : N) : N → bool := λ c, negb (c =? a).

End RegExp.

Import RegExp.

(** ** LayerAssembler.cleanContent *)

(** [/<reference[^>]*>/g] *)
Definition re_reference_open : regex :=
  [Lit false (js "<reference"); Star (neqc 62); Lit false (js ">")].

(** [/<\/reference>/g] *)
Definition re_reference_close : regex := [Lit false (js "</reference>")].

(** The class [[^\s\>\<\n]] *)
Definition is_resource_char (c : N) : bool :=
  negb (is_space c || (c =? 62) || (c =? 60) || (c =? 10)).

(** [/\s*@!?[^:]+:\/\/[^\s\>\<\n]+\s*/g] *)
Definition re_token_line : regex :=
  [Star is_space; Lit false (js "@"); Opt (eqc 33); Plus (neqc 58);
   Lit false (js "://"); Plus is_resource_char; Star is_space].

(** [/\n\s*\n\s*\n/g] *)
Definition re_blank_lines : regex :=
  [Lit false [NL]; Star is_space; Lit false [NL]; Star is_space; Lit false [NL]].

Definition cleanContent (content : str) : str :=
  if falsy content then []
  else
    trim
      (replaceAll re_blank_lines [NL; NL]
         (replaceAll re_token_line []
            (replaceAll re_reference_close []
               (replaceAll re_reference_open [] content)))).

(** ** Errors, awaited results and the injected capabilities *)

Record Error := { message : str }.

(** What a call or an awaited promise comes to: a value, an exception, or
    nothing at all when an awaited promise never settles. *)
Inductive Outcome (A : Type) :=
| Returned (a : A)
| Thrown (e : Error)
| Pending.
Arguments Returned {A} a.
Arguments Thrown {A} e.
Arguments Pending {A}.

(** What a synchronous call comes to. *)
Inductive Result (A : Type) :=
| Ok (a : A)
| Err (e : Error).
Arguments Ok {A} a.
Arguments Err {A} e.

Definition now {A} (r : Result A) : Outcome A :=
  match r with
  | Ok a => Returned a
  | Err e => Thrown e
  end.

(** The object that [loadResource] resolves to. *)
Definition Metadata := list (str * str).
Record LoadResult := {
  success : bool;
  content : option str;         (* [None]: no [content] property *)
  loaded_metadata : option Metadata
}.

(** The capabilities that the pipeline consumes: the resource manager of
    [@promptx/core], [fs.access], [os.homedir] and [path.join] of Node, and
    the order in which [n] promises started together settle.  [World] is the
    state of everything outside the pipeline. *)
Record Host (World : Type) := {
  initialized : World → bool;
  initializeWithNewArchitecture : World → Outcome () * World;
  loadResource : str → World → Outcome (option LoadResult) * World;
  access : str → World → Outcome ();
  homedir : str;
  path_join : list str → Result str;
  settle_order : nat → list nat
}.
Arguments initialized {World} h w.
Arguments initializeWithNewArchitecture {World} h w.
Arguments loadResource {World} h address w.
Arguments access {World} h path w.
Arguments homedir {World} h.
Arguments path_join {World} h segments.
Arguments settle_order {World} h n.

(** Computations of the pipeline: state passing over the world, with
    exceptions. *)
Definition M (World A : Type) : Type := World → Outcome A * World.

Definition ret {W A} (a : A) : M W A := λ w, (Returned a, w).
Definition throw {W A} (e : Error) : M W A := λ w, (Thrown e, w).
Definition bind {W A B} (m : M W A) (f : A → M W B) : M W B := λ w,
  match m w with
  | (Returned a, w') => f a w'
  | (Thrown e, w') => (Thrown e, w')
  | (Pending, w') => (Pending, w')
  end.
(** [try { m } catch (error) { h error }] *)
Definition try_catch {W A} (m : M W A) (h : Error → M W A) : M W A := λ w,
  match m w with
  | (Thrown e, w') => h e w'
  | other => other
  end.
(** A call that leaves the world as it is. *)
Definition lift {W A} (o : W → Outcome A) : M W A := λ w, (o w, w).


(** ** The data model *)

(** A [sections] object: its own properties in insertion order, each
    [null] ([None]) or a string. *)
Definition Sections := list (string * option str).

(** [sections[key]]; [None] is [undefined]. *)
Fixpoint get (sections : Sections) (key : string) : option (option str) :=
  match sections with
  | [] => None
  | (k, v) :: rest => if String.eqb k key then Some v else get rest key
  end.

(** [Object.values(sections)] *)
Definition values (sections : Sections) : list (option str) := map snd sections.

Record RoleDocument := {
  role_id : str;                (* [id] *)
  raw : str;
  sections : Sections;
  metadata : Metadata
}.

Record ResourceReference := { protocol : str; resource : str }.

Record Dependency := { dep_id : str; dep_content : str }.

Record DependencyBundle := {
  thoughts : list Dependency;
  executions : list Dependency;
  knowledges : list Dependency
}.

Record CognitionStatus := {
  hasNetwork : bool;
  networkPath : option str;     (* [None]: [null] *)
  error : option str            (* [None]: no [error] property *)
}.

(** ** RoleLoader *)

(** [/<role>([\s\S]*?)<\/role>/] *)
Definition re_role : regex :=
  [Lit false (js "<role>"); Lazy any; Lit false (js "</role>")].

(** [new RegExp(`<${tagName}>([\\s\\S]*?)<\\/${tagName}>`, 'i')], for a tag
    name made of letters *)
Definition re_section (tagName : str) : regex :=
  [Lit true (js "<" ++ tagName ++ js ">"); Lazy any;
   Lit true (js "</" ++ tagName ++ js ">")].

Definition extractSection (content tagName : str) : option str :=
  match search (re_section tagName) content with
  | Some (_, ps, _) => Some (trim (piece ps 1))
  | None => None
  end.

Definition parseDPMLContent (content : str) : Sections :=
  match search re_role content with
  | Some (_, ps, _) =>
      let roleContent := piece ps 1 in
      [("personality"%string, extractSection roleContent (js "personality"));
       ("principle"%string, extractSection roleContent (js "principle"));
       ("knowledge"%string, extractSection roleContent (js "knowledge"))]
  | None => []
  end.

(** [!result || !result.success || !result.content]: the content when the
    result is usable *)
Definition usable (result : option LoadResult) : option str :=
  match result with
  | Some r =>
      if success r then
        match content r with
        | Some c => if falsy c then None else Some c
        | None => None
        end
      else None
  | None => None
  end.

(** ** DependencyAnalyzer: extraction and classification *)

(** [/@!?([^:]+):\/\/([^\s\>\<\n]+)/g] *)
Definition re_reference : regex :=
  [Lit false (js "@"); Opt (eqc 33); Plus (neqc 58); Lit false (js "://");
   Plus is_resource_char].

Definition extractFromText (text : option str) : list ResourceReference :=
  match text with
  | None => []
  | Some t =>
      if falsy t then []
      else
        map (λ ps, {| protocol := piece ps 2; resource := piece ps 4 |})
          (matchAll re_reference t)
  end.

Definition extractResourceReferences (sections : Sections) : list ResourceReference :=
  flat_map extractFromText (values sections).

(** The state of a settled promise. *)
Inductive Settled (A : Type) :=
| Fulfilled (value : A)
| Rejected (reason : Error).
Arguments Fulfilled {A} value.
Arguments Rejected {A} reason.

Definition settle {A} (o : Outcome A) : option (Settled A) :=
  match o with
  | Returned v => Some (Fulfilled v)
  | Thrown e => Some (Rejected e)
  | Pending => None
  end.

Fixpoint eqb_str (a b : str) : bool :=
  match a, b with
  | [], [] => true
  | x :: a', y :: b' => (x =? y) && eqb_str a' b'
  | _, _ => false
  end.

(** [array.forEach((x, index) => ...)] as a fold over the state that the
    callback updates. *)
Fixpoint forEach {A St} (f : St → nat → A → St) (st : St) (index : nat) (l : list A) : St :=
  match l with
  | [] => st
  | x :: l' => forEach f (f st index x) (S index) l'
  end.

(** The callback of [results.forEach] in [analyzeDependencies]. *)
Definition classify (allRefs : list ResourceReference)
    (dependencies : DependencyBundle) (index : nat)
    (result : Settled (option str)) : DependencyBundle :=
  match result with
  | Fulfilled (Some value) =>
      if falsy value then dependencies
      else
        match allRefs !! index with
        | Some ref =>
            let entry := {| dep_id := resource ref; dep_content := value |} in
            if eqb_str (protocol ref) (js "thought") then
              {| thoughts := thoughts dependencies ++ [entry];
                 executions := executions dependencies;
                 knowledges := knowledges dependencies |}
            else if eqb_str (protocol ref) (js "execution") then
              {| thoughts := thoughts dependencies;
                 executions := executions dependencies ++ [entry];
                 knowledges := knowledges dependencies |}
            else if eqb_str (protocol ref) (js "knowledge") then
              {| thoughts := thoughts dependencies;
                 executions := executions dependencies;
                 knowledges := knowledges dependencies ++ [entry] |}
            else dependencies
        | None => dependencies     (* no such index: the arrays have one length *)
        end
  | _ => dependencies
  end.

(** ** CognitionLoader: the object *)

Record CognitionLoader := { basePath : str }.

(** ** LayerAssembler.assembleContent *)

(** A section that is there and truthy: [if (roleInfo.sections.personality)] *)
Definition present (sections : Sections) (key : string) : option str :=
  match get sections key with
  | Some (Some s) => if falsy s then None else Some s
  | _ => None
  end.

Definition heading_personality : str := js "## 🎭 角色人格".
Definition heading_principle : str := js "## 🔧 工作原则".
Definition heading_knowledge : str := js "## 📚 专业知识".

Definition roleLayer (sections : Sections) (key : string) (heading : str) : list str :=
  match present sections key with
  | Some s => [heading; cleanContent s; []]
  | None => []
  end.

Definition dependencyLayer (heading : str) (deps : list Dependency) : list str :=
  match deps with
  | [] => []
  | _ :: _ =>
      heading
        :: flat_map (λ d, [js "### " ++ dep_id d; cleanContent (dep_content d); []]) deps
  end.

(** The array [parts] at the end of [assembleContent], given the text of
    [roleInfo.id], the truth of [cognitionData.hasNetwork], of
    [mode === 'subagent'] and of [mode === 'command'], and the lines pushed
    for the role layer and for the dependencies. *)
Definition layout (rid : str) (hasNetwork subagent command : bool)
    (roleLines dependencyLines : list str) : list str :=
  [js "# 🧠 [Consciousness Prime] " ++ rid
     ++ (if subagent then js "专业助手" else js "角色已激活");
   [];
   js "## 💭 PromptX认知增强"]
  ++ (if hasNetwork then
        [js "🧠 **状态**: 该角色已建立经验网络";
         [];
         js "🔧 **激活方式** (需要PromptX MCP服务器):";
         js "- `recall " ++ rid ++ js "` - 激活该角色的完整经验网络";
         js "- `recall " ++ rid ++ js " " ++ dquote ++ js "具体问题" ++ dquote
           ++ js "` - 检索相关历史经验";
         js "- `remember " ++ rid ++ js " " ++ dquote ++ js "新知识" ++ dquote
           ++ js "` - 将新经验加入角色记忆";
         [];
         js "💡 **说明**: 认知网络包含该角色的历史使用经验，通过recall工具动态激活"]
      else
        [js "🌱 **状态**: 该角色尚未建立经验网络";
         [];
         js "🚀 **开始使用**:";
         js "- 安装并配置PromptX MCP服务器";
         js "- 使用 `recall " ++ rid ++ js "` 开始建立认知网络";
         js "- 随着使用逐步积累该角色的专业经验"])
  ++ [[]]
  ++ roleLines
  ++ dependencyLines
  ++ [js "---"; []]
  ++ (if command then
        [js "🎉 " ++ rid ++ js "角色激活完成！我现在以该角色身份为你服务。"]
      else
        [js "## 🤖 助手说明";
         js "我是基于PromptX " ++ rid ++ js "角色的专业AI助手。我会：";
         js "- 始终保持" ++ rid ++ js "的专业身份和思维模式";
         js "- 利用完整的PromptX工具生态提供专业服务";
         js "- 在我们的对话过程中持续学习和记忆";
         [];
         js "请告诉我你需要什么帮助？"])
  ++ [[];
      js "---";
      [];
      js "💡 **可用的PromptX工具生态**：";
      js "- `recall " ++ rid ++ js "` - 激活该角色的历史经验网络";
      js "- `remember " ++ rid ++ js " " ++ dquote ++ js "新体验" ++ dquote
        ++ js "` - 将新体验编织到角色记忆";
      js "- `learn` - 学习新的资源和知识";
      js "- `toolx` - 执行专业工具";
      js "- 具体工具可用性取决于PromptX MCP服务器配置";
      []]
  ++ (if command then [js "现在开始处理用户需求。"] else []).

Definition assembleParts (roleInfo : RoleDocument) (dependencies : DependencyBundle)
    (cognitionData : CognitionStatus) (mode : str) : list str :=
  layout (role_id roleInfo) (hasNetwork cognitionData)
    (eqb_str mode (js "subagent")) (eqb_str mode (js "command"))
    (roleLayer (sections roleInfo) "personality" heading_personality
       ++ roleLayer (sections roleInfo) "principle" heading_principle
       ++ roleLayer (sections roleInfo) "knowledge" heading_knowledge)
    (dependencyLayer (js "## 💡 思维模式") (thoughts dependencies)
       ++ dependencyLayer (js "## ⚡ 执行技能") (executions dependencies)).


(** [parts.join('\n')] *)
Fixpoint join_lines (parts : list str) : str :=
  match parts with
  | [] => []
  | [p] => p
  | p :: rest => p ++ NL :: join_lines rest
  end.

Definition assembleContent (roleInfo : RoleDocument) (dependencies : DependencyBundle)
    (cognitionData : CognitionStatus) (mode : str) : str :=
  join_lines (assembleParts roleInfo dependencies cognitionData mode).

Section Pipeline.

Context {World : Type} (host : Host World).

Notation "x <- m ;; f" := (bind m (λ x, f))
  (at level 100, m at next level, right associativity).
Notation "m ;;; f" := (bind m (λ _, f))
  (at level 100, right associativity).

Definition loadRole (roleId : str) : M World RoleDocument :=
  try_catch
    (ready <- lift (λ w, Returned (initialized host w)) ;;
     (if negb ready then initializeWithNewArchitecture host else ret ()) ;;;
     result <- loadResource host (js "@role://" ++ roleId) ;;
     match usable result with
     | None =>
         throw {| message := js "无法加载角色 " ++ roleId ++ js " 的内容" |}
     | Some content =>
         ret {| role_id := roleId;
                raw := content;
                sections := parseDPMLContent content;
                metadata :=
                  default [] (result ≫= loaded_metadata) |}
     end)
    (λ error, throw error).

(** *** DependencyAnalyzer *)

Definition address (ref : ResourceReference) : str :=
  js "@" ++ protocol ref ++ js "://" ++ resource ref.

Definition loadDependency (ref : ResourceReference) : M World (option str) :=
  try_catch
    (result <- loadResource host (address ref) ;;
     ret (usable result))
    (λ _, ret None).

(** [allRefs.map(ref => this.loadDependency(ref))]: every call is started,
    in the order of the array, before any of them is awaited; the list
    holds what each promise comes to. *)
Fixpoint startAll {A B} (f : A → M World B) (l : list A)
    : M World (list (Outcome B)) := λ w,
  match l with
  | [] => (Returned [], w)
  | x :: l' =>
      let '(o, w') := f x w in
      match startAll f l' w' with
      | (Returned os, w'') => (Returned (o :: os), w'')
      | other => other
      end
  end.

(** [await Promise.allSettled(promises)]: each promise that settles is
    recorded at its own index, in the order in which the promises settle;
    the await returns once every index is filled. *)
Definition record_settled {B} (promises : list (Outcome B))
    (results : list (option (Settled B))) (i : nat) : list (option (Settled B)) :=
  match promises !! i ≫= settle with
  | Some r => <[i := Some r]> results
  | None => results
  end.

Definition allSettled {B} (promises : list (Outcome B)) : M World (list (Settled B)) :=
  λ w,
    let n := length promises in
    let results :=
      foldl (record_settled promises) (replicate n None) (settle_order host n) in
    match mapM id results with
    | Some rs => (Returned rs, w)
    | None => (Pending, w)
    end.

Definition analyzeDependencies (roleInfo : RoleDocument) : M World DependencyBundle :=
  let dependencies := {| thoughts := []; executions := []; knowledges := [] |} in
  (* [roleInfo.sections] of a RoleDocument is always an object *)
  let allRefs := extractResourceReferences (sections roleInfo) in
  loadPromises <- startAll loadDependency allRefs ;;
  results <- allSettled loadPromises ;;
  ret (forEach (classify allRefs) dependencies 0 results).

(** *** CognitionLoader *)

Definition newCognitionLoader : Result CognitionLoader :=
  match path_join host [homedir host; js ".promptx"; js "cognition"] with
  | Ok p => Ok {| basePath := p |}
  | Err e => Err e
  end.

Definition checkNetworkExists (self : CognitionLoader) (roleId : str)
    : M World CognitionStatus :=
  try_catch
    (networkFilePath <-
       lift (λ _, now (path_join host [basePath self; roleId; js "network.json"])) ;;
     try_catch
       (lift (access host networkFilePath) ;;;
        ret {| hasNetwork := true;
               networkPath := Some networkFilePath;
               error := None |})
       (λ _,
        ret {| hasNetwork := false;
               networkPath := Some networkFilePath;
               error := None |}))
    (λ error,
     ret {| hasNetwork := false;
            networkPath := None;
            error := Some (message error) |}).

(** *** PromptXActionProcessor *)

Definition processRole (self : CognitionLoader) (roleId mode : str) : M World str :=
  try_catch
    (roleInfo <- loadRole roleId ;;
     dependencies <- analyzeDependencies roleInfo ;;
     cognitionData <- checkNetworkExists self roleId ;;
     ret (assembleContent roleInfo dependencies cognitionData mode))
    (λ error, throw error).

End Pipeline.

(** ** Vocabulary of the statements *)

(** The result of a match, pieces left out. *)
Fixpoint greedy_rest (p : N → bool) (k : str → option str) (s : str) : option str :=
  match s with
  | c :: s' =>
      if p c then
        match greedy_rest p k s' with
        | Some x => Some x
        | None => k s
        end
      else k s
  | [] => k s
  end.

(** A continuation is sound when a result accounts for all the text it
    was given. *)
Definition sound (k : str → result) : Prop :=
  ∀ t ps rest, k t = Some (ps, rest) → t = concat ps ++ rest.

(** Every match of the pattern takes at least one code unit. *)
Definition consuming (r : regex) : Prop :=
  ∀ t ps rest, exec r t = Some (ps, rest) → concat ps ≠ [].

(** A text that opens with no white space. *)
Definition tight (s : str) : Prop :=
  match s with
  | c :: _ => is_space c = false
  | [] => True
  end.

(** The white space that opens a text: the number of newlines in it, and
    the text that follows the last of them. *)
Fixpoint lead_nl (s : str) : nat :=
  match s with
  | c :: s' => if is_space c then (if NL =? c then 1 else 0) + lead_nl s' else 0
  | [] => 0
  end.

Fixpoint after_last_nl (s : str) : option str :=
  match s with
  | c :: s' =>
      if is_space c then
        match after_last_nl s' with
        | Some x => Some x
        | None => if NL =? c then Some s' else None
        end
      else None
  | [] => None
  end.

(** No white space of the text holds three newlines. *)
Definition calm (s : str) : Prop := ∀ t, t `suffix_of` s → (lead_nl t ≤ 2)%nat.

(** A decidable property of every suffix of a text. *)
Fixpoint every_suffix (f : str → bool) (s : str) : bool :=
  f s && match s with [] => true | _ :: s' => every_suffix f s' end.

(** [l] occurs in [s]. *)
Definition occurs (l s : str) : Prop := ∃ pre post, s = pre ++ l ++ post.

(** The pattern matches somewhere in the text. *)
Definition matches_in (r : regex) (s : str) : Prop :=
  ∃ t, t `suffix_of` s ∧ exec r t ≠ None.

(** The text after steps one and two of [cleanContent]: the
    [<reference ...>] and [</reference>] tags are gone. *)
Definition stripTags (content : str) : str :=
  replaceAll re_reference_close [] (replaceAll re_reference_open [] content).

(** What a second pass of [cleanContent] would still remove from a text:
    a reference tag or a reference token with its white space. *)
Definition residue (s : str) : Prop :=
  matches_in re_reference_open s
  ∨ matches_in re_reference_close s
  ∨ matches_in re_token_line s.

(** The text before and after the first occurrence of [l] in [s]. *)
Fixpoint cut (l s : str) : option (str * str) :=
  match strip false l s with
  | Some (_, rest) => Some ([], rest)
  | None =>
      match s with
      | [] => None
      | c :: s' =>
          match cut l s' with
          | Some (before, after) => Some (c :: before, after)
          | None => None
          end
      end
  end.

(** [l] occurs in [s] right after [pre], and nowhere before, or nowhere
    after. *)
Definition first_at (l pre s : str) : Prop :=
  (∃ post, s = pre ++ l ++ post)
  ∧ ∀ pre' post', s = pre' ++ l ++ post' → (length pre ≤ length pre')%nat.

Definition last_at (l pre s : str) : Prop :=
  (∃ post, s = pre ++ l ++ post)
  ∧ ∀ pre' post', s = pre' ++ l ++ post' → (length pre' ≤ length pre)%nat.

(** The [sections] object that [parseDPMLContent] builds from the text
    between the delimiters. *)
Definition sectionsOf (roleContent : str) : Sections :=
  [("personality"%string, extractSection roleContent (js "personality"));
   ("principle"%string, extractSection roleContent (js "principle"));
   ("knowledge"%string, extractSection roleContent (js "knowledge"))].

(** What the resolution of a reference comes to, given the answer of the
    loader: the content of a usable result, and nothing when the loader
    reports failure, gives no content, or throws. *)
Definition resolution (o : Outcome (option LoadResult)) : option str :=
  match o with
  | Returned result => usable result
  | _ => None
  end.

Definition settles {A} (o : Outcome A) : Prop := o ≠ Pending.

(** The answers of the loader to the addresses of the references, asked
    one after the other. *)
Fixpoint answers {World} (host : Host World) (refs : list ResourceReference) (w : World)
    : list (Outcome (option LoadResult)) * World :=
  match refs with
  | [] => ([], w)
  | ref :: refs' =>
      let '(o, w') := loadResource host (address ref) w in
      let '(os, w'') := answers host refs' w' in
      (o :: os, w'')
  end.

(** The order of settlement leaves no promise out. *)
Definition settles_all (order : nat → list nat) : Prop :=
  ∀ n i, (i < n)%nat → i ∈ order n.

(** The references that resolved, each with its content, in the order of
    the references. *)
Definition successes (refs : list ResourceReference) (values : list (option str))
    : list (ResourceReference * str) :=
  omap (λ p, pair p.1 <$> p.2) (zip refs values).

Definition entry (p : ResourceReference * str) : Dependency :=
  {| dep_id := resource p.1; dep_content := p.2 |}.

(** The entries for the successes of one protocol. *)
Definition of_protocol (proto : str) (l : list (ResourceReference * str)) : list Dependency :=
  entry <$> filter (λ p, protocol p.1 = proto) l.

Definition bundle_of (l : list (ResourceReference * str)) : DependencyBundle :=
  {| thoughts := of_protocol (js "thought") l;
     executions := of_protocol (js "execution") l;
     knowledges := of_protocol (js "knowledge") l |}.

Definition recognized (ref : ResourceReference) : Prop :=
  protocol ref = js "thought" ∨ protocol ref = js "execution"
  ∨ protocol ref = js "knowledge".

Definition bundle_size (b : DependencyBundle) : nat :=
  length (thoughts b) + length (executions b) + length (knowledges b).

(** The bucket of a bundle for a protocol. *)
Definition bucket (b : DependencyBundle) (proto : str) : list Dependency :=
  if decide (proto = js "thought") then thoughts b
  else if decide (proto = js "execution") then executions b
  else if decide (proto = js "knowledge") then knowledges b
  else [].

(** A bundle with more successes classified into it. *)
Definition add (b : DependencyBundle) (l : list (ResourceReference * str)) : DependencyBundle :=
  {| thoughts := thoughts b ++ of_protocol (js "thought") l;
     executions := executions b ++ of_protocol (js "execution") l;
     knowledges := knowledges b ++ of_protocol (js "knowledge") l |}.

(** What the promise of [loadDependency] comes to. *)
Definition dependency_outcome (o : Outcome (option LoadResult)) : Outcome (option str) :=
  match o with
  | Pending => Pending
  | other => Returned (resolution other)
  end.

(** A host that also keeps the list of the addresses it was asked for. *)
Definition traced {World} (host : Host World) : Host (World * list str) :=
  {| initialized := λ w, initialized host w.1;
     initializeWithNewArchitecture := λ w,
       let '(o, w') := initializeWithNewArchitecture host w.1 in (o, (w', w.2));
     loadResource := λ a w,
       let '(o, w') := loadResource host a w.1 in (o, (w', w.2 ++ [a]));
     access := λ p w, access host p w.1;
     homedir := homedir host;
     path_join := path_join host;
     settle_order := settle_order host |}.

#[global] Instance ResourceReference_eq_dec : EqDecision ResourceReference.
Proof. solve_decision. Defined.

(** A host for the examples: a loader that answers from a table and keeps
    no state, a file system whose probe answers from a table, paths joined
    with [/], and promises that settle last first. *)
Definition example_host (table : str → Outcome (option LoadResult))
    (probe : str → Outcome ()) : Host () :=
  {| initialized := λ _, true;
     initializeWithNewArchitecture := λ w, (Returned (), w);
     loadResource := λ a w, (table a, w);
     access := λ p _, probe p;
     homedir := js "/home/u";
     path_join := λ segments,
       Ok (foldr (λ x acc, match acc with [] => x | _ => x ++ js "/" ++ acc end) [] segments);
     settle_order := λ n, reverse (seq 0 n) |}.

(** A loader for which every resource is there, with the address as its
    content. *)
Definition echo (a : str) : Outcome (option LoadResult) :=
  Returned (Some {| success := true; content := Some a; loaded_metadata := None |}).

(** A loader for which no resource is there. *)
Definition nothing (a : str) : Outcome (option LoadResult) :=
  Returned (Some {| success := false; content := None; loaded_metadata := None |}).

Definition no_file (p : str) : Outcome () :=
  Thrown {| message := js "ENOENT: no such file or directory, access" |}.

Definition denied (p : str) : Outcome () :=
  Thrown {| message := js "EACCES: permission denied, access" |}.

Definition document (rid : str) (sections : Sections) : RoleDocument :=
  {| role_id := rid; raw := []; sections := sections; metadata := [] |}.

(** The resource manager is ready in world [w1], having been initialized
    from world [w] if it was not yet. *)
Definition ready {World} (host : Host World) (w w1 : World) : Prop :=
  (initialized host w = true ∧ w1 = w)
  ∨ (initialized host w = false
     ∧ initializeWithNewArchitecture host w = (Returned (), w1)).

Definition empty_bundle : DependencyBundle :=
  {| thoughts := []; executions := []; knowledges := [] |}.

(** [h] and [s] differ at a position that both have: [h] is then no prefix
    of [s], however [s] goes on. *)
Fixpoint clash (h s : str) : bool :=
  match h, s with
  | x :: h', y :: s' => negb (x =? y) || clash h' s'
  | _, _ => false
  end.

(** Every suffix of [s] but the empty one clashes with [h]. *)
Fixpoint clear (h s : str) : bool :=
  match s with
  | [] => true
  | _ :: s' => clash h s && clear h s'
  end.

Definition role_headings : list str :=
  [heading_personality; heading_principle; heading_knowledge].

(** ** assembleContent over arguments of any shape

    [assembleContent] once more, over arguments that need not be
    well-typed: an object or a property that the function reads may be
    [undefined] or [null].  Reading a property of [undefined] or of [null]
    raises a TypeError; this is the one way in which the function can
    fail. *)

Inductive Nullable (A : Type) :=
| Undefined
| Null
| Val (a : A).
Arguments Undefined {A}.
Arguments Null {A}.
Arguments Val {A} a.

Record LooseDocument := {
  loose_id : Nullable str;
  loose_sections : Nullable Sections
}.

Record LooseDependency := {
  loose_dep_id : Nullable str;
  loose_dep_content : Nullable str
}.

Record LooseBundle := {
  loose_thoughts : Nullable (list (Nullable LooseDependency));
  loose_executions : Nullable (list (Nullable LooseDependency))
}.

Record LooseStatus := { loose_hasNetwork : Nullable bool }.

Definition TypeError (null : bool) (key : string) : Error :=
  {| message :=
       js "Cannot read properties of "
         ++ (if null then js "null" else js "undefined")
         ++ js " (reading '" ++ js key ++ js "')" |}.

(** [o.key], the property being found by [f] *)
Definition read {A B} (o : Nullable A) (key : string) (f : A → B) : Result B :=
  match o with
  | Val a => Ok (f a)
  | Undefined => Err (TypeError false key)
  | Null => Err (TypeError true key)
  end.

Definition and_then {A B} (r : Result A) (f : A → Result B) : Result B :=
  match r with
  | Ok a => f a
  | Err e => Err e
  end.

(** [`${x}`] *)
Definition text (x : Nullable str) : str :=
  match x with
  | Val s => s
  | Undefined => js "undefined"
  | Null => js "null"
  end.

(** [cleanContent(x)], of which [if (!content) return ''] is the first
    line *)
Definition cleanLoose (x : Nullable str) : str :=
  match x with
  | Val s => cleanContent s
  | _ => []
  end.

(** The lines that the callback of [forEach] pushes, item after item. *)
Fixpoint looseItems (deps : list (Nullable LooseDependency)) : Result (list str) :=
  match deps with
  | [] => Ok []
  | d :: rest =>
      and_then (read d "id" loose_dep_id) (λ i,
      and_then (read d "content" loose_dep_content) (λ c,
      and_then (looseItems rest) (λ items,
      Ok ((js "### " ++ text i) :: cleanLoose c :: [] :: items))))
  end.

Definition looseLayer (heading : str) (deps : Nullable (list (Nullable LooseDependency)))
    : Result (list str) :=
  and_then (read deps "length" (λ l, l)) (λ l,
  match l with
  | [] => Ok []
  | _ :: _ => and_then (looseItems l) (λ items, Ok (heading :: items))
  end).

Definition assembleLoose (roleInfo : Nullable LooseDocument)
    (dependencies : Nullable LooseBundle) (cognitionData : Nullable LooseStatus)
    (mode : Nullable str) : Result str :=
  (* the default of the parameter: [mode = 'command'] *)
  let mode := match mode with Undefined => Val (js "command") | other => other end in
  let same_as (m : str) := match mode with Val s => eqb_str s m | _ => false end in
  and_then (read roleInfo "id" (λ r, text (loose_id r))) (λ rid,
  and_then (read cognitionData "hasNetwork" loose_hasNetwork) (λ network,
  and_then (read roleInfo "sections" loose_sections) (λ sections,
  and_then (read sections "personality"
              (λ s, roleLayer s "personality" heading_personality)) (λ personality,
  and_then (read sections "principle"
              (λ s, roleLayer s "principle" heading_principle)) (λ principle,
  and_then (read sections "knowledge"
              (λ s, roleLayer s "knowledge" heading_knowledge)) (λ knowledge,
  and_then (read dependencies "thoughts" loose_thoughts) (λ thoughts,
  and_then (looseLayer (js "## 💡 思维模式") thoughts) (λ thoughtLines,
  and_then (read dependencies "executions" loose_executions) (λ executions,
  and_then (looseLayer (js "## ⚡ 执行技能") executions) (λ executionLines,
  Ok (join_lines
        (layout rid (match network with Val b => b | _ => false end)
           (same_as (js "subagent")) (same_as (js "command"))
           (personality ++ principle ++ knowledge)
           (thoughtLines ++ executionLines))))))))))))).

(** Well-typed arguments among the arguments of any shape. *)
Definition loose_document (roleInfo : RoleDocument) : Nullable LooseDocument :=
  Val {| loose_id := Val (role_id roleInfo);
         loose_sections := Val (sections roleInfo) |}.

Definition loose_dependency (d : Dependency) : Nullable LooseDependency :=
  Val {| loose_dep_id := Val (dep_id d); loose_dep_content := Val (dep_content d) |}.

Definition loose_bundle (b : DependencyBundle) : Nullable LooseBundle :=
  Val {| loose_thoughts := Val (loose_dependency <$> thoughts b);
         loose_executions := Val (loose_dependency <$> executions b) |}.

Definition loose_status (c : CognitionStatus) : Nullable LooseStatus :=
  Val {| loose_hasNetwork := Val (hasNetwork c) |}.

(** ** Vocabulary of the further properties *)

(** A reference token as it is written in a text: [@], the optional [!],
    the protocol, [://] and the resource. *)
Definition token (bang proto res : str) : str :=
  js "@" ++ bang ++ proto ++ js "://" ++ res.

(** The text ends here, or goes on with a code unit outside the class. *)
Definition stops (p : N → bool) (s : str) : Prop :=
  match s with
  | c :: _ => p c = false
  | [] => True
  end.

(** A protocol without colon and a resource without white space or angle
    bracket, neither of them empty. *)
Definition well_formed (ref : ResourceReference) : Prop :=
  protocol ref ≠ [] ∧ Forall (λ c, neqc 58 c = true) (protocol ref)
  ∧ resource ref ≠ [] ∧ Forall (λ c, is_resource_char c = true) (resource ref).

(** Two texts that differ at most in the case of their ASCII letters. *)
Definition alike (a b : str) : Prop := canon <$> a = canon <$> b.

(** The first place of [s] where [l] stands, the case of letters set aside:
    the text before it, the text found there, and the text after it. *)
Fixpoint find (l s : str) : option (str * str * str) :=
  match strip true l s with
  | Some (m, rest) => Some ([], m, rest)
  | None =>
      match s with
      | [] => None
      | c :: s' =>
          match find l s' with
          | Some (before, m, after) => Some (c :: before, m, after)
          | None => None
          end
      end
  end.

(** The class [[a-zA-Z0-9_-]] *)
Definition is_name_char (c : N) : bool :=
  ((97 <=? c) && (c <=? 122)) || ((65 <=? c) && (c <=? 90))
  || ((48 <=? c) && (c <=? 57)) || (c =? 95) || (c =? 45).

(** A name that stands for itself when it is put into a pattern. *)
Definition plain (name : str) : Prop := Forall (λ c, is_name_char c = true) name.

Definition open_tag (tagName : str) : str := js "<" ++ tagName ++ js ">".
Definition close_tag (tagName : str) : str := js "</" ++ tagName ++ js ">".

(** The text of a role for the examples, and a loader that knows this one
    role and answers like [echo] at every other address. *)
Definition writer_text : str :=
  js "<role><personality> Calm. @!thought://calm </personality><principle>Be brief. @tool://pen</principle></role>".

Definition shelf (a : str) : Outcome (option LoadResult) :=
  if eqb_str a (js "@role://writer") then
    Returned (Some {| success := true; content := Some writer_text;
                      loaded_metadata := None |})
  else echo a.

(** What a settled promise is recorded as. *)
Definition settled_as {B} (o : Outcome B) : Settled B :=
  match o with
  | Returned v => Fulfilled v
  | Thrown e => Rejected e
  | Pending => Rejected {| message := [] |}
  end.

(** ** cli.js: the name of an installation *)

(** The end of the text, as the continuation of a match: [$]. *)
Definition at_end (s : str) : result :=
  match s with
  | [] => Some ([], [])
  | _ :: _ => None
  end.

(** [/^[a-zA-Z0-9_-]+$/.test(s)]: the pattern is tried at the start of the
    text, and the text has to end where the repetition ends. *)
Definition test_name (s : str) : bool :=
  match s with
  | c :: s' =>
      if is_name_char c then
        match greedy is_name_char at_end [c] s' with
        | Some _ => true
        | None => false
        end
      else false
  | [] => false
  end.

(** What [validate] returns: [true], or the text of a complaint. *)
Inductive Verdict :=
| Valid
| Invalid (complaint : str).

(** The [validate] function of the prompt for a custom name. *)
Definition validate (input : str) : Verdict :=
  if falsy (trim input) then Invalid (js "名字不能为空")
  else if negb (test_name (trim input)) then
    Invalid (js "名字只能包含字母、数字、下划线和连字符")
  else Valid.

(** ** cli.js: installRole *)

(** The object that the builder resolves to; [build_error] is the text that
    a template renders for its [error]. *)
Record BuildResult := {
  build_success : bool;
  build_error : str
}.

(** [agentConfig] and [commandConfig]; [None] for [tools] and
    [allowedTools] is a property that was not set. *)
Record AgentConfig := {
  agent_name : str;
  agent_description : str;
  agent_content : str;
  agent_targetDir : str;
  tools : option (list str)
}.

Record CommandConfig := {
  command_name : str;
  command_description : str;
  command_content : str;
  command_targetDir : str;
  allowedTools : option (list str)
}.

(** [ClaudeCodeBuilder] of [claude-code-builder] *)
Record Builder (World : Type) := {
  createSubagent : AgentConfig → World → Outcome BuildResult * World;
  createCommand : CommandConfig → World → Outcome BuildResult * World
}.
Arguments createSubagent {World} b config w.
Arguments createCommand {World} b config w.

(** The object [results]; [None] is a property that was not set. *)
Record InstallResults := {
  agentFile : option str;
  commandFile : option str;
  usage : option str;
  res_roleName : str;            (* [roleName] *)
  res_installType : str          (* [installType] *)
}.

Record SelectedRole := { role : str; source : str }.

Section Install.

Context {World : Type} (host : Host World) (builder : Builder World).

Notation "x <- m ;; f" := (bind m (λ x, f))
  (at level 100, m at next level, right associativity).

(** [customName || (installType === 'agents' ? `${roleName}-agent` : roleName)] *)
Definition finalName (roleName installType customName : str) : str :=
  if falsy customName then
    if eqb_str installType (js "agents") then roleName ++ js "-agent" else roleName
  else customName.

(** The objects [agentConfig] and [commandConfig] of [installRole]. *)
Definition agentConfig (roleName finalName processedContent claudeDir : str)
    (selectedTools : option (list str)) : AgentConfig :=
  {| agent_name := finalName;
     agent_description :=
       js "基于PromptX " ++ roleName ++ js "角色的专业AI助手 - 完整action实现";
     agent_content := processedContent;
     agent_targetDir := claudeDir;
     tools := selectedTools |}.

Definition commandConfig (roleName finalName processedContent claudeDir : str)
    (selectedTools : option (list str)) : CommandConfig :=
  {| command_name := finalName;
     command_description :=
       js "基于PromptX " ++ roleName ++ js "角色的专业助手 - 完整action实现";
     command_content := processedContent;
     command_targetDir := claudeDir;
     allowedTools := selectedTools |}.

(** [installType === 'agents' ? 'subagent' : 'command'] *)
Definition modeOf (installType : str) : str :=
  if eqb_str installType (js "agents") then js "subagent" else js "command".

Definition installRole (selectedRole : SelectedRole) (installType claudeDir : str)
    (selectedTools : option (list str)) (customName : str) : M World InstallResults :=
  let roleName := role selectedRole in
  let results := {| agentFile := None; commandFile := None; usage := None;
                    res_roleName := []; res_installType := [] |} in
  try_catch
    (processor <- lift (λ _, now (newCognitionLoader host)) ;;
     let mode := modeOf installType in
     processedContent <- processRole host processor roleName mode ;;
     let finalName := finalName roleName installType customName in
     results <-
       (if eqb_str installType (js "agents") then
          subagentResult <-
            createSubagent builder
              (agentConfig roleName finalName processedContent claudeDir selectedTools) ;;
          if negb (build_success subagentResult) then
            throw {| message := js "创建Subagent失败: " ++ build_error subagentResult |}
          else
            ret {| agentFile := Some (finalName ++ js ".md");
                   commandFile := commandFile results;
                   usage := Some (js "Use the " ++ finalName ++ js " subagent to [任务描述]");
                   res_roleName := res_roleName results;
                   res_installType := res_installType results |}
        else ret results) ;;
     results <-
       (if eqb_str installType (js "commands") then
          commandResult <-
            createCommand builder
              (commandConfig roleName finalName processedContent claudeDir selectedTools) ;;
          if negb (build_success commandResult) then
            throw {| message := js "创建Command失败: " ++ build_error commandResult |}
          else
            ret {| agentFile := agentFile results;
                   commandFile := Some (finalName ++ js ".md");
                   usage := Some (js "/" ++ finalName);
                   res_roleName := res_roleName results;
                   res_installType := res_installType results |}
        else ret results) ;;
     ret {| agentFile := agentFile results;
            commandFile := commandFile results;
            usage := usage results;
            res_roleName := roleName;
            res_installType := installType |})
    (λ error, throw {| message := js "安装角色失败: " ++ message error |}).

End Install.

(** What a step of the builder comes to, with the complaint of the step:
    a file was made, or the step failed. *)
Definition built {World} (o : Outcome BuildResult * World) (complaint : str)
    : Outcome bool * World :=
  match o with
  | (Returned r, w) =>
      if build_success r then (Returned true, w)
      else (Thrown {| message := complaint ++ build_error r |}, w)
  | (Thrown e, w) => (Thrown e, w)
  | (Pending, w) => (Pending, w)
  end.

(** The results of an installation that made an agent file, a command
    file, or none. *)
Definition resultsOf (roleName installType name : str) (agent command : bool)
    : InstallResults :=
  {| agentFile := if agent then Some (name ++ js ".md") else None;
     commandFile := if command then Some (name ++ js ".md") else None;
     usage :=
       if command then Some (js "/" ++ name)
       else if agent then Some (js "Use the " ++ name ++ js " subagent to [任务描述]")
       else None;
     res_roleName := roleName;
     res_installType := installType |}.

(** A builder for the examples: it accepts every configuration and keeps
    no state; and one that refuses every configuration. *)
Definition accepting : Builder () :=
  {| createSubagent := λ _ w, (Returned {| build_success := true; build_error := js "undefined" |}, w);
     createCommand := λ _ w, (Returned {| build_success := true; build_error := js "undefined" |}, w) |}.

Definition refusing : Builder () :=
  {| createSubagent := λ _ w, (Returned {| build_success := false; build_error := js "disk full" |}, w);
     createCommand := λ _ w, (Returned {| build_success := false; build_error := js "disk full" |}, w) |}.

(** Parts that follow one another in an array of parts. *)
Definition run_of (ls parts : list str) : Prop := ∃ pre post, parts = pre ++ ls ++ post.

(** The section keys that [assembleContent] renders, each with its
    heading. *)
Definition rendered_sections : list (string * str) :=
  [("personality"%string, heading_personality);
   ("principle"%string, heading_principle);
   ("knowledge"%string, heading_knowledge)].

(** ** cli.js: discoverMCPServers *)

Record McpServer := {
  server_name : str;             (* [name] *)
  server_command : str;          (* [command] *)
  connected : bool;
  server_status : str            (* [status] *)
}.

Record Servers := {
  defaultTools : list str;
  mcpServers : list McpServer
}.

(** [s.split('\n')] *)
Fixpoint split_lines (s : str) : list str :=
  match s with
  | [] => [[]]
  | c :: s' =>
      if c =? NL then [] :: split_lines s'
      else
        match split_lines s' with
        | l :: ls => (c :: l) :: ls
        | [] => [[c]]
        end
  end.

(** [s.includes(l)] *)
Fixpoint includes (l s : str) : bool :=
  match strip false l s with
  | Some _ => true
  | None =>
      match s with
      | [] => false
      | _ :: s' => includes l s'
      end
  end.

(** The class [.] of a pattern without the [s] flag: every code unit but
    the line terminators. *)
Definition is_dot (c : N) : bool :=
  negb ((c =? 10) || (c =? 13) || (c =? 8232) || (c =? 8233)).

(** The pieces of a pattern, each with the rest of the pattern as its
    continuation: literal text, [class+], and an alternative of two
    pieces, of which the first is tried first. *)
Definition lit (l : str) (k : str → result) (s : str) : result :=
  match strip false l s with
  | Some (m, s') => push m (k s')
  | None => None
  end.

Definition plus (p : N → bool) (k : str → result) (s : str) : result :=
  match s with
  | c :: s' => if p c then greedy p k [c] s' else None
  | [] => None
  end.

Definition alt (a b : (str → result) → str → result) (k : str → result) (s : str)
    : result :=
  match a k s with
  | Some x => Some x
  | None => b k s
  end.

(** The pattern of a server line, tried at the start of the text:
    [^([^:]+):\s+(.+)\s+-\s+(✓|✗)\s+], then a last group [.*] and [$].
    The pieces of a match: the name, [:], white space, the command, white
    space, [-], white space, the mark, white space, the status text. *)
Definition re_server_line : str → result :=
  plus (neqc 58)
    (lit (js ":")
       (plus is_space
          (plus is_dot
             (plus is_space
                (lit (js "-")
                   (plus is_space
                      (alt (lit (js "✓")) (lit (js "✗"))
                         (plus is_space
                            (greedy is_dot at_end []))))))))).

(** The body of the loop over the lines: the server that a line stands
    for, if it stands for one. *)
Definition serverOf (line : str) : option McpServer :=
  let trimmedLine := trim line in
  match re_server_line trimmedLine with
  | Some (ps, _) =>
      if negb (includes (js "Checking MCP server health") trimmedLine) then
        Some {| server_name := trim (piece ps 0);
                server_command := trim (piece ps 3);
                connected := eqb_str (piece ps 7) (js "✓");
                server_status := trim (piece ps 9) |}
      else None
  | None => None
  end.

(** [execSync] of [child_process] *)
Record Shell (World : Type) := {
  execSync : str → World → Result str * World
}.
Arguments execSync {World} s command w.

Section Discover.

Context {World : Type} (shell : Shell World).

Notation "x <- m ;; f" := (bind m (λ x, f))
  (at level 100, m at next level, right associativity).

Definition discoverMCPServers : M World Servers :=
  let defaultTools := [js "Read"; js "Write"; js "Edit"; js "Bash"] in
  try_catch
    (mcpOutput <-
       (λ w, let '(r, w') := execSync shell (js "claude mcp list") w in (now r, w')) ;;
     let lines := split_lines mcpOutput in
     ret {| defaultTools := defaultTools; mcpServers := omap serverOf lines |})
    (λ _, ret {| defaultTools := defaultTools; mcpServers := [] |}).

End Discover.

(** A shell for the examples, whose command prints a fixed text. *)
Definition printing (output : str) : Shell () :=
  {| execSync := λ _ w, (Ok output, w) |}.

(** ** Headings in an assembled text *)

(** Each suffix of [b] but the empty one clashes with [c]: no end of [b]
    is carried on by a text that starts with [c]. *)
Fixpoint sealed (b c : str) : bool :=
  match b with
  | [] => true
  | _ :: b' => clash b c && sealed b' c
  end.

(** [h] starts at no place of [s], when [s] is followed by [X]. *)
Fixpoint free (h s X : str) : Prop :=
  match s with
  | [] => True
  | _ :: s' => ¬ h `prefix_of` (s ++ X) ∧ free h s' X
  end.

(** [h] starts at no place of [s], whatever follows [s]. *)
Definition line (h s : str) : Prop := ∀ X, free h s X.

(** ** Reference tokens in the sections *)

(** The number of places of [s] at which [l] stands. *)
Fixpoint occurrences (l s : str) : nat :=
  ((if bool_decide (l `prefix_of` s) then 1 else 0)
   + match s with
     | [] => 0
     | _ :: s' => occurrences l s'
     end)%nat.

(** The number of places in the texts of the sections at which a token for
    the reference stands, with or without [!]. *)
Definition written (sections : Sections) (ref : ResourceReference) : nat :=
  sum_list
    (map (λ v, match v with
               | Some text =>
                   (occurrences (token [] (protocol ref) (resource ref)) text
                    + occurrences (token (js "!") (protocol ref) (resource ref)) text)%nat
               | None => 0%nat
               end)
         (values sections)).

(** A text written as tokens set apart: each token stands after a stretch
    without [@] and ends where the text ends or at white space, [<] or [>];
    after the last token no [@] follows. The list holds the references of
    the tokens, in the order of the text. *)
Inductive reads : str → list ResourceReference → Prop :=
| reads_end s : 64 ∉ s → reads s []
| reads_token pre bang ref rest refs :
    64 ∉ pre →
    (bang = js "!" ∨ (bang = [] ∧ head (protocol ref) ≠ Some 33)) →
    well_formed ref →
    stops is_resource_char rest →
    reads rest refs →
    reads (pre ++ token bang (protocol ref) (resource ref) ++ rest) (ref :: refs).

(** Sections of which each text is written as tokens set apart, with the
    references of all the tokens in the order of the sections. *)
Inductive sections_read : Sections → list ResourceReference → Prop :=
| read_nil : sections_read [] []
| read_null key sections refs :
    sections_read sections refs → sections_read ((key, None) :: sections) refs
| read_text key text sections refs1 refs2 :
    reads text refs1 → sections_read sections refs2 →
    sections_read ((key, Some text) :: sections) (refs1 ++ refs2).

(** ** The passes of cleanContent *)

(** The text after step three of [cleanContent]: the tags are gone, and so
    is every match of the token pattern found in one pass. *)
Definition stripTokens (content : str) : str :=
  replaceAll re_token_line [] (stripTags content).

(** Steps four and five of [cleanContent]: the blank lines are replaced and
    the text is trimmed. *)
Definition tidy (s : str) : str := trim (replaceAll re_blank_lines [NL; NL] s).

(** The text goes on with [l] and then with a code unit of a resource. *)
Fixpoint opens (l s : str) : bool :=
  match l, s with
  | [], c :: _ => is_resource_char c
  | a :: l', c :: s' => (c =? a) && opens l' s'
  | _, [] => false
  end.

(** The text after an [@] at which the reference pattern matches: code
    units other than [:], one at least, then [://] and a code unit of a
    resource. *)
Fixpoint body (s : str) : bool :=
  match s with
  | p :: s' => negb (p =? 58) && (opens (js "://") s' || body s')
  | [] => false
  end.

(** The reference pattern matches somewhere in the text. *)
Fixpoint has_token (s : str) : bool :=
  match s with
  | c :: s' => ((c =? 64) && body s') || has_token s'
  | [] => false
  end.

(** * Properties *)

#[global] Arguments N.eqb : simpl never.
#[global] Arguments N.leb : simpl never.
#[global] Arguments N.ltb : simpl never.
#[global] Arguments js : simpl never.
#[global] Arguments cleanContent : simpl never.
#[global] Arguments assembleContent : simpl never.

(** ** The matcher *)

Section Matcher.

Implicit Types (s t rest acc : str) (ps : list str) (r : regex) (k : str → result).

Lemma push_Some piece (x : result) ps rest :
  push piece x = Some (ps, rest) ↔ ∃ ps', ps = piece :: ps' ∧ x = Some (ps', rest).
Proof.
  destruct x as [[ps0 rest0]|]; simpl; split.
  - intros [= <- <-]. eauto.
  - intros (ps' & -> & [= -> ->]). done.
  - done.
  - intros (ps' & _ & [=]).
Qed.

Lemma push_None piece (x : result) : push piece x = None ↔ x = None.
Proof. destruct x as [[??]|]; simpl; split; congruence. Qed.

Lemma strip_sound ci l s m rest :
  strip ci l s = Some (m, rest) → s = m ++ rest ∧ length m = length l.
Proof.
  revert s m rest. induction l as [|a l IH]; intros s m rest; simpl.
  - intros [= <- <-]. done.
  - destruct s as [|c s]; [done|].
    destruct (same ci a c); [|done].
    destruct (strip ci l s) as [[m' rest']|] eqn:E; [|done].
    intros [= <- <-]. destruct (IH _ _ _ E) as [-> Hlen].
    simpl. by rewrite Hlen.
Qed.

Lemma strip_exact l s m rest : strip false l s = Some (m, rest) → m = l.
Proof.
  revert s m rest. induction l as [|a l IH]; intros s m rest; simpl.
  - by intros [= <- <-].
  - destruct s as [|c s]; [done|]. unfold same.
    destruct (N.eqb_spec a c) as [->|]; [|done].
    destruct (strip false l s) as [[m' rest']|] eqn:E; [|done].
    intros [= <- <-]. by rewrite (IH _ _ _ E).
Qed.

Lemma strip_app l rest : strip false l (l ++ rest) = Some (l, rest).
Proof.
  induction l as [|a l IH]; simpl; [done|].
  unfold same. by rewrite N.eqb_refl, IH.
Qed.


Lemma greedy_sound p k :
  sound k → ∀ s acc ps rest,
    greedy p k acc s = Some (ps, rest) → acc ++ s = concat ps ++ rest.
Proof.
  intros Hk s. induction s as [|c s IH]; intros acc ps rest; simpl.
  - intros (ps' & -> & H)%push_Some. apply Hk in H. simpl.
    rewrite <-app_assoc. by f_equal.
  - assert (Hstop : push acc (k (c :: s)) = Some (ps, rest) →
                    acc ++ c :: s = concat ps ++ rest).
    { intros (ps' & -> & H)%push_Some. apply Hk in H. simpl.
      rewrite <-app_assoc. by f_equal. }
    destruct (p c); [|done].
    destruct (greedy p k (acc ++ [c]) s) as [x|] eqn:E; [|done].
    intros [= ->]. apply IH in E. by rewrite <-E, <-app_assoc.
Qed.

Lemma lazy_sound p k :
  sound k → ∀ s acc ps rest,
    lazy p k acc s = Some (ps, rest) → acc ++ s = concat ps ++ rest.
Proof.
  intros Hk s. induction s as [|c s IH]; intros acc ps rest; simpl.
  - destruct (push acc (k [])) as [x|] eqn:E; [|done].
    intros [= ->]. apply push_Some in E as (ps' & -> & H). apply Hk in H.
    simpl. rewrite <-app_assoc. by f_equal.
  - destruct (push acc (k (c :: s))) as [x|] eqn:E.
    + intros [= ->]. apply push_Some in E as (ps' & -> & H). apply Hk in H.
      simpl. rewrite <-app_assoc. by f_equal.
    + destruct (p c); [|done]. intros H%IH. by rewrite <-H, <-app_assoc.
Qed.

Lemma exec_sound r : sound (exec r).
Proof.
  induction r as [|a r IH]; intros s ps rest; simpl.
  - by intros [= <- <-].
  - destruct a as [ci l|p|p|p|p].
    + destruct (strip ci l s) as [[m s']|] eqn:E; [|done].
      intros (ps' & -> & H)%push_Some. apply IH in H.
      apply strip_sound in E as [-> _]. simpl. rewrite <-app_assoc. by f_equal.
    + intros H. by apply (greedy_sound p _ IH) in H.
    + destruct s as [|c s]; [done|]. destruct (p c); [|done].
      intros H. by apply (greedy_sound p _ IH) in H.
    + assert (Hskip : push [] (exec r s) = Some (ps, rest) → s = concat ps ++ rest).
      { intros (ps' & -> & H)%push_Some. by apply IH in H. }
      destruct s as [|c s]; [done|]. destruct (p c); [|done].
      destruct (push [c] (exec r s)) as [x|] eqn:E; [|done].
      intros [= ->]. apply push_Some in E as (ps' & -> & H). apply IH in H.
      simpl. by f_equal.
    + intros H. by apply (lazy_sound p _ IH) in H.
Qed.

Lemma exec_rest_suffix r s ps rest : exec r s = Some (ps, rest) → rest `suffix_of` s.
Proof. intros ->%exec_sound. by apply suffix_app_r. Qed.

(** *** The scan *)

Lemma scan_skip r s n : (n ≤ length s)%nat → scan r s n = scan r (drop n s) 0.
Proof.
  revert n. induction s as [|c s IH]; intros [|n]; simpl; try done; try lia.
  intros ?. apply IH. lia.
Qed.

Lemma scan_cons r c s :
  scan r (c :: s) 0 =
    match exec r (c :: s) with
    | Some (ps, rest) =>
        match concat ps with
        | [] => Hit ps :: Keep c :: scan r s 0
        | _ :: _ => Hit ps :: scan r rest 0
        end
    | None => Keep c :: scan r s 0
    end.
Proof.
  simpl. destruct (exec r (c :: s)) as [[ps rest]|] eqn:E; [|done].
  pose proof (exec_sound _ _ _ _ E) as Hs.
  destruct (concat ps) as [|c' m] eqn:Em; simpl; [done|].
  simpl in Hs. injection Hs as -> ->.
  rewrite scan_skip by (rewrite length_app; lia).
  by rewrite drop_app_length.
Qed.

(** Induction along the scan: from a position, either the code unit is
    kept, or a match is passed over. *)
Lemma scan_ind r (P : str → Prop) :
  P [] →
  (∀ c s, exec r (c :: s) = None → P s → P (c :: s)) →
  (∀ c s ps rest, exec r (c :: s) = Some (ps, rest) → concat ps = [] → P s → P (c :: s)) →
  (∀ c s ps rest,
      exec r (c :: s) = Some (ps, rest) → concat ps ≠ [] →
      c :: s = concat ps ++ rest → P rest → P (c :: s)) →
  ∀ s, P s.
Proof.
  intros Hnil Hkeep Hempty Hhit s.
  induction s as [s IH] using (induction_ltof1 _ (@length N)). unfold ltof in IH.
  destruct s as [|c s]; [done|].
  destruct (exec r (c :: s)) as [[ps rest]|] eqn:E.
  - destruct (decide (concat ps = [])) as [Hc|Hc].
    + eapply Hempty; [done..|]. apply IH. simpl. lia.
    + pose proof (exec_sound _ _ _ _ E) as Hs.
      eapply Hhit; [done..|]. apply IH. rewrite Hs, length_app.
      destruct (concat ps); [done|]. simpl. lia.
  - apply Hkeep; [done|]. apply IH. simpl. lia.
Qed.

Lemma replaceAll_nil r repl :
  replaceAll r repl [] = match exec r [] with Some _ => repl | None => [] end.
Proof.
  unfold replaceAll. simpl. destruct (exec r []) as [[??]|]; simpl; [|done].
  by rewrite app_nil_r.
Qed.

Lemma replaceAll_cons r repl c s :
  replaceAll r repl (c :: s) =
    match exec r (c :: s) with
    | Some (ps, rest) =>
        match concat ps with
        | [] => repl ++ c :: replaceAll r repl s
        | _ :: _ => repl ++ replaceAll r repl rest
        end
    | None => c :: replaceAll r repl s
    end.
Proof.
  unfold replaceAll. rewrite scan_cons.
  destruct (exec r (c :: s)) as [[ps rest]|]; [|done].
  by destruct (concat ps).
Qed.

(** Where the pattern matches nowhere, the text is left as it is. *)
Lemma replaceAll_id r repl s :
  (∀ t, t `suffix_of` s → exec r t = None) → replaceAll r repl s = s.
Proof.
  induction s as [|c s IH]; intros H.
  - rewrite replaceAll_nil. by rewrite (H []).
  - rewrite replaceAll_cons, (H (c :: s)) by done. f_equal. apply IH.
    intros t Ht. apply H. by apply suffix_cons_r.
Qed.

Lemma replaceAll_Forall (P : N → Prop) r repl s :
  Forall P repl → Forall P s → Forall P (replaceAll r repl s).
Proof.
  intros Hrepl.
  induction s as [|c s Hex IH|c s ps rest Hex Hc IH|c s ps rest Hex Hc Hs IH]
    using (scan_ind r); intros HP.
  - rewrite replaceAll_nil. by destruct (exec r []).
  - rewrite replaceAll_cons, Hex. inversion_clear HP. constructor; auto.
  - rewrite replaceAll_cons, Hex, Hc. inversion_clear HP.
    apply Forall_app; split; [done|]. constructor; auto.
  - rewrite replaceAll_cons, Hex. destruct (concat ps) eqn:E; [done|].
    apply Forall_app; split; [done|]. apply IH.
    rewrite Hs in HP. by apply Forall_app in HP as [_ ?].
Qed.

End Matcher.

(** ** White space and trimming *)

Section Trim.

Implicit Types (s t w : str).

Lemma suffix_cons_case {A} (t l : list A) y :
  t `suffix_of` y :: l → t = y :: l ∨ t `suffix_of` l.
Proof.
  intros [[|x k] H]; simpl in H; [by left|].
  injection H as -> ->. right. by apply suffix_app_r.
Qed.

Lemma every_suffix_spec (f : str → bool) s t :
  every_suffix f s = true → t `suffix_of` s → f t = true.
Proof.
  induction s as [|c s IH]; simpl.
  - intros H%andb_prop ->%suffix_nil_inv. tauto.
  - intros [H1 H2]%andb_prop [->|Ht]%suffix_cons_case; auto.
Qed.

Lemma is_space_NL c : (NL =? c) = true → is_space c = true.
Proof. intros <-%N.eqb_eq. done. Qed.

Lemma trimStart_suffix s : trimStart s `suffix_of` s.
Proof.
  induction s as [|c s IH]; simpl; [done|].
  destruct (is_space c); [|done]. by apply suffix_cons_r.
Qed.

Lemma trimStart_spaces s : ∃ w, s = w ++ trimStart s ∧ Forall (λ c, is_space c = true) w.
Proof.
  induction s as [|c s (w & IH & Hw)]; simpl.
  - by exists [].
  - destruct (is_space c) eqn:E.
    + exists (c :: w). split; [simpl; by f_equal|]. by constructor.
    + by exists [].
Qed.

Lemma trimEnd_spaces s : ∃ w, s = trimEnd s ++ w ∧ Forall (λ c, is_space c = true) w.
Proof.
  destruct (trimStart_spaces (reverse s)) as (w & H & Hw).
  exists (reverse w). split.
  - unfold trimEnd. rewrite <-reverse_app, <-H. by rewrite reverse_involutive.
  - by apply Forall_reverse.
Qed.


Lemma trimStart_tight s : tight (trimStart s).
Proof.
  induction s as [|c s IH]; simpl; [done|]. by destruct (is_space c) eqn:E.
Qed.

Lemma tight_trimStart s : tight s → trimStart s = s.
Proof. destruct s as [|c s]; simpl; [done|]. by intros ->. Qed.

Lemma tight_reverse_suffix s t :
  t `suffix_of` s → tight (reverse s) → tight (reverse t).
Proof.
  intros [k ->]. rewrite reverse_app.
  destruct (reverse t) as [|c t'] eqn:E; [done|]. done.
Qed.

Lemma trim_trim s : trim (trim s) = trim s.
Proof.
  unfold trim at 1. unfold trimEnd at 1.
  assert (tight (reverse (trim s))) as ->%tight_trimStart.
  { apply (tight_reverse_suffix (trimEnd s)); [apply trimStart_suffix|].
    unfold trimEnd. rewrite reverse_involutive. apply trimStart_tight. }
  rewrite reverse_involutive. apply tight_trimStart, trimStart_tight.
Qed.

Lemma trimStart_Forall (P : N → Prop) s : Forall P s → Forall P (trimStart s).
Proof.
  intros H. destruct (trimStart_suffix s) as [k Hk]. rewrite Hk in H.
  by apply Forall_app in H as [_ ?].
Qed.

Lemma trim_Forall (P : N → Prop) s : Forall P s → Forall P (trim s).
Proof.
  intros H. apply trimStart_Forall. unfold trimEnd.
  by apply Forall_reverse, trimStart_Forall, Forall_reverse.
Qed.

Lemma lead_nl_NL t : lead_nl (NL :: t) = S (lead_nl t).
Proof. done. Qed.

Lemma lead_nl_app_le t w : (lead_nl t ≤ lead_nl (t ++ w))%nat.
Proof.
  induction t as [|c t IH]; simpl; [lia|].
  destruct (is_space c); lia.
Qed.

Lemma lead_nl_app_ub t w : (lead_nl (t ++ w) ≤ length t + lead_nl w)%nat.
Proof.
  induction t as [|c t IH]; simpl; [lia|].
  destruct (is_space c); [|lia]. destruct (NL =? c); lia.
Qed.

Lemma calm_suffix s t : t `suffix_of` s → calm s → calm t.
Proof. intros Hts Hs t' Ht'. apply Hs. by etrans. Qed.

Lemma calm_trim s : calm s → calm (trim s).
Proof.
  intros Hs. apply (calm_suffix (trimEnd s)); [apply trimStart_suffix|].
  destruct (trimEnd_spaces s) as (w & Hw & _).
  intros t [k Ht]. etrans; [apply (lead_nl_app_le t w)|].
  apply Hs. exists k. rewrite Hw at 1. rewrite Ht. by rewrite app_assoc.
Qed.

Lemma calm_no_blank_run s : calm s → ¬ occurs [NL; NL; NL] s.
Proof.
  intros Hs (pre & post & ->).
  specialize (Hs ([NL; NL; NL] ++ post)). cbn [app] in Hs.
  rewrite !lead_nl_NL in Hs.
  assert (3 ≤ 2)%nat; [|lia]. etrans; [|apply Hs; by apply suffix_app_r].
  lia.
Qed.

End Trim.

(** ** The blank-line pattern *)

Section BlankLines.

Implicit Types (s t : str).

Lemma greedy_rest_view p k acc s :
  snd <$> greedy p k acc s = greedy_rest p (λ t, snd <$> k t) s.
Proof.
  assert (Hpush : ∀ a t, snd <$> push a (k t) = snd <$> k t).
  { intros a t. by destruct (k t) as [[??]|]. }
  revert acc. induction s as [|c s IH]; intros acc; simpl; [done|].
  destruct (p c); [|done]. rewrite <-(IH (acc ++ [c])).
  by destruct (greedy p k (acc ++ [c]) s).
Qed.

Lemma greedy_rest_ext p k k' s :
  (∀ t, k t = k' t) → greedy_rest p k s = greedy_rest p k' s.
Proof.
  intros H. induction s as [|c s IH]; simpl; [done|]. by rewrite IH, H.
Qed.

Lemma after_last_nl_None s : after_last_nl s = None ↔ lead_nl s = 0%nat.
Proof.
  induction s as [|c s IH]; simpl; [done|].
  destruct (is_space c); [|done].
  destruct (after_last_nl s) as [x|].
  - split; [done|]. intros H. assert (lead_nl s = 0%nat) as ?%IH by lia. done.
  - destruct (NL =? c); [split; [done|lia]|]. rewrite <-IH. done.
Qed.

Lemma after_last_nl_Some s x :
  after_last_nl s = Some x → x `suffix_of` s ∧ lead_nl x = 0%nat.
Proof.
  revert x. induction s as [|c s IH]; intros x; simpl; [done|].
  destruct (is_space c); [|done].
  destruct (after_last_nl s) as [y|] eqn:E.
  - intros [= <-]. destruct (IH _ eq_refl). split; [by apply suffix_cons_r|done].
  - destruct (NL =? c); [|done]. intros [= <-].
    split; [by apply suffix_cons_r|]. by apply after_last_nl_None.
Qed.

(** [\s*\n] after the first newline of the pattern has been passed *)
Lemma greedy_last_nl s :
  greedy_rest is_space
    (λ t, match t with c :: t' => if NL =? c then Some t' else None | [] => None end) s
  = after_last_nl s.
Proof.
  induction s as [|c s IH]; simpl; [done|]. rewrite IH.
  destruct (is_space c) eqn:E; [done|].
  destruct (NL =? c) eqn:E'; [|done]. apply is_space_NL in E'. congruence.
Qed.

(** [\s*\n\s*\n] *)
Lemma greedy_two_nl s :
  greedy_rest is_space
    (λ t, match t with c :: t' => if NL =? c then after_last_nl t' else None | [] => None end) s
  = if decide (2 ≤ lead_nl s)%nat then after_last_nl s else None.
Proof.
  induction s as [|c s IH]; simpl; [done|]. rewrite IH. clear IH.
  destruct (is_space c) eqn:E.
  - destruct (decide (2 ≤ lead_nl s)%nat) as [H2|H2].
    + destruct (after_last_nl s) as [x|] eqn:Ex.
      * by rewrite decide_True by lia.
      * apply after_last_nl_None in Ex. lia.
    + destruct (NL =? c) eqn:Ec; simpl.
      * destruct (after_last_nl s) as [x|] eqn:Ex.
        -- rewrite decide_True; [done|].
           destruct (lead_nl s) eqn:El; [|lia].
           apply after_last_nl_None in El. congruence.
        -- apply after_last_nl_None in Ex. rewrite decide_False by lia. done.
      * rewrite decide_False by lia. done.
  - destruct (NL =? c) eqn:E'; [|done]. apply is_space_NL in E'. congruence.
Qed.

(** Where [/\n\s*\n\s*\n/] matches and how far: at a newline that opens
    white space with three newlines or more, up to the last of them. *)
Lemma exec_blank_lines s :
  snd <$> exec re_blank_lines s =
    match s with
    | c :: s' =>
        if NL =? c then
          if decide (2 ≤ lead_nl s')%nat then after_last_nl s' else None
        else None
    | [] => None
    end.
Proof.
  assert (Hpush : ∀ a (x : result), snd <$> push a x = snd <$> x).
  { intros a x. by destruct x as [[??]|]. }
  assert (H1 : ∀ t, snd <$> exec [Lit false [NL]] t
               = match t with c :: t' => if NL =? c then Some t' else None | [] => None end).
  { intros [|c t]; simpl; [done|]. unfold same. by destruct (NL =? c). }
  assert (H2 : ∀ t, snd <$> exec [Lit false [NL]; Star is_space; Lit false [NL]] t
               = match t with c :: t' => if NL =? c then after_last_nl t' else None | [] => None end).
  { intros [|c t]; [done|]. cbn [exec strip]. unfold same.
    destruct (NL =? c); [|done]. rewrite Hpush, greedy_rest_view.
    rewrite (greedy_rest_ext _ _ _ _ H1). apply greedy_last_nl. }
  destruct s as [|c s]; [done|]. unfold re_blank_lines. cbn [exec strip]. unfold same.
  destruct (NL =? c); [|done]. rewrite Hpush, greedy_rest_view.
  rewrite (greedy_rest_ext _ _ _ _ H2). apply greedy_two_nl.
Qed.

Lemma exec_blank_lines_Some s ps rest :
  exec re_blank_lines s = Some (ps, rest) →
  (3 ≤ lead_nl s)%nat ∧ lead_nl rest = 0%nat ∧ concat ps ≠ [].
Proof.
  intros H. pose proof (exec_blank_lines s) as Hv. rewrite H in Hv. simpl in Hv.
  destruct s as [|c s]; [done|]. destruct (NL =? c) eqn:Ec; [|done].
  destruct (decide (2 ≤ lead_nl s)%nat); [|done].
  symmetry in Hv. apply after_last_nl_Some in Hv as [Hsuf Hrest].
  simpl. rewrite (is_space_NL _ Ec), Ec. split_and!; [lia|done|].
  intros Hc. apply exec_sound in H. rewrite Hc in H. simpl in H. subst rest.
  apply suffix_cons_not in Hsuf. done.
Qed.

Lemma exec_blank_lines_None s :
  exec re_blank_lines s = None →
  match s with c :: _ => c ≠ NL ∨ (lead_nl s ≤ 2)%nat | [] => True end.
Proof.
  intros H. pose proof (exec_blank_lines s) as Hv. rewrite H in Hv. simpl in Hv.
  destruct s as [|c s]; [done|]. simpl.
  destruct (N.eqb_spec NL c) as [<-|Hne]; [|left; congruence].
  right. simpl. destruct (decide (2 ≤ lead_nl s)%nat) as [H2|H2]; [|lia].
  symmetry in Hv. apply after_last_nl_None in Hv. lia.
Qed.

(** The text after the replacement of the blank lines. *)
Lemma collapse_lead_nl s :
  lead_nl (replaceAll re_blank_lines [NL; NL] s) = (lead_nl s `min` 2)%nat.
Proof.
  induction s as [|c s Hex IH|c s ps rest Hex Hc IH|c s ps rest Hex Hc Hs IH]
    using (scan_ind re_blank_lines).
  - by rewrite replaceAll_nil.
  - rewrite replaceAll_cons, Hex. simpl. rewrite IH.
    apply exec_blank_lines_None in Hex.
    destruct (is_space c) eqn:Es; [|done]. simpl in Hex. rewrite Es in Hex.
    destruct (N.eqb_spec NL c) as [<-|Hne]; [|lia].
    destruct Hex as [|Hex]; [done|]. lia.
  - by apply exec_blank_lines_Some in Hex as (_ & _ & ?).
  - rewrite replaceAll_cons, Hex. destruct (concat ps); [done|].
    apply exec_blank_lines_Some in Hex as (H3 & H0 & _).
    cbn [app]. rewrite !lead_nl_NL, IH, H0. lia.
Qed.

Lemma collapse_calm s : calm (replaceAll re_blank_lines [NL; NL] s).
Proof.
  induction s as [|c s Hex IH|c s ps rest Hex Hc IH|c s ps rest Hex Hc Hs IH]
    using (scan_ind re_blank_lines).
  - rewrite replaceAll_nil. simpl. intros t ->%suffix_nil_inv. simpl. lia.
  - intros t Ht. pose proof (collapse_lead_nl (c :: s)) as Hl.
    rewrite replaceAll_cons, Hex in Ht, Hl.
    apply suffix_cons_case in Ht as [->|Ht]; [lia|]. by apply IH.
  - by apply exec_blank_lines_Some in Hex as (_ & _ & ?).
  - intros t Ht. pose proof (collapse_lead_nl (c :: s)) as Hl.
    pose proof (collapse_lead_nl rest) as Hr.
    rewrite replaceAll_cons, Hex in Ht, Hl. destruct (concat ps); [done|].
    apply exec_blank_lines_Some in Hex as (H3 & H0 & _).
    cbn [app] in Ht, Hl.
    apply suffix_cons_case in Ht as [->|Ht]; [lia|].
    apply suffix_cons_case in Ht as [->|Ht]; [|by apply IH].
    rewrite lead_nl_NL, Hr, H0. lia.
Qed.

Lemma calm_collapse s : calm s → replaceAll re_blank_lines [NL; NL] s = s.
Proof.
  intros Hs. apply replaceAll_id. intros t Ht.
  destruct (exec re_blank_lines t) as [[ps rest]|] eqn:E; [|done].
  apply exec_blank_lines_Some in E as (H3 & _). specialize (Hs t Ht). lia.
Qed.

End BlankLines.

(** ** Patterns that consume text *)

Section Consuming.

Implicit Types (s t rest : str) (ps : list str) (r : regex).


Lemma greedy_inv p k acc s ps rest :
  greedy p k acc s = Some (ps, rest) →
  ∃ a t ps', ps = a :: ps' ∧ k t = Some (ps', rest).
Proof.
  revert acc. induction s as [|c s IH]; intros acc; simpl.
  - intros (ps' & -> & H)%push_Some. eauto.
  - assert (push acc (k (c :: s)) = Some (ps, rest) →
            ∃ a t ps', ps = a :: ps' ∧ k t = Some (ps', rest)).
    { intros (ps' & -> & H)%push_Some. eauto. }
    destruct (p c); [|done].
    destruct (greedy p k (acc ++ [c]) s) as [x|] eqn:E; [|done].
    intros [= ->]. eauto.
Qed.

Lemma exec_Lit_inv ci l r t ps rest :
  exec (Lit ci l :: r) t = Some (ps, rest) →
  ∃ m t' ps', strip ci l t = Some (m, t') ∧ ps = m :: ps' ∧ exec r t' = Some (ps', rest).
Proof.
  simpl. destruct (strip ci l t) as [[m t']|]; [|done].
  intros (ps' & -> & H)%push_Some. eauto 6.
Qed.

Lemma consuming_Lit l c r : consuming (Lit false (c :: l) :: r).
Proof.
  intros t ps rest (m & t' & ps' & ->%strip_exact & -> & _)%exec_Lit_inv. done.
Qed.

Lemma consuming_Star_Lit p l c r : consuming (Star p :: Lit false (c :: l) :: r).
Proof.
  intros t ps rest (a & t' & ps' & -> & H)%greedy_inv.
  apply consuming_Lit in H. simpl. by destruct a.
Qed.

Lemma consuming_reference_open : consuming re_reference_open.
Proof. apply consuming_Lit. Qed.
Lemma consuming_reference_close : consuming re_reference_close.
Proof. apply consuming_Lit. Qed.
Lemma consuming_token_line : consuming re_token_line.
Proof. apply consuming_Star_Lit. Qed.
Lemma consuming_reference : consuming re_reference.
Proof. apply consuming_Lit. Qed.

Lemma consuming_nil r : consuming r → exec r [] = None.
Proof.
  intros Hr. destruct (exec r []) as [[ps rest]|] eqn:E; [|done].
  pose proof (exec_sound _ _ _ _ E) as Hs. apply Hr in E.
  by destruct (concat ps).
Qed.

Lemma not_matches_in r s : ¬ matches_in r s ↔ ∀ t, t `suffix_of` s → exec r t = None.
Proof.
  split.
  - intros H t Ht. destruct (exec r t) eqn:E; [|done].
    destruct H. exists t. split; [done|congruence].
  - intros H (t & Ht & Hex). by apply Hex, H.
Qed.

Lemma matches_in_cons r c s :
  exec r (c :: s) = None → matches_in r (c :: s) → matches_in r s.
Proof.
  intros Hex (t & [->|Ht]%suffix_cons_case & Hm); [done|]. by exists t.
Qed.

(** Removing the matches of a consuming pattern shortens the text, and
    strictly so when there is a match. *)
Lemma replaceAll_length r s :
  consuming r →
  (length (replaceAll r [] s) ≤ length s)%nat
  ∧ (matches_in r s → (length (replaceAll r [] s) < length s)%nat).
Proof.
  intros Hr.
  induction s as [|c s Hex IH|c s ps rest Hex Hc IH|c s ps rest Hex Hc Hs IH]
    using (scan_ind r).
  - rewrite replaceAll_nil, (consuming_nil _ Hr). split; [done|].
    intros (t & ->%suffix_nil_inv & Hm). by rewrite (consuming_nil _ Hr) in Hm.
  - rewrite replaceAll_cons, Hex. simpl. split; [lia|].
    intros Hm%matches_in_cons; [|done]. apply IH in Hm. lia.
  - by apply Hr in Hex.
  - rewrite replaceAll_cons, Hex. destruct (concat ps) as [|c' m] eqn:E; [done|].
    apply (f_equal length) in Hs. rewrite length_app in Hs. simpl in *.
    destruct IH as [IH _]. split; [lia|intros _; lia].
Qed.

(** A code unit at which the pattern always matches does not survive. *)
Lemma replaceAll_drops a r s :
  consuming r →
  (∀ t, t `suffix_of` s → head t = Some a → exec r t ≠ None) →
  a ∉ replaceAll r [] s.
Proof.
  intros Hr.
  induction s as [|c s Hex IH|c s ps rest Hex Hc IH|c s ps rest Hex Hc Hs IH]
    using (scan_ind r); intros Ha.
  - rewrite replaceAll_nil, (consuming_nil _ Hr). apply not_elem_of_nil.
  - rewrite replaceAll_cons, Hex. apply not_elem_of_cons. split.
    + intros ->. by apply (Ha (c :: s)).
    + apply IH. intros t Ht. apply Ha. by apply suffix_cons_r.
  - by apply Hr in Hex.
  - rewrite replaceAll_cons, Hex. destruct (concat ps) as [|c' m] eqn:E; [done|].
    simpl. apply IH. intros t Ht. apply Ha. etrans; [done|].
    by eapply exec_rest_suffix.
Qed.

Lemma collapse_length s :
  (length (replaceAll re_blank_lines [NL; NL] s) ≤ length s)%nat.
Proof.
  induction s as [|c s Hex IH|c s ps rest Hex Hc IH|c s ps rest Hex Hc Hs IH]
    using (scan_ind re_blank_lines).
  - by rewrite replaceAll_nil.
  - rewrite replaceAll_cons, Hex. simpl. lia.
  - by apply exec_blank_lines_Some in Hex as (_ & _ & ?).
  - rewrite replaceAll_cons, Hex. destruct (concat ps) as [|c' m] eqn:E; [done|].
    apply exec_blank_lines_Some in Hex as (H3 & H0 & _).
    rewrite Hs in H3. pose proof (lead_nl_app_ub (c' :: m) rest) as Hub.
    apply (f_equal length) in Hs. rewrite length_app in Hs.
    cbn [app length] in *. lia.
Qed.

Lemma trim_length s : (length (trim s) ≤ length s)%nat.
Proof.
  unfold trim. etrans; [apply suffix_length, trimStart_suffix|].
  unfold trimEnd. rewrite length_reverse.
  etrans; [apply suffix_length, trimStart_suffix|]. by rewrite length_reverse.
Qed.

End Consuming.

(** ** cleanContent *)

Section CleanContent.

Implicit Types (x s t : str).

Lemma cleanContent_unfold x :
  cleanContent x =
    trim (replaceAll re_blank_lines [NL; NL] (replaceAll re_token_line [] (stripTags x))).
Proof.
  destruct x as [|c x]; [by vm_compute|done].
Qed.

Lemma cleanContent_calm x : calm (cleanContent x).
Proof. rewrite cleanContent_unfold. apply calm_trim, collapse_calm. Qed.

Lemma cleanContent_trimmed x : trim (cleanContent x) = cleanContent x.
Proof. rewrite cleanContent_unfold. apply trim_trim. Qed.

Lemma cleanContent_length x :
  (length (cleanContent x)
   ≤ length (replaceAll re_token_line [] (stripTags x)))%nat.
Proof.
  rewrite cleanContent_unfold. etrans; [apply trim_length|]. apply collapse_length.
Qed.

(** C1, counterexample: the first pass joins the two halves of a tag
    that the second pass then removes. *)
Lemma cleanContent_twice_differs :
  ¬ ∀ x, cleanContent (cleanContent x) = cleanContent x.
Proof.
  intros H. specialize (H (js "<refe<reference>rence>")).
  vm_compute in H. discriminate H.
Qed.

(** C1, as amended: a second pass of [cleanContent] changes nothing exactly
    when the cleaned text holds no reference tag and no reference token
    any more, which deleting matches in one pass can leave behind at the
    seams. *)
Theorem cleanContent_idempotent_iff x :
  cleanContent (cleanContent x) = cleanContent x ↔ ¬ residue (cleanContent x).
Proof.
  set (y := cleanContent x). split.
  - intros Hy Hres.
    pose proof (cleanContent_length y) as H3. fold y in H3. rewrite Hy in H3.
    destruct (replaceAll_length re_reference_open y consuming_reference_open)
      as [Ho Ho'].
    destruct (replaceAll_length re_reference_close
                (replaceAll re_reference_open [] y) consuming_reference_close)
      as [Hc Hc'].
    destruct (replaceAll_length re_token_line (stripTags y) consuming_token_line)
      as [Ht Ht'].
    unfold stripTags in *.
    assert (Hno : ¬ matches_in re_reference_open y) by (intros ?%Ho'; lia).
    rewrite not_matches_in in Hno.
    rewrite (replaceAll_id _ _ _ Hno) in *.
    assert (Hnc : ¬ matches_in re_reference_close y) by (intros ?%Hc'; lia).
    rewrite not_matches_in in Hnc.
    rewrite (replaceAll_id _ _ _ Hnc) in *.
    assert (Hnt : ¬ matches_in re_token_line y) by (intros ?%Ht'; lia).
    destruct Hres as [?|[?|?]]; [by apply not_matches_in in Hno| |done].
    by apply not_matches_in in Hnc.
  - intros Hres.
    assert (Ho : ∀ t, t `suffix_of` y → exec re_reference_open t = None).
    { apply not_matches_in. intros ?. apply Hres. by left. }
    assert (Hc : ∀ t, t `suffix_of` y → exec re_reference_close t = None).
    { apply not_matches_in. intros ?. apply Hres. right. by left. }
    assert (Ht : ∀ t, t `suffix_of` y → exec re_token_line t = None).
    { apply not_matches_in. intros ?. apply Hres. right. by right. }
    rewrite (cleanContent_unfold y). unfold stripTags.
    rewrite (replaceAll_id re_reference_open _ _ Ho),
      (replaceAll_id re_reference_close _ _ Hc),
      (replaceAll_id re_token_line _ _ Ht).
    rewrite calm_collapse by apply cleanContent_calm. apply cleanContent_trimmed.
Qed.

Lemma exec_reference_head t : exec re_reference t ≠ None → head t = Some 64.
Proof.
  destruct (exec re_reference t) as [[ps rest]|] eqn:E; [intros _|done].
  apply exec_Lit_inv in E as (m & t' & ps' & E & _).
  pose proof (strip_exact _ _ _ _ E) as ->. apply strip_sound in E as [-> _]. done.
Qed.

End CleanContent.

(** ** RoleLoader: the delimiters of a role *)

Section Delimiters.

Implicit Types (l s t pre post inner : str).

Lemma occurs_suffix l s t : t `suffix_of` s → occurs l t → occurs l s.
Proof.
  intros [k ->] (pre & post & ->). exists (k ++ pre), post. by rewrite <-app_assoc.
Qed.

Lemma cut_Some l s before after :
  cut l s = Some (before, after) →
  s = before ++ l ++ after
  ∧ ∀ pre' post', s = pre' ++ l ++ post' → (length before ≤ length pre')%nat.
Proof.
  revert before after. induction s as [|c s IH]; intros before after; simpl.
  - destruct (strip false l []) as [[m rest]|] eqn:E; [|done].
    intros [= <- <-]. pose proof (strip_exact _ _ _ _ E) as ->.
    apply strip_sound in E as [E _]. split; [done|]. simpl. lia.
  - destruct (strip false l (c :: s)) as [[m rest]|] eqn:E.
    + intros [= <- <-]. pose proof (strip_exact _ _ _ _ E) as ->.
      apply strip_sound in E as [E _]. split; [done|]. simpl. lia.
    + destruct (cut l s) as [[b a]|] eqn:Ec; [|done].
      intros [= <- <-]. destruct (IH _ _ eq_refl) as [-> Hmin].
      split; [done|]. intros [|c' pre'] post' Heq.
      * simpl in Heq. rewrite Heq, strip_app in E. done.
      * injection Heq as -> Heq. apply Hmin in Heq. simpl. lia.
Qed.

Lemma cut_None l s : cut l s = None ↔ ¬ occurs l s.
Proof.
  split.
  - induction s as [|c s IH]; simpl.
    + destruct (strip false l []) as [[m rest]|] eqn:E; [done|].
      intros _ ([|??] & post & Heq); [|done]. simpl in Heq.
      by rewrite Heq, strip_app in E.
    + destruct (strip false l (c :: s)) as [[m rest]|] eqn:E; [done|].
      destruct (cut l s) as [[b a]|] eqn:Ec; [done|].
      intros _ ([|c' pre] & post & Heq).
      * simpl in Heq. by rewrite Heq, strip_app in E.
      * injection Heq as -> Heq. apply IH; [done|]. by exists pre, post.
  - intros Hno. destruct (cut l s) as [[b a]|] eqn:E; [|done].
    apply cut_Some in E as [-> _]. destruct Hno. by exists b, a.
Qed.

Lemma cut_first_at l pre s :
  first_at l pre s ↔ ∃ post, cut l s = Some (pre, post).
Proof.
  split.
  - intros [[post Hs] Hmin]. destruct (cut l s) as [[b a]|] eqn:E.
    + apply cut_Some in E as [Hb Hbmin].
      assert (length b = length pre) as Hlen.
      { apply Nat.le_antisymm; [by eapply Hbmin|by eapply Hmin]. }
      rewrite Hs in Hb. apply app_inj_1 in Hb as [-> Hb]; [|done].
      apply app_inv_head in Hb as ->. eauto.
    + apply cut_None in E. destruct E. by exists pre, post.
  - intros [post [-> Hmin]%cut_Some]. split; [eauto|done].
Qed.

(** *** [/<role>([\s\S]*?)<\/role>/] *)

Lemma lazy_any_Lit l acc s :
  lazy any (exec [Lit false l]) acc s =
    match cut l s with
    | Some (before, after) => Some ([acc ++ before; l], after)
    | None => None
    end.
Proof.
  assert (Hk : ∀ t, exec [Lit false l] t =
                    match strip false l t with
                    | Some (_, rest) => Some ([l], rest)
                    | None => None
                    end).
  { intros t. simpl. destruct (strip false l t) as [[m rest]|] eqn:E; [|done].
    by rewrite (strip_exact _ _ _ _ E). }
  revert acc. induction s as [|c s IH]; intros acc.
  - cbn [lazy cut]. rewrite Hk.
    destruct (strip false l []) as [[m rest]|]; simpl; [|done].
    by rewrite app_nil_r.
  - cbn [lazy cut]. rewrite Hk.
    destruct (strip false l (c :: s)) as [[m rest]|]; simpl.
    + by rewrite app_nil_r.
    + rewrite IH. destruct (cut l s) as [[b a]|]; [|done].
      by rewrite <-app_assoc.
Qed.

Lemma exec_role s :
  exec re_role s =
    match strip false (js "<role>") s with
    | Some (_, s1) =>
        match cut (js "</role>") s1 with
        | Some (inner, post) => Some ([js "<role>"; inner; js "</role>"], post)
        | None => None
        end
    | None => None
    end.
Proof.
  change (exec re_role s)
    with (match strip false (js "<role>") s with
          | Some (m, s') => push m (lazy any (exec [Lit false (js "</role>")]) [] s')
          | None => None
          end).
  destruct (strip false (js "<role>") s) as [[m s1]|] eqn:E; [|done].
  rewrite (strip_exact _ _ _ _ E), lazy_any_Lit.
  by destruct (cut (js "</role>") s1) as [[??]|].
Qed.

(** Without a closing delimiter nothing matches, wherever the scan starts. *)
Lemma search_role_unclosed s : ¬ occurs (js "</role>") s → search re_role s = None.
Proof.
  induction s as [|c s IH]; intros Hno.
  - done.
  - cbn [search]. rewrite exec_role.
    destruct (strip false (js "<role>") (c :: s)) as [[m s1]|] eqn:E.
    + apply strip_sound in E as [E _].
      assert (cut (js "</role>") s1 = None) as ->.
      { apply cut_None. intros Ho. apply Hno. eapply occurs_suffix; [|done].
        rewrite E. by apply suffix_app_r. }
      rewrite IH; [done|]. intros Ho. apply Hno. eapply occurs_suffix; [|done].
      by apply suffix_cons_r.
    + rewrite IH; [done|]. intros Ho. apply Hno. eapply occurs_suffix; [|done].
      by apply suffix_cons_r.
Qed.

(** An occurrence of the closing delimiter after the first code unit of
    an opening delimiter lies after the whole opening delimiter. *)
Lemma occurs_after_open s1 :
  occurs (js "</role>") (tail (js "<role>" ++ s1)) → occurs (js "</role>") s1.
Proof.
  intros (pre & post & Heq). change (tail (js "<role>" ++ s1))
    with (114 :: 111 :: 108 :: 101 :: 62 :: s1) in Heq.
  change (js "</role>") with (60 :: 47 :: 114 :: 111 :: 108 :: 101 :: [62]) in Heq.
  do 5 (destruct pre as [|? pre]; [done|]; injection Heq as <- Heq).
  by exists pre, post.
Qed.

Lemma search_role s :
  search re_role s =
    match cut (js "<role>") s with
    | Some (pre, s1) =>
        match cut (js "</role>") s1 with
        | Some (inner, post) => Some (pre, [js "<role>"; inner; js "</role>"], post)
        | None => None
        end
    | None => None
    end.
Proof.
  induction s as [|c s IH].
  - done.
  - cbn [search cut]. rewrite exec_role.
    destruct (strip false (js "<role>") (c :: s)) as [[m s1]|] eqn:E.
    + destruct (cut (js "</role>") s1) as [[inner post]|] eqn:Ec; [done|].
      rewrite search_role_unclosed; [done|].
      pose proof (strip_exact _ _ _ _ E) as ->. apply strip_sound in E as [E _].
      intros Ho. apply cut_None in Ec. apply Ec, occurs_after_open.
      by rewrite <-E.
    + rewrite IH. destruct (cut (js "<role>") s) as [[pre s1]|]; [|done].
      by destruct (cut (js "</role>") s1) as [[??]|].
Qed.

End Delimiters.

(** ** RoleLoader.parseDPMLContent *)

Section ParseDPML.

Implicit Types (content pre inner post : str).

Lemma parseDPMLContent_cut content :
  parseDPMLContent content =
    match cut (js "<role>") content with
    | Some (_, s1) =>
        match cut (js "</role>") s1 with
        | Some (inner, _) => sectionsOf inner
        | None => []
        end
    | None => []
    end.
Proof.
  unfold parseDPMLContent. rewrite search_role.
  destruct (cut (js "<role>") content) as [[pre s1]|]; [|done].
  by destruct (cut (js "</role>") s1) as [[inner post]|].
Qed.

Lemma last_at_check l pre post :
  l ≠ [] → cut l (tail (l ++ post)) = None → last_at l pre (pre ++ l ++ post).
Proof.
  intros Hl Hc. split; [eauto|]. intros pre' post' Heq.
  destruct (decide (length pre' ≤ length pre)%nat) as [|Hgt]; [done|].
  apply cut_None in Hc. destruct Hc.
  assert (∃ d, pre' = pre ++ d ∧ d ≠ []) as (d & -> & Hd).
  { exists (drop (length pre) pre'). split.
    - apply (f_equal (take (length pre))) in Heq.
      rewrite take_app_length in Heq. rewrite take_app_le in Heq by lia.
      rewrite Heq at 1. by rewrite take_drop.
    - intros Hnil%(f_equal length). rewrite length_drop in Hnil. simpl in Hnil. lia. }
  rewrite <-app_assoc in Heq. apply app_inv_head in Heq.
  destruct d as [|c d]; [done|]. rewrite Heq. by exists d, post'.
Qed.

(** C4, counterexample: with two closing delimiters the sections come
    from the text up to the first of them, not up to the last. *)
Lemma parseDPMLContent_not_outermost :
  ¬ ∀ content pre inner,
      first_at (js "<role>") pre content →
      last_at (js "</role>") (pre ++ js "<role>" ++ inner) content →
      parseDPMLContent content = sectionsOf inner.
Proof.
  intros H.
  specialize (H (js "<role><personality>a</personality></role><knowledge>k</knowledge></role>")
                [] (js "<personality>a</personality></role><knowledge>k</knowledge>")).
  assert (Hne : parseDPMLContent
                  (js "<role><personality>a</personality></role><knowledge>k</knowledge></role>")
                ≠ sectionsOf (js "<personality>a</personality></role><knowledge>k</knowledge>"))
    by (by vm_compute).
  apply Hne, H.
  - apply cut_first_at. eexists. by vm_compute.
  - apply (last_at_check (js "</role>")
             ([] ++ js "<role>" ++ js "<personality>a</personality></role><knowledge>k</knowledge>")
             []); by vm_compute.
Qed.

(** C4, as amended: the sections are extracted from the text between the
    first opening delimiter and the first closing delimiter that follows
    it; without such a pair of delimiters [sections] is empty. *)
Theorem parseDPMLContent_first_pair content :
  (∀ pre inner post,
      content = pre ++ js "<role>" ++ inner ++ js "</role>" ++ post →
      first_at (js "<role>") pre content →
      first_at (js "</role>") inner (inner ++ js "</role>" ++ post) →
      parseDPMLContent content = sectionsOf inner)
  ∧ ((¬ ∃ pre inner post, content = pre ++ js "<role>" ++ inner ++ js "</role>" ++ post) →
     parseDPMLContent content = []).
Proof.
  rewrite parseDPMLContent_cut. split.
  - intros pre inner post Hc [s1 Ho]%cut_first_at [post' Hcl]%cut_first_at.
    rewrite Ho. apply cut_Some in Ho as [Ho _]. rewrite Hc in Ho.
    apply app_inv_head, app_inv_head in Ho. rewrite <-Ho, Hcl. done.
  - intros Hno. destruct (cut (js "<role>") content) as [[pre s1]|] eqn:Ho; [|done].
    destruct (cut (js "</role>") s1) as [[inner post]|] eqn:Hcl; [|done].
    destruct Hno. apply cut_Some in Ho as [-> _], Hcl as [-> _]. eauto.
Qed.

Lemma parseDPMLContent_first_pair_witness :
  parseDPMLContent
    (js "<role><personality>a</personality></role><knowledge>k</knowledge></role>")
  = sectionsOf (js "<personality>a</personality>").
Proof.
  apply (proj1 (parseDPMLContent_first_pair _) []
           (js "<personality>a</personality>")
           (js "<knowledge>k</knowledge></role>")).
  - by vm_compute.
  - apply cut_first_at. eexists. by vm_compute.
  - apply cut_first_at. eexists. by vm_compute.
Defined.

(** A text without [<role>] has no sections. *)
Lemma parseDPMLContent_no_role content :
  ¬ occurs (js "<role>") content → parseDPMLContent content = [].
Proof. intros H%cut_None. by rewrite parseDPMLContent_cut, H. Qed.

End ParseDPML.

(** ** DependencyAnalyzer *)

Section Analyzer.

Context {World : Type} (host : Host World).
Implicit Types (refs : list ResourceReference) (w : World)
  (os : list (Outcome (option LoadResult))) (values : list (option str)).

Lemma eqb_str_eq a b : eqb_str a b = true ↔ a = b.
Proof.
  revert b. induction a as [|x a IH]; intros [|y b]; simpl; try done.
  rewrite andb_true_iff, N.eqb_eq, IH. split; [by intros [-> ->]|]. by intros [= -> ->].
Qed.

Lemma eqb_str_decide a b : eqb_str a b = bool_decide (a = b).
Proof.
  destruct (eqb_str a b) eqn:E.
  - apply eqb_str_eq in E. by rewrite bool_decide_eq_true_2.
  - rewrite bool_decide_eq_false_2; [done|]. intros ?%eqb_str_eq. congruence.
Qed.


Lemma loadDependency_run ref w :
  loadDependency host ref w =
    ((dependency_outcome (loadResource host (address ref) w).1),
     (loadResource host (address ref) w).2).
Proof.
  unfold loadDependency, try_catch, bind, ret.
  by destruct (loadResource host (address ref) w) as [[r|e|] w'].
Qed.

Lemma startAll_run refs w :
  startAll (loadDependency host) refs w =
    (Returned (dependency_outcome <$> (answers host refs w).1), (answers host refs w).2).
Proof.
  revert w. induction refs as [|ref refs IH]; intros w; simpl; [done|].
  rewrite loadDependency_run.
  destruct (loadResource host (address ref) w) as [o w1]. simpl.
  rewrite IH. by destruct (answers host refs w1) as [os w2].
Qed.

Lemma answers_length refs w : length (answers host refs w).1 = length refs.
Proof.
  revert w. induction refs as [|ref refs IH]; intros w; simpl; [done|].
  destruct (loadResource host (address ref) w) as [o w1].
  specialize (IH w1). destruct (answers host refs w1) as [os w2]. simpl in *. lia.
Qed.

(** *** The results of [Promise.allSettled] *)

Lemma record_settled_lookup {B} (promises : list (Outcome B)) order :
  ∀ results j,
    length results = length promises →
    foldl (record_settled promises) results order !! j =
      if decide (j ∈ order) then
        match promises !! j ≫= settle with
        | Some r => Some (Some r)
        | None => results !! j
        end
      else results !! j.
Proof.
  induction order as [|i order IH]; intros results j Hlen; cbn [foldl].
  - rewrite decide_False; [done|]. apply not_elem_of_nil.
  - assert (Hlen' : length (record_settled promises results i) = length promises).
    { unfold record_settled. destruct (promises !! i ≫= settle); [|done].
      by rewrite length_insert. }
    rewrite IH by done.
    assert (Hrec : record_settled promises results i !! j =
                   if decide (i = j) then
                     match promises !! j ≫= settle with
                     | Some r => Some (Some r)
                     | None => results !! j
                     end
                   else results !! j).
    { unfold record_settled. destruct (decide (i = j)) as [->|Hne].
      - destruct (promises !! j ≫= settle) as [r|] eqn:E; [|done].
        apply list_lookup_insert_eq. rewrite Hlen.
        destruct (promises !! j) eqn:Ej; [|done]. by eapply lookup_lt_Some.
      - destruct (promises !! i ≫= settle); [|done].
        by apply list_lookup_insert_ne. }
    rewrite Hrec. clear Hrec IH.
    destruct (decide (j ∈ i :: order)) as [Hc|Hc], (decide (j ∈ order)) as [Hin|Hnin],
      (decide (i = j)) as [->|Hne]; try done;
      try (by destruct (promises !! j ≫= settle)).
    + apply elem_of_cons in Hc as [->|?]; done.
    + destruct Hc. apply elem_of_cons. by right.
    + destruct Hc. apply elem_of_cons. by right.
    + destruct Hc. apply elem_of_cons. by left.
Qed.

Lemma allSettled_run {B} (promises : list (Outcome B)) w :
  settles_all (settle_order host) →
  Forall settles promises →
  allSettled host promises w =
    (Returned ((λ o, match o with
                     | Returned v => Fulfilled v
                     | Thrown e => Rejected e
                     | Pending => Rejected {| message := [] |}
                     end) <$> promises), w).
Proof.
  intros Hall Hset. unfold allSettled.
  set (results := foldl _ _ _).
  assert (results = (λ o, Some (match o with
                                | Returned v => Fulfilled v
                                | Thrown e => Rejected e
                                | Pending => Rejected {| message := [] |}
                                end)) <$> promises) as ->.
  { apply list_eq. intros j. unfold results.
    rewrite record_settled_lookup by by rewrite length_replicate.
    rewrite list_lookup_fmap.
    destruct (promises !! j) as [o|] eqn:Ej; simpl.
    - rewrite decide_True by (apply Hall; by eapply lookup_lt_Some).
      eapply Forall_lookup_1 in Hset; [|done]. by destruct o.
    - destruct (decide _); by apply lookup_replicate_None, lookup_ge_None. }
  assert (∀ (f : Outcome B → Settled B) (l : list (Outcome B)),
            mapM id ((λ o, Some (f o)) <$> l) = Some (f <$> l)) as Hm.
  { intros f l. induction l as [|x l IH]; [done|].
    rewrite fmap_cons. cbn [mapM]. by rewrite IH. }
  by rewrite Hm.
Qed.

Lemma allSettled_not_thrown {B} (promises : list (Outcome B)) w e :
  (allSettled host promises w).1 ≠ Thrown e.
Proof. unfold allSettled. by destruct (mapM id _). Qed.

(** *** The classification *)


Lemma add_nil b : add b [] = b.
Proof. destruct b. unfold add. simpl. by rewrite !app_nil_r. Qed.

Lemma of_protocol_cons proto p l :
  of_protocol proto (p :: l) =
    (if decide (protocol p.1 = proto) then [entry p] else []) ++ of_protocol proto l.
Proof. unfold of_protocol. rewrite filter_cons. by destruct (decide _). Qed.

Lemma classify_success allRefs b index ref c :
  allRefs !! index = Some ref → c ≠ [] →
  classify allRefs b index (Fulfilled (Some c)) = add b [(ref, c)].
Proof.
  intros Href Hc. unfold classify. destruct c as [|x c]; [done|]. simpl falsy. cbv iota.
  rewrite Href. unfold add. rewrite !of_protocol_cons. simpl.
  rewrite !eqb_str_decide.
  destruct (decide (protocol ref = js "thought")) as [E|E].
  { rewrite bool_decide_eq_true_2 by done. rewrite E.
    rewrite !decide_False by done. simpl. by rewrite !app_nil_r. }
  rewrite bool_decide_eq_false_2 by done.
  destruct (decide (protocol ref = js "execution")) as [E'|E'].
  { rewrite bool_decide_eq_true_2 by done. rewrite E'.
    rewrite !decide_False by done. simpl. by rewrite !app_nil_r. }
  rewrite bool_decide_eq_false_2 by done.
  destruct (decide (protocol ref = js "knowledge")) as [E''|E''].
  { rewrite bool_decide_eq_true_2 by done. simpl. by rewrite !app_nil_r. }
  rewrite bool_decide_eq_false_2 by done. simpl. destruct b. simpl.
  by rewrite !app_nil_r.
Qed.

Lemma add_add b l1 l2 : add (add b l1) l2 = add b (l1 ++ l2).
Proof.
  unfold add, of_protocol. simpl. by rewrite !list.filter_app, !fmap_app, !app_assoc.
Qed.

Lemma usable_nonempty result c : usable result = Some c → c ≠ [].
Proof.
  unfold usable. destruct result as [r|]; [|done]. destruct (success r); [|done].
  destruct (content r) as [[|x c']|]; simpl; [done| |done]. by intros [= <-].
Qed.

Lemma resolution_nonempty o c : resolution o = Some c → c ≠ [].
Proof. destruct o; simpl; [apply usable_nonempty|done..]. Qed.

Lemma forEach_classify done_refs refs os b :
  length os = length refs →
  forEach (classify (done_refs ++ refs)) b (length done_refs)
    ((λ o, match o with
           | Returned v => Fulfilled v
           | Thrown e => Rejected e
           | Pending => Rejected {| message := [] |}
           end) <$> (dependency_outcome <$> os))
  = add b (successes refs (resolution <$> os)).
Proof.
  revert done_refs os b. induction refs as [|ref refs IH]; intros done_refs os b Hlen.
  - destruct os; [|done]. simpl. by rewrite add_nil.
  - destruct os as [|o os]; [done|]. injection Hlen as Hlen. cbn [fmap list_fmap forEach].
    specialize (IH (done_refs ++ [ref]) os). rewrite <-app_assoc in IH. simpl in IH.
    rewrite length_app, Nat.add_1_r in IH. rewrite IH by done. clear IH.
    unfold successes. cbn [zip zip_with fmap list_fmap omap list_omap]. simpl.
    assert (Href : (done_refs ++ ref :: refs) !! length done_refs = Some ref).
    { by rewrite list_lookup_middle. }
    destruct (resolution o) as [c|] eqn:Er; simpl.
    + assert (dependency_outcome o = Returned (Some c)) as ->.
      { destruct o; simpl in *; by rewrite ?Er. }
      rewrite (classify_success _ _ _ ref) by (done || by eapply resolution_nonempty).
      by rewrite add_add.
    + assert (classify (done_refs ++ ref :: refs) b (length done_refs)
                match dependency_outcome o with
                | Returned v => Fulfilled v
                | Thrown e => Rejected e
                | Pending => Rejected {| message := [] |}
                end = b) as ->; [|done].
      destruct o; simpl in *; by rewrite ?Er.
Qed.

(** The bundle that [analyzeDependencies] returns: the successes, by
    protocol. *)
Lemma analyzeDependencies_run roleInfo w :
  settles_all (settle_order host) →
  Forall settles (answers host (extractResourceReferences (sections roleInfo)) w).1 →
  analyzeDependencies host roleInfo w =
    (Returned
       (bundle_of
          (successes (extractResourceReferences (sections roleInfo))
             (resolution <$> (answers host (extractResourceReferences (sections roleInfo)) w).1))),
     (answers host (extractResourceReferences (sections roleInfo)) w).2).
Proof.
  intros Hall Hset. unfold analyzeDependencies, bind.
  set (refs := extractResourceReferences (sections roleInfo)) in *.
  rewrite startAll_run, allSettled_run; [|done|].
  - unfold ret. f_equal. f_equal.
    rewrite (forEach_classify [] refs) by apply answers_length. done.
  - apply Forall_fmap. eapply list.Forall_impl; [done|].
    intros o Ho. unfold settles, compose in *. by destruct o.
Qed.

Lemma analyzeDependencies_not_thrown roleInfo w e :
  (analyzeDependencies host roleInfo w).1 ≠ Thrown e.
Proof.
  unfold analyzeDependencies, bind. rewrite startAll_run.
  destruct (allSettled host _ _) as [[rs|e'|] w'] eqn:E; simpl; [done| |done].
  pose proof (allSettled_not_thrown
    (dependency_outcome <$> (answers host (extractResourceReferences (sections roleInfo)) w).1)
    (answers host (extractResourceReferences (sections roleInfo)) w).2 e') as H.
  by rewrite E in H.
Qed.

End Analyzer.

(** ** The dependency bundle *)

Section Bundle.

Implicit Types (refs : list ResourceReference) (values : list (option str))
  (l : list (ResourceReference * str)) (b : DependencyBundle).

Lemma successes_length refs values :
  length values = length refs →
  length (successes refs values) = (length refs - length (filter (λ v, v = None) values))%nat.
Proof.
  revert values. induction refs as [|ref refs IH]; intros [|v values] Hlen; try done.
  injection Hlen as Hlen. specialize (IH _ Hlen).
  pose proof (length_filter (λ v : option str, v = None) values) as Hle.
  unfold successes in *. cbn [zip zip_with omap list_omap]. rewrite filter_cons.
  destruct v as [c|]; [rewrite decide_False by done|rewrite decide_True by done];
    simpl in *; lia.
Qed.

Lemma filter_all {A} (P : A → Prop) `{∀ x, Decision (P x)} (k : list A) :
  Forall P k → filter P k = k.
Proof.
  induction 1 as [|x k Hx Hk IH]; [done|]. by rewrite filter_cons, decide_True, IH.
Qed.

Lemma successes_refs refs values p : p ∈ successes refs values → p.1 ∈ refs.
Proof.
  unfold successes. intros ([ref v] & Hin & Hp)%list_elem_of_omap.
  apply elem_of_zip_l in Hin. simpl in *. destruct v; simplify_eq/=. done.
Qed.

Lemma protocols_distinct :
  js "thought" ≠ js "execution" ∧ js "thought" ≠ js "knowledge"
  ∧ js "execution" ≠ js "knowledge".
Proof. by vm_compute. Qed.

Lemma bundle_size_recognized l :
  bundle_size (bundle_of l) = length (filter (λ p, recognized p.1) l).
Proof.
  destruct protocols_distinct as (Hte & Htk & Hek).
  unfold bundle_size, bundle_of, recognized. simpl.
  induction l as [|p l IH]; [done|].
  rewrite !of_protocol_cons, filter_cons, !length_app.
  repeat case_decide; simpl; try lia; exfalso; intuition congruence.
Qed.

Lemma bundle_of_recognized l :
  bundle_of l = bundle_of (filter (λ p, recognized p.1) l).
Proof.
  assert (∀ proto, recognized {| protocol := proto; resource := [] |} →
          of_protocol proto l = of_protocol proto (filter (λ p, recognized p.1) l)) as H.
  { intros proto Hr. unfold of_protocol. f_equal.
    induction l as [|p l IH]; [done|]. rewrite !filter_cons.
    destruct (decide (protocol p.1 = proto)) as [E|E].
    - rewrite decide_True by (unfold recognized in *; by rewrite E).
      by rewrite filter_cons, decide_True, IH by done.
    - destruct (decide (recognized p.1)); [|done].
      by rewrite filter_cons, decide_False by done. }
  unfold bundle_of. rewrite <-!H; [done|unfold recognized; simpl; auto..].
Qed.

Lemma bundle_entries l d :
  d ∈ thoughts (bundle_of l) ++ executions (bundle_of l) ++ knowledges (bundle_of l) →
  ∃ p, p ∈ l ∧ recognized p.1 ∧ d = entry p.
Proof.
  unfold bundle_of, of_protocol, recognized. simpl.
  rewrite !elem_of_app, !list_elem_of_fmap.
  intros [(p & -> & Hp)|[(p & -> & Hp)|(p & -> & Hp)]];
    apply list_elem_of_filter in Hp as [Hproto Hin]; exists p; auto.
Qed.

Lemma bucket_bundle_of l ref :
  recognized ref →
  bucket (bundle_of l) (protocol ref) = of_protocol (protocol ref) l.
Proof.
  destruct protocols_distinct as (Hte & Htk & Hek).
  unfold bucket. intros [E|[E|E]]; rewrite E; repeat case_decide; try done;
    exfalso; congruence.
Qed.

(** When each resolution of a reference succeeds, its bucket holds one
    entry for each of its occurrences. *)
Lemma of_protocol_count refs values ref :
  length values = length refs →
  (∀ i, refs !! i = Some ref → ∃ c, values !! i = Some (Some c)) →
  length (filter (λ d, dep_id d = resource ref)
            (of_protocol (protocol ref) (successes refs values)))
  = length (filter (λ r, r = ref) refs).
Proof.
  revert values. induction refs as [|r refs IH]; intros [|v values] Hlen Hok; try done.
  injection Hlen as Hlen.
  specialize (IH values Hlen (λ i, Hok (S i))).
  unfold successes in *. cbn [zip zip_with omap list_omap]. rewrite (filter_cons _ r).
  destruct (decide (r = ref)) as [->|Hne].
  - destruct (Hok 0%nat eq_refl) as [c [= ->]]. simpl.
    rewrite of_protocol_cons, decide_True by done. simpl.
    rewrite filter_cons, decide_True by done. simpl. by rewrite IH.
  - destruct v as [c|]; simpl; [|done].
    rewrite of_protocol_cons. simpl.
    destruct (decide (protocol r = protocol ref)) as [Ep|Ep]; simpl; [|done].
    rewrite filter_cons, decide_False; [done|]. simpl. intros Er.
    destruct Hne. destruct r, ref; simpl in *. by subst.
Qed.

End Bundle.

Section Traced.

Context {World : Type} (host : Host World).

Lemma answers_traced refs w log :
  answers (traced host) refs (w, log) =
    ((answers host refs w).1, ((answers host refs w).2, log ++ (address <$> refs))).
Proof.
  revert w log. induction refs as [|ref refs IH]; intros w log; simpl.
  - by rewrite app_nil_r.
  - destruct (loadResource host (address ref) w) as [o w1]. rewrite IH.
    destruct (answers host refs w1) as [os w2]. simpl. by rewrite <-app_assoc.
Qed.

(** The loader is asked for the address of every reference that was
    extracted, in their order. *)
Lemma analyzeDependencies_traced roleInfo w log :
  (analyzeDependencies (traced host) roleInfo (w, log)).2.2 =
    log ++ (address <$> extractResourceReferences (sections roleInfo)).
Proof.
  unfold analyzeDependencies, bind. rewrite startAll_run, answers_traced.
  unfold allSettled, ret. simpl. by destruct (mapM id _).
Qed.

Lemma example_settles_all : settles_all (λ n, reverse (seq 0 n)).
Proof. intros n i Hi. apply elem_of_reverse, elem_of_seq. lia. Qed.

End Traced.

(** ** analyzeDependencies: the claims *)

Section AnalyzerClaims.

(** C2, counterexample: a reference with a protocol that has no bucket
    resolves, so that none of the N = 1 references fails, and the bundle
    is empty all the same. *)
Lemma bundle_smaller_than_successes :
  ¬ ∀ (host : Host ()) roleInfo b,
      let refs := extractResourceReferences (sections roleInfo) in
      let values := resolution <$> (answers host refs ()).1 in
      settles_all (settle_order host) →
      Forall settles (answers host refs ()).1 →
      (analyzeDependencies host roleInfo ()).1 = Returned b →
      bundle_size b = (length refs - length (filter (λ v, v = None) values))%nat.
Proof.
  intros H.
  specialize (H (example_host echo no_file)
                (document (js "r") [("personality"%string, Some (js "see @tool://x"))])
                {| thoughts := []; executions := []; knowledges := [] |}).
  simpl in H. specialize (H example_settles_all).
  assert (Hs : Forall settles
            (answers (example_host echo no_file)
               (extractResourceReferences [("personality"%string, Some (js "see @tool://x"))])
               ()).1).
  { vm_compute. by repeat constructor. }
  specialize (H Hs eq_refl). vm_compute in H. discriminate H.
Qed.

(** C2, as amended: [analyzeDependencies] throws nothing, and once every
    resolution has settled it returns the successful resolutions whose
    protocol is thought, execution or knowledge, each in the bucket of
    its protocol and in the order of the references, whatever the order
    in which the resolutions settled; these are all N - M successes when
    every protocol is one of the three. *)
Theorem analyzeDependencies_bundle {World} (host : Host World) roleInfo w :
  let refs := extractResourceReferences (sections roleInfo) in
  let values := resolution <$> (answers host refs w).1 in
  let failed := length (filter (λ v, v = None) values) in
  (∀ e, (analyzeDependencies host roleInfo w).1 ≠ Thrown e)
  ∧ (settles_all (settle_order host) →
     Forall settles (answers host refs w).1 →
     analyzeDependencies host roleInfo w =
       (Returned (bundle_of (successes refs values)), (answers host refs w).2)
     ∧ length (successes refs values) = (length refs - failed)%nat
     ∧ bundle_size (bundle_of (successes refs values))
       = length (filter (λ p, recognized p.1) (successes refs values))
     ∧ (Forall recognized refs →
        bundle_size (bundle_of (successes refs values)) = (length refs - failed)%nat)).
Proof.
  intros refs values failed. split; [apply analyzeDependencies_not_thrown|].
  intros Hall Hset.
  assert (Hlen : length (successes refs values) = (length refs - failed)%nat).
  { apply successes_length. unfold values. by rewrite length_fmap, answers_length. }
  split_and!; [by apply analyzeDependencies_run|done|apply bundle_size_recognized|].
  intros Hrec. rewrite bundle_size_recognized, <-Hlen. f_equal.
  apply filter_all, list.Forall_forall. intros p Hp%successes_refs.
  by eapply list.Forall_forall in Hrec.
Qed.

Lemma analyzeDependencies_bundle_witness :
  (analyzeDependencies (example_host echo no_file)
     (document (js "writer")
        [("personality"%string, Some (js "Calm. @thought://calm"));
         ("principle"%string, Some (js "Be concise. @!execution://summarize"));
         ("knowledge"%string, None)]) ()).1
  = Returned
      {| thoughts := [{| dep_id := js "calm"; dep_content := js "@thought://calm" |}];
         executions :=
           [{| dep_id := js "summarize"; dep_content := js "@execution://summarize" |}];
         knowledges := [] |}.
Proof.
  destruct (analyzeDependencies_bundle (example_host echo no_file)
    (document (js "writer")
        [("personality"%string, Some (js "Calm. @thought://calm"));
         ("principle"%string, Some (js "Be concise. @!execution://summarize"));
         ("knowledge"%string, None)]) ()) as [_ H].
  destruct H as (-> & _).
  - apply example_settles_all.
  - vm_compute. by repeat constructor.
  - by vm_compute.
Defined.

(** C7: a reference whose protocol is not thought, execution or
    knowledge is resolved like the others, the loader being asked for its
    address, and yet every entry of the three buckets stems from a
    reference with one of the three protocols: the bundle is the one
    that the successes of these references alone give. *)
Theorem unrecognized_protocol_excluded {World} (host : Host World) roleInfo w :
  let refs := extractResourceReferences (sections roleInfo) in
  let values := resolution <$> (answers host refs w).1 in
  settles_all (settle_order host) →
  Forall settles (answers host refs w).1 →
  ∃ b,
    (analyzeDependencies host roleInfo w).1 = Returned b
    ∧ (analyzeDependencies (traced host) roleInfo (w, [])).2.2 = address <$> refs
    ∧ (∀ d, d ∈ thoughts b ++ executions b ++ knowledges b →
            ∃ p, p ∈ successes refs values ∧ recognized p.1 ∧ d = entry p)
    ∧ b = bundle_of (filter (λ p, recognized p.1) (successes refs values)).
Proof.
  intros refs values Hall Hset. exists (bundle_of (successes refs values)).
  split_and!.
  - by rewrite analyzeDependencies_run.
  - by rewrite analyzeDependencies_traced.
  - apply bundle_entries.
  - apply bundle_of_recognized.
Qed.

Lemma unrecognized_protocol_excluded_witness :
  ∃ b,
    (analyzeDependencies (example_host echo no_file)
       (document (js "r") [("personality"%string, Some (js "see @tool://x"))]) ()).1
    = Returned b
    ∧ (analyzeDependencies (traced (example_host echo no_file))
         (document (js "r") [("personality"%string, Some (js "see @tool://x"))])
         ((), [])).2.2
      = [js "@tool://x"]
    ∧ thoughts b ++ executions b ++ knowledges b = [].
Proof.
  destruct (unrecognized_protocol_excluded (example_host echo no_file)
    (document (js "r") [("personality"%string, Some (js "see @tool://x"))]) ())
    as (b & Hb & Hlog & _ & ->).
  - apply example_settles_all.
  - vm_compute. by repeat constructor.
  - eexists. split_and!; [exact Hb|exact Hlog|by vm_compute].
Defined.

End AnalyzerClaims.

(** ** CognitionLoader.checkNetworkExists *)

Section Cognition.

Context {World : Type} (host : Host World).

Lemma checkNetworkExists_run self roleId w :
  checkNetworkExists host self roleId w =
    match path_join host [basePath self; roleId; js "network.json"] with
    | Ok p =>
        match access host p w with
        | Returned _ =>
            (Returned {| hasNetwork := true; networkPath := Some p; error := None |}, w)
        | Thrown _ =>
            (Returned {| hasNetwork := false; networkPath := Some p; error := None |}, w)
        | Pending => (Pending, w)
        end
    | Err e =>
        (Returned {| hasNetwork := false; networkPath := None;
                     error := Some (message e) |}, w)
    end.
Proof.
  unfold checkNetworkExists, try_catch, bind, lift, ret.
  destruct (path_join host _) as [p|e]; simpl; [|done].
  by destruct (access host p w) as [[]|e|].
Qed.

Lemma checkNetworkExists_not_thrown self roleId w e :
  (checkNetworkExists host self roleId w).1 ≠ Thrown e.
Proof.
  rewrite checkNetworkExists_run.
  destruct (path_join host _) as [p|e']; [|done]. by destruct (access host p w).
Qed.

(** C3, as amended: [checkNetworkExists] raises nothing; it reports
    [hasNetwork: true] exactly when the probe of
    [<home>/.promptx/cognition/<roleId>/network.json] succeeds; when the
    probe fails, for absence or for any other reason such as a refused
    permission, it reports [hasNetwork: false] together with the path and
    without an [error]; [networkPath: null] and an [error] are reported
    only when the path itself cannot be computed. *)
Theorem checkNetworkExists_status self roleId w :
  newCognitionLoader host = Ok self →
  (∀ e, (checkNetworkExists host self roleId w).1 ≠ Thrown e)
  ∧ (∃ base,
       path_join host [homedir host; js ".promptx"; js "cognition"] = Ok base
       ∧ basePath self = base)
  ∧ (∀ p, path_join host [basePath self; roleId; js "network.json"] = Ok p →
       (∀ st, (checkNetworkExists host self roleId w).1 = Returned st →
              (hasNetwork st = true ↔ access host p w = Returned ()))
       ∧ (access host p w = Returned () →
          checkNetworkExists host self roleId w =
            (Returned {| hasNetwork := true; networkPath := Some p; error := None |}, w))
       ∧ (∀ e, access host p w = Thrown e →
            checkNetworkExists host self roleId w =
              (Returned {| hasNetwork := false; networkPath := Some p; error := None |}, w)))
  ∧ (∀ e, path_join host [basePath self; roleId; js "network.json"] = Err e →
       checkNetworkExists host self roleId w =
         (Returned {| hasNetwork := false; networkPath := None;
                      error := Some (message e) |}, w)).
Proof.
  intros Hself. split_and!.
  - apply checkNetworkExists_not_thrown.
  - unfold newCognitionLoader in Hself.
    destruct (path_join host [homedir host; _; _]) as [base|e]; [|done].
    injection Hself as <-. by exists base.
  - intros p Hp. rewrite checkNetworkExists_run, Hp. split_and!.
    + intros st. destruct (access host p w) as [[]|e|]; simpl; [| |done].
      * intros [= <-]. done.
      * intros [= <-]. done.
    + by intros ->.
    + by intros e ->.
  - intros e He. by rewrite checkNetworkExists_run, He.
Qed.

End Cognition.

Section CognitionExamples.

(** C3, counterexample: a permission error of the probe is reported like
    an absent file, with the path and without an [error]. *)
Lemma permission_error_reported_as_absent :
  ¬ ∀ (host : Host ()) self roleId p e,
      path_join host [basePath self; roleId; js "network.json"] = Ok p →
      access host p () = Thrown e →
      message e = js "EACCES: permission denied, access" →
      ∃ msg, msg ≠ []
        ∧ (checkNetworkExists host self roleId ()).1
          = Returned {| hasNetwork := false; networkPath := None; error := Some msg |}.
Proof.
  intros H.
  destruct (H (example_host echo denied) {| basePath := js "/home/u/.promptx/cognition" |}
              (js "writer") (js "/home/u/.promptx/cognition/writer/network.json")
              {| message := js "EACCES: permission denied, access" |})
    as (msg & _ & Hst); [by vm_compute..|].
  vm_compute in Hst. discriminate Hst.
Qed.

Lemma checkNetworkExists_status_witness :
  checkNetworkExists (example_host echo denied)
    {| basePath := js "/home/u/.promptx/cognition" |} (js "writer") ()
  = (Returned {| hasNetwork := false;
                 networkPath := Some (js "/home/u/.promptx/cognition/writer/network.json");
                 error := None |}, ()).
Proof.
  destruct (checkNetworkExists_status (example_host echo denied)
              {| basePath := js "/home/u/.promptx/cognition" |} (js "writer") ())
    as (_ & _ & H & _); [by vm_compute|].
  destruct (H (js "/home/u/.promptx/cognition/writer/network.json")) as (_ & _ & Hden);
    [by vm_compute|].
  exact (Hden _ eq_refl).
Defined.

End CognitionExamples.

(** ** processRole *)

Section ProcessRole.

Context {World : Type} (host : Host World).

Lemma loadRole_run roleId w :
  loadRole host roleId w =
    let '(o, w1) :=
      if initialized host w then (Returned (), w)
      else initializeWithNewArchitecture host w in
    match o with
    | Returned _ =>
        match loadResource host (js "@role://" ++ roleId) w1 with
        | (Returned result, w2) =>
            match usable result with
            | None =>
                (Thrown {| message := js "无法加载角色 " ++ roleId ++ js " 的内容" |}, w2)
            | Some content =>
                (Returned {| role_id := roleId;
                             raw := content;
                             sections := parseDPMLContent content;
                             metadata := default [] (result ≫= loaded_metadata) |}, w2)
            end
        | (Thrown e, w2) => (Thrown e, w2)
        | (Pending, w2) => (Pending, w2)
        end
    | Thrown e => (Thrown e, w1)
    | Pending => (Pending, w1)
    end.
Proof.
  unfold loadRole, try_catch, bind, lift, ret, throw.
  destruct (initialized host w); simpl.
  - destruct (loadResource host _ w) as [[result|e|] w2]; [|done..].
    by destruct (usable result).
  - destruct (initializeWithNewArchitecture host w) as [[[]|e|] w1]; [|done..].
    destruct (loadResource host _ w1) as [[result|e|] w2]; [|done..].
    by destruct (usable result).
Qed.

Lemma processRole_run self roleId mode w :
  processRole host self roleId mode w =
    match loadRole host roleId w with
    | (Returned roleInfo, w1) =>
        match analyzeDependencies host roleInfo w1 with
        | (Returned dependencies, w2) =>
            match checkNetworkExists host self roleId w2 with
            | (Returned cognitionData, w3) =>
                (Returned (assembleContent roleInfo dependencies cognitionData mode), w3)
            | (_, w3) => (Pending, w3)
            end
        | (_, w2) => (Pending, w2)
        end
    | other => (match other.1 with Returned _ => Pending | Thrown e => Thrown e | Pending => Pending end, other.2)
    end.
Proof.
  unfold processRole, try_catch, bind, ret, throw.
  destruct (loadRole host roleId w) as [[roleInfo|e|] w1]; [|done..].
  pose proof (analyzeDependencies_not_thrown host roleInfo w1) as Ha.
  destruct (analyzeDependencies host roleInfo w1) as [[deps|e|] w2]; [|by destruct (Ha e)|done].
  pose proof (checkNetworkExists_not_thrown host self roleId w2) as Hc.
  destruct (checkNetworkExists host self roleId w2) as [[cog|e|] w3];
    [done|by destruct (Hc e)|done].
Qed.

(** C5: when the loader answers the request for the role with a result
    that is unsuccessful or without content, [processRole] rejects with
    an error whose message holds the role id; and whatever error
    [processRole] rejects with is the error that [loadRole] raised. *)
Theorem processRole_failure self roleId mode w :
  (∀ w1 result w2,
      ready host w w1 →
      loadResource host (js "@role://" ++ roleId) w1 = (Returned result, w2) →
      usable result = None →
      ∃ e, processRole host self roleId mode w = (Thrown e, w2)
           ∧ occurs roleId (message e))
  ∧ (∀ e w', processRole host self roleId mode w = (Thrown e, w') →
             loadRole host roleId w = (Thrown e, w')).
Proof.
  split.
  - intros w1 result w2 Hready Hload Hres.
    exists {| message := js "无法加载角色 " ++ roleId ++ js " 的内容" |}. split.
    + rewrite processRole_run, loadRole_run.
      destruct Hready as [[-> ->]|[-> ->]]; cbv beta iota; by rewrite Hload, Hres.
    + by exists (js "无法加载角色 "), (js " 的内容").
  - intros e w'. rewrite processRole_run.
    destruct (loadRole host roleId w) as [[roleInfo|e'|] w1]; simpl; [|congruence..].
    destruct (analyzeDependencies host roleInfo w1) as [[deps|?|] w2]; [|done..].
    by destruct (checkNetworkExists host self roleId w2) as [[cog|?|] w3].
Qed.

End ProcessRole.

Section ProcessRoleExamples.

Lemma processRole_failure_witness :
  ∃ e, processRole (example_host nothing no_file)
         {| basePath := js "/home/u/.promptx/cognition" |} (js "ghost") (js "command") ()
       = (Thrown e, ())
       ∧ occurs (js "ghost") (message e).
Proof.
  destruct (processRole_failure (example_host nothing no_file)
              {| basePath := js "/home/u/.promptx/cognition" |}
              (js "ghost") (js "command") ()) as [H _].
  apply (H () (Some {| success := false; content := None; loaded_metadata := None |}) ()).
  - left. by vm_compute.
  - by vm_compute.
  - by vm_compute.
Defined.

End ProcessRoleExamples.

(** ** Texts in which a heading cannot start *)

Section Free.

Implicit Types (h s t c X Y : str).

Lemma clash_app h s t : clash h s = true → clash h (s ++ t) = true.
Proof.
  revert s. induction h as [|x h IH]; intros [|y s]; simpl; try done.
  intros [->|H]%orb_true_iff; [done|]. rewrite IH by done. apply orb_true_r.
Qed.

Lemma clash_self h t : clash h (h ++ t) = false.
Proof. induction h as [|x h IH]; simpl; [done|]. by rewrite N.eqb_refl, IH. Qed.

Lemma clash_prefix h s X : clash h s = true → ¬ h `prefix_of` (s ++ X).
Proof.
  intros Hc [Y HY]. apply (clash_app _ _ X) in Hc.
  rewrite HY, clash_self in Hc. done.
Qed.

Lemma free_not_occurs h s : h ≠ [] → free h s [] → ¬ occurs h s.
Proof.
  intros Hh Hs (pre & post & ->). induction pre as [|y pre IH].
  - destruct h as [|x h]; [done|]. destruct Hs as [Hs _]. apply Hs.
    exists post. simpl. by rewrite app_nil_r.
  - destruct Hs as [_ Hs]. by apply IH.
Qed.

Lemma free_app h s1 s2 X : free h s1 (s2 ++ X) → free h s2 X → free h (s1 ++ s2) X.
Proof.
  intros H1 H2. induction s1 as [|y s1 IH]; [done|].
  destruct H1 as [H1 H1']. split; [|by apply IH].
  intros Hp. apply H1. simpl in *. by rewrite app_assoc.
Qed.

Lemma free_clear h c X : clear h c = true → free h c X.
Proof.
  induction c as [|y c IH]; [done|]. intros [H1 H2]%andb_prop.
  split; [by apply clash_prefix|by apply IH].
Qed.

Lemma sealed_suffix b c k :
  sealed b c = true → k ≠ [] → k `suffix_of` b → clash k c = true.
Proof.
  intros Hb Hk [pre ->]. induction pre as [|y pre IH].
  - destruct k as [|x k]; [done|]. by apply andb_prop in Hb as [? _].
  - apply andb_prop in Hb as [_ Hb]. by apply IH.
Qed.

Lemma free_rid h rid c X :
  ¬ occurs h rid → sealed (tail h) c = true → free h rid (c ++ X).
Proof.
  intros Hno Hc. induction rid as [|y rid IH]; [done|]. split.
  - intros [Y HY].
    change ((y :: rid) ++ c ++ X = h ++ Y) in HY.
    apply app_eq_inv in HY as [(k & Hk & _)|(k & Hk & HX)].
    + apply Hno. exists [], k. by rewrite Hk.
    + destruct k as [|z k].
      * apply Hno. exists [], []. by rewrite app_nil_r in *.
      * subst h. apply (clash_prefix (z :: k) c X).
        -- apply (sealed_suffix (rid ++ z :: k)); [done|done|by exists rid].
        -- by exists Y.
  - apply IH. intros (pre & post & ->). apply Hno. by exists (y :: pre), post.
Qed.

Lemma line_clear h c : clear h c = true → line h c.
Proof. intros Hc X. by apply free_clear. Qed.

Lemma line_app h a b : line h a → line h b → line h (a ++ b).
Proof. intros Ha Hb X. apply free_app; [apply Ha|apply Hb]. Qed.

Lemma line_rid h rid c Y :
  ¬ occurs h rid → sealed (tail h) c = true → line h (c ++ Y) →
  line h (rid ++ c ++ Y).
Proof.
  intros Hno Hc HcY X. apply free_app; [|apply HcY].
  rewrite <-app_assoc. by apply free_rid.
Qed.

Lemma line_rid_pair h rid c1 c2 Y :
  ¬ occurs h rid → sealed (tail h) (c1 ++ c2) = true → line h (c1 ++ c2 ++ Y) →
  line h (rid ++ c1 ++ c2 ++ Y).
Proof. rewrite !(app_assoc c1). apply line_rid. Qed.

Lemma line_rid_end h rid c :
  ¬ occurs h rid → sealed (tail h) c = true → clear h c = true →
  line h (rid ++ c).
Proof.
  intros Hno Hc Hclear. rewrite <-(app_nil_r c).
  apply line_rid; [done|done|]. rewrite app_nil_r. by apply line_clear.
Qed.

Lemma line_join_lines h parts :
  clear h [NL] = true → Forall (line h) parts → line h (join_lines parts).
Proof.
  intros Hnl. induction 1 as [|p parts Hp Hparts IH]; [by intros X|].
  destruct parts as [|q parts]; [done|].
  change (join_lines (p :: q :: parts)) with (p ++ [NL] ++ join_lines (q :: parts)).
  apply line_app; [done|]. apply line_app; [by apply line_clear|done].
Qed.

Lemma occurs_join_lines h p parts : occurs h p → occurs h (join_lines (p :: parts)).
Proof.
  intros (pre & post & ->). destruct parts as [|q parts]; [by exists pre, post|].
  exists pre, (post ++ NL :: join_lines (q :: parts)).
  change (join_lines ((pre ++ h ++ post) :: q :: parts))
    with ((pre ++ h ++ post) ++ NL :: join_lines (q :: parts)).
  by rewrite <-!app_assoc.
Qed.

End Free.

(** A line put together from the role id and from constants. *)
Ltac line_text Hrid :=
  lazymatch goal with
  | |- line _ (?a ++ js " " ++ dquote ++ ?Z) =>
      is_var a; apply (line_rid_pair _ a (js " ") dquote Z);
      [exact Hrid|by vm_compute|line_text Hrid]
  | |- line _ (?a ++ ?b) =>
      first [ is_var a; apply (line_rid_end _ a b);
              [exact Hrid|by vm_compute|by vm_compute]
            | apply (line_app _ a b); line_text Hrid ]
  | |- line _ _ => apply line_clear; by vm_compute
  end.

(** ** A role without [<role>] *)

Section NoRole.

Context {World : Type} (host : Host World).

Lemma analyzeDependencies_no_sections roleInfo w :
  sections roleInfo = [] →
  analyzeDependencies host roleInfo w = (Returned empty_bundle, w).
Proof.
  intros Hs. unfold analyzeDependencies, bind, allSettled, ret. rewrite Hs. simpl.
  assert (∀ order, foldl (record_settled (@nil (Outcome (option str)))) [] order = []) as ->;
    [|done].
  intros order. induction order as [|i order IH]; [done|]. by simpl.
Qed.

Lemma layout_headings h rid hasNetwork subagent command :
  h ∈ role_headings →
  occurs h (join_lines (layout rid hasNetwork subagent command [] []))
  ↔ occurs h rid.
Proof.
  intros Hh. split.
  - intros Hocc. destruct (cut h rid) as [[before after]|] eqn:E.
    { apply cut_Some in E as [-> _]. by exists before, after. }
    apply cut_None in E. exfalso. revert Hocc.
    unfold role_headings in Hh.
    repeat (apply elem_of_cons in Hh as [->|Hh]); try (by apply elem_of_nil in Hh);
      (apply free_not_occurs; [by vm_compute|]);
      (apply line_join_lines; [by vm_compute|]);
      unfold layout; destruct hasNetwork, subagent, command;
      cbn [app]; repeat apply List.Forall_cons; try apply List.Forall_nil;
      line_text E.
  - intros Hocc. unfold layout. cbn [app]. apply occurs_join_lines.
    destruct Hocc as (pre & post & ->).
    exists (js "# 🧠 [Consciousness Prime] " ++ pre),
      (post ++ (if subagent then js "专业助手" else js "角色已激活")).
    by rewrite <-!app_assoc.
Qed.

(** C8, as amended: for a role text without [<role>], the document has no
    sections and no dependencies, and the assembly returns a text all the
    same; no line pushed for it is one of the three headings of the role
    layer; and a heading of the role layer occurs in the returned text
    exactly when it occurs in the role id, which the text quotes. *)
Theorem no_role_assembly content rid meta w cognitionData mode :
  ¬ occurs (js "<role>") content →
  let roleInfo :=
    {| role_id := rid; raw := content;
       sections := parseDPMLContent content; metadata := meta |} in
  sections roleInfo = []
  ∧ analyzeDependencies host roleInfo w = (Returned empty_bundle, w)
  ∧ (∀ h, h ∈ role_headings →
          h ∉ assembleParts roleInfo empty_bundle cognitionData mode)
  ∧ (∀ h, h ∈ role_headings →
          occurs h (assembleContent roleInfo empty_bundle cognitionData mode)
          ↔ occurs h rid).
Proof.
  intros Hno roleInfo.
  assert (Hs : sections roleInfo = []) by by apply parseDPMLContent_no_role.
  split_and!; [done|by apply analyzeDependencies_no_sections| |].
  - intros h Hh Hin. unfold assembleParts in Hin. rewrite Hs in Hin.
    unfold roleLayer, dependencyLayer, present in Hin. simpl in Hin.
    unfold role_headings in Hh.
    destruct (hasNetwork cognitionData), (eqb_str mode (js "subagent")),
      (eqb_str mode (js "command"));
      repeat (apply elem_of_cons in Hh as [->|Hh]);
      try (by apply elem_of_nil in Hh);
      repeat (apply elem_of_cons in Hin as [Heq|Hin]);
      try (by apply elem_of_nil in Hin);
      by vm_compute in Heq.
  - intros h Hh. unfold assembleContent, assembleParts. rewrite Hs.
    by apply layout_headings.
Qed.

End NoRole.

Section NoRoleExamples.

(** C8, counterexample: the text quotes the role id, and a role id that
    holds a heading of the role layer brings it into the text. *)
Lemma heading_from_role_id :
  ¬ ∀ content rid cognitionData mode,
      ¬ occurs (js "<role>") content →
      let roleInfo :=
        {| role_id := rid; raw := content;
           sections := parseDPMLContent content; metadata := [] |} in
      sections roleInfo = []
      ∧ ∀ h, h ∈ role_headings →
             ¬ occurs h (assembleContent roleInfo empty_bundle cognitionData mode).
Proof.
  intros H.
  destruct (H (js "plain text, no tags") heading_personality
              {| hasNetwork := false; networkPath := None; error := None |}
              (js "command")) as [_ Hout].
  { apply cut_None. by vm_compute. }
  apply (Hout heading_personality); [by apply list_elem_of_here|].
  match goal with |- occurs ?h ?s => destruct (cut h s) as [[b a]|] eqn:E end.
  - apply cut_Some in E as [-> _]. by exists b, a.
  - by vm_compute in E.
Qed.

(** A role named [writer] with a text without tags: none of the three
    headings occurs in the text. *)
Lemma no_role_assembly_witness :
  parseDPMLContent (js "plain text, no tags") = []
  ∧ ∀ h, h ∈ role_headings →
         ¬ occurs h
             (assembleContent
                {| role_id := js "writer"; raw := js "plain text, no tags";
                   sections := parseDPMLContent (js "plain text, no tags");
                   metadata := [] |}
                empty_bundle
                {| hasNetwork := false; networkPath := None; error := None |}
                (js "command")).
Proof.
  destruct (no_role_assembly (example_host nothing no_file)
              (js "plain text, no tags") (js "writer") [] ()
              {| hasNetwork := false; networkPath := None; error := None |}
              (js "command")) as (Hs & _ & _ & Hout).
  - apply cut_None. by vm_compute.
  - split; [exact Hs|]. intros h Hh Hocc. apply (Hout h Hh) in Hocc.
    revert Hocc. unfold role_headings in Hh.
    repeat (apply elem_of_cons in Hh as [->|Hh]); try (by apply elem_of_nil in Hh);
      apply cut_None; by vm_compute.
Defined.

End NoRoleExamples.

(** ** assembleContent: total and a function of its arguments *)

Section Assembly.

Lemma looseItems_typed deps :
  looseItems (loose_dependency <$> deps) =
    Ok (flat_map (λ d, [js "### " ++ dep_id d; cleanContent (dep_content d); []]) deps).
Proof.
  induction deps as [|d deps IH]; [done|].
  rewrite fmap_cons. cbn [looseItems]. by rewrite IH.
Qed.

Lemma looseLayer_typed heading deps :
  looseLayer heading (Val (loose_dependency <$> deps)) = Ok (dependencyLayer heading deps).
Proof.
  unfold looseLayer, dependencyLayer. cbn [read and_then].
  destruct deps as [|d deps]; [done|].
  rewrite fmap_cons. rewrite <-fmap_cons. by rewrite looseItems_typed.
Qed.

(** An argument of the wrong shape does raise. *)
Lemma assembleLoose_raises dependencies cognitionData mode :
  ∃ e, assembleLoose (Val {| loose_id := Val (js "writer"); loose_sections := Undefined |})
         dependencies (loose_status cognitionData) mode = Err e.
Proof. unfold assembleLoose. cbn [read and_then loose_status]. eauto. Qed.

(** C9: on well-typed arguments [assembleContent] raises nothing and
    returns the text that the four arguments determine; and the text
    that [processRole] returns is this function of the document, the
    bundle and the status that the three stages before returned, and of
    the mode: nothing else of the world enters it. *)
Theorem assembleContent_total_pure roleInfo dependencies cognitionData mode :
  assembleLoose (loose_document roleInfo) (loose_bundle dependencies)
    (loose_status cognitionData) (Val mode)
  = Ok (assembleContent roleInfo dependencies cognitionData mode)
  ∧ ∀ {World} (host : Host World) self roleId w s w',
      processRole host self roleId mode w = (Returned s, w') →
      ∃ doc w1 bundle w2 status,
        loadRole host roleId w = (Returned doc, w1)
        ∧ analyzeDependencies host doc w1 = (Returned bundle, w2)
        ∧ checkNetworkExists host self roleId w2 = (Returned status, w')
        ∧ s = assembleContent doc bundle status mode.
Proof.
  split.
  - unfold assembleLoose, loose_document, loose_bundle, loose_status.
    cbn [read and_then loose_id loose_sections loose_thoughts loose_executions
           loose_hasNetwork text].
    rewrite !looseLayer_typed. cbn [and_then].
    unfold assembleContent, assembleParts. reflexivity.
  - intros World host self roleId w s w'. rewrite processRole_run.
    destruct (loadRole host roleId w) as [[doc|?|] w1]; [|by intros [=]..].
    destruct (analyzeDependencies host doc w1) as [[bundle|?|] w2] eqn:Ea;
      [|by intros [=]..].
    destruct (checkNetworkExists host self roleId w2) as [[status|?|] w3] eqn:Ec;
      [|by intros [=]..].
    intros [= <- <-]. by exists doc, w1, bundle, w2, status.
Qed.

Lemma assembleContent_total_pure_witness :
  ∃ doc bundle status,
    (loadRole (example_host echo no_file) (js "writer") ()).1 = Returned doc
    ∧ (analyzeDependencies (example_host echo no_file) doc ()).1 = Returned bundle
    ∧ (processRole (example_host echo no_file)
         {| basePath := js "/home/u/.promptx/cognition" |} (js "writer") (js "command") ()).1
      = Returned (assembleContent doc bundle status (js "command")).
Proof.
  destruct (assembleContent_total_pure
              (document [] []) empty_bundle
              {| hasNetwork := false; networkPath := None; error := None |}
              (js "command")) as [_ H].
  destruct (processRole (example_host echo no_file)
              {| basePath := js "/home/u/.promptx/cognition" |}
              (js "writer") (js "command") ()) as [o w'] eqn:E.
  assert (Ho : ∃ s, o = Returned s).
  { apply (f_equal fst) in E. simpl in E. rewrite <-E. eexists. by vm_compute. }
  destruct Ho as [s ->].
  destruct (H _ _ _ _ _ _ _ E) as (doc & w1 & bundle & w2 & status & H1 & H2 & _ & ->).
  destruct w1, w2. exists doc, bundle, status.
  by rewrite H1, H2.
Defined.

End Assembly.

(** * Further properties of the code *)

(** ** What a greedy repetition takes *)

Section Pieces.

Implicit Types (s t rest acc a : str) (ps : list str) (r : regex) (k : str → result).

Lemma greedy_pieces p k acc s ps rest :
  greedy p k acc s = Some (ps, rest) →
  ∃ a t ps',
    s = a ++ t ∧ Forall (λ c, p c = true) a
    ∧ ps = (acc ++ a) :: ps' ∧ k t = Some (ps', rest).
Proof.
  revert acc. induction s as [|c s IH]; intros acc; simpl.
  - intros (ps' & -> & H)%push_Some. exists [], [], ps'.
    split_and!; rewrite ?app_nil_r; try done; by constructor.
  - assert (Hstop : push acc (k (c :: s)) = Some (ps, rest) →
              ∃ a t ps', c :: s = a ++ t ∧ Forall (λ c, p c = true) a
                         ∧ ps = (acc ++ a) :: ps' ∧ k t = Some (ps', rest)).
    { intros (ps' & -> & H)%push_Some. exists [], (c :: s), ps'.
      split_and!; rewrite ?app_nil_r; try done; by constructor. }
    destruct (p c) eqn:Ec; [|done].
    destruct (greedy p k (acc ++ [c]) s) as [x|] eqn:E; [|done].
    intros [= ->]. apply IH in E as (a & t & ps' & -> & Ha & -> & Hk).
    exists (c :: a), t, ps'. rewrite <-app_assoc. split_and!; try done.
    by constructor.
Qed.

(** The repetition stops where the class ends, when the rest of the
    pattern matches there. *)
Lemma greedy_all p k acc a t x :
  Forall (λ c, p c = true) a →
  match t with c :: _ => p c = false | [] => True end →
  k t = Some x →
  greedy p k acc (a ++ t) = Some ((acc ++ a) :: x.1, x.2).
Proof.
  intros Ha Ht Hk. revert acc. induction Ha as [|c a Hc Ha IH]; intros acc.
  - rewrite app_nil_r. destruct x as [ps rest].
    destruct t as [|c t]; simpl in *; [by rewrite Hk|]. by rewrite Ht, Hk.
  - simpl. rewrite Hc, IH. by rewrite <-app_assoc.
Qed.

Lemma exec_Lit_eq ci l r s :
  exec (Lit ci l :: r) s =
    match strip ci l s with
    | Some (m, s') => push m (exec r s')
    | None => None
    end.
Proof. done. Qed.

Lemma exec_Opt_eq p r c s :
  exec (Opt p :: r) (c :: s) =
    if p c then
      match push [c] (exec r s) with
      | Some x => Some x
      | None => push [] (exec r (c :: s))
      end
    else push [] (exec r (c :: s)).
Proof. done. Qed.

Lemma exec_Lit_app l r s x :
  exec r s = Some x → exec (Lit false l :: r) (l ++ s) = Some (l :: x.1, x.2).
Proof. intros H. rewrite exec_Lit_eq, strip_app, H. by destruct x. Qed.

Lemma exec_Opt_inv p r s ps rest :
  exec (Opt p :: r) s = Some (ps, rest) →
  ∃ b t ps',
    s = b ++ t ∧ ps = b :: ps' ∧ exec r t = Some (ps', rest)
    ∧ (b = [] ∨ ∃ c, b = [c] ∧ p c = true).
Proof.
  assert (Hskip : push [] (exec r s) = Some (ps, rest) →
            ∃ b t ps', s = b ++ t ∧ ps = b :: ps' ∧ exec r t = Some (ps', rest)
                       ∧ (b = [] ∨ ∃ c, b = [c] ∧ p c = true)).
  { intros (ps' & -> & H)%push_Some. exists [], s, ps'. split_and!; auto. }
  cbn [exec]. destruct s as [|c s]; [done|].
  destruct (p c) eqn:Ec; [|done].
  destruct (push [c] (exec r s)) as [x|] eqn:E; [|done].
  intros [= ->]. apply push_Some in E as (ps' & -> & H).
  exists [c], s, ps'. split_and!; eauto.
Qed.

Lemma exec_Plus_inv p r s ps rest :
  exec (Plus p :: r) s = Some (ps, rest) →
  ∃ a t ps',
    s = a ++ t ∧ a ≠ [] ∧ Forall (λ c, p c = true) a
    ∧ ps = a :: ps' ∧ exec r t = Some (ps', rest).
Proof.
  cbn [exec]. destruct s as [|c s]; [done|]. destruct (p c) eqn:Ec; [|done].
  intros (a & t & ps' & -> & Ha & -> & Hk)%greedy_pieces.
  exists (c :: a), t, ps'. split_and!; try done. by constructor.
Qed.

Lemma exec_Plus_all p r a t x :
  a ≠ [] → Forall (λ c, p c = true) a →
  match t with c :: _ => p c = false | [] => True end →
  exec r t = Some x →
  exec (Plus p :: r) (a ++ t) = Some (a :: x.1, x.2).
Proof.
  intros Hne Ha Ht Hx. destruct a as [|c a]; [done|].
  inversion_clear Ha as [|?? Hc Ha']. cbn [exec app]. rewrite Hc.
  by rewrite (greedy_all p (exec r) [c] a t x).
Qed.

(** The matches that a scan finds are matches at positions of the text. *)
Lemma scan_Hit r s ps :
  Hit ps ∈ scan r s 0 → ∃ t rest, t `suffix_of` s ∧ exec r t = Some (ps, rest).
Proof.
  induction s as [|c s Hex IH|c s ps0 rest Hex Hc IH|c s ps0 rest Hex Hc Hs IH]
    using (scan_ind r).
  - simpl. destruct (exec r []) as [[ps0 rest]|] eqn:E.
    + intros [= ->]%list_elem_of_singleton. by exists [], rest.
    + by intros ?%elem_of_nil.
  - rewrite scan_cons, Hex. intros [[=]|Hin]%elem_of_cons.
    destruct (IH Hin) as (t & rest & Ht & Hx). exists t, rest.
    split; [by apply suffix_cons_r|done].
  - rewrite scan_cons, Hex, Hc. intros [[= ->]|[[=]|Hin]%elem_of_cons]%elem_of_cons.
    + by exists (c :: s), rest.
    + destruct (IH Hin) as (t & rest' & Ht & Hx). exists t, rest'.
      split; [by apply suffix_cons_r|done].
  - rewrite scan_cons, Hex. destruct (concat ps0) eqn:E; [done|].
    intros [[= ->]|Hin]%elem_of_cons.
    + by exists (c :: s), rest.
    + destruct (IH Hin) as (t & rest' & Ht & Hx). exists t, rest'.
      split; [|done]. etrans; [done|]. by eapply exec_rest_suffix.
Qed.

Lemma matchAll_elem r s ps :
  ps ∈ matchAll r s → ∃ t rest, t `suffix_of` s ∧ exec r t = Some (ps, rest).
Proof.
  unfold matchAll. intros ([c|ps0] & Hin & Hf)%list_elem_of_omap; [done|].
  injection Hf as ->. by apply scan_Hit.
Qed.

Lemma matchAll_nil r : consuming r → matchAll r [] = [].
Proof. intros Hr. unfold matchAll. simpl. by rewrite (consuming_nil _ Hr). Qed.

Lemma matchAll_cons r c s :
  matchAll r (c :: s) =
    match exec r (c :: s) with
    | Some (ps, rest) =>
        match concat ps with
        | [] => ps :: matchAll r s
        | _ :: _ => ps :: matchAll r rest
        end
    | None => matchAll r s
    end.
Proof.
  unfold matchAll. rewrite scan_cons.
  destruct (exec r (c :: s)) as [[ps rest]|]; [|done]. by destruct (concat ps).
Qed.

End Pieces.

(** ** DependencyAnalyzer.extractResourceReferences *)

Section References.

Implicit Types (s t rest pre bang proto res : str) (ps : list str)
  (ref : ResourceReference).

Lemma greedy_last p acc s :
  ∃ a t, s = a ++ t ∧ Forall (λ c, p c = true) a ∧ stops p t
         ∧ greedy p (exec []) acc s = Some ([acc ++ a], t).
Proof.
  revert acc. induction s as [|c s IH]; intros acc.
  - exists [], []. rewrite !app_nil_r. split_and!; try done; by constructor.
  - cbn [greedy]. destruct (p c) eqn:Ec.
    + destruct (IH (acc ++ [c])) as (a & t & -> & Ha & Ht & ->).
      exists (c :: a), t. rewrite <-app_assoc. split_and!; try done. by constructor.
    + exists [], (c :: s). rewrite !app_nil_r. split_and!; try done; by constructor.
Qed.

(** What [/@!?([^:]+):\/\/([^\s\>\<\n]+)/] matches at the start of a
    text. *)
Lemma exec_reference_Some s ps rest :
  exec re_reference s = Some (ps, rest) →
  ∃ bang proto res,
    ps = [js "@"; bang; proto; js "://"; res]
    ∧ s = token bang proto res ++ rest
    ∧ (bang = [] ∨ bang = js "!")
    ∧ well_formed {| protocol := proto; resource := res |}
    ∧ stops is_resource_char rest.
Proof.
  unfold re_reference.
  intros (m & t1 & ps1 & E1 & -> & H)%exec_Lit_inv.
  pose proof (strip_exact _ _ _ _ E1) as ->. apply strip_sound in E1 as [-> _].
  apply exec_Opt_inv in H as (bang & t2 & ps2 & -> & -> & H & Hbang).
  apply exec_Plus_inv in H as (proto & t3 & ps3 & -> & Hp1 & Hp2 & -> & H).
  apply exec_Lit_inv in H as (m & t4 & ps4 & E4 & -> & H).
  pose proof (strip_exact _ _ _ _ E4) as ->. apply strip_sound in E4 as [-> _].
  destruct t4 as [|c t4]; [done|].
  change (exec [Plus is_resource_char] (c :: t4))
    with (if is_resource_char c then greedy is_resource_char (exec []) [c] t4
          else None) in H.
  destruct (is_resource_char c) eqn:Ec; [|done].
  destruct (greedy_last is_resource_char [c] t4) as (a & t & -> & Ha & Ht & Hg).
  rewrite Hg in H. injection H as <- <-.
  exists bang, proto, (c :: a). unfold token, well_formed. simpl.
  rewrite <-!app_assoc. split_and!; try done.
  - destruct Hbang as [->|(c' & -> & ->%N.eqb_eq)]; auto.
  - by constructor.
Qed.

(** A token at the start of a text is matched as it is written, up to
    the white space, the angle bracket or the end that follows it. *)
Lemma exec_reference_token bang proto res rest :
  (bang = js "!" ∨ (bang = [] ∧ head proto ≠ Some 33)) →
  well_formed {| protocol := proto; resource := res |} →
  stops is_resource_char rest →
  exec re_reference (token bang proto res ++ rest)
  = Some ([js "@"; bang; proto; js "://"; res], rest).
Proof.
  intros Hbang (Hp1 & Hp2 & Hr1 & Hr2) Hrest. cbn [protocol resource] in *.
  assert (Htail : exec [Lit false (js "://"); Plus is_resource_char]
                    (js "://" ++ res ++ rest)
                  = Some ([js "://"; res], rest)).
  { rewrite (exec_Lit_app _ _ _ ([res], rest)); [done|].
    by rewrite (exec_Plus_all _ [] res rest ([], rest)). }
  assert (Hproto : exec [Plus (neqc 58); Lit false (js "://"); Plus is_resource_char]
                     (proto ++ js "://" ++ res ++ rest)
                   = Some ([proto; js "://"; res], rest)).
  { by rewrite (exec_Plus_all _ _ proto (js "://" ++ res ++ rest)
                  ([js "://"; res], rest)). }
  unfold token, re_reference. rewrite <-!app_assoc.
  destruct Hbang as [->|[-> Hhead]].
  - rewrite (exec_Lit_app _ _ _ ([js "!"; proto; js "://"; res], rest)); [done|].
    change (js "!" ++ ?s) with (33 :: s). rewrite exec_Opt_eq.
    change (eqc 33 33) with true. cbv iota. by rewrite Hproto.
  - rewrite (exec_Lit_app _ _ _ ([[]; proto; js "://"; res], rest)); [done|].
    destruct proto as [|c proto]; [done|]. cbn [app]. rewrite exec_Opt_eq.
    assert (eqc 33 c = false) as ->.
    { unfold eqc. apply N.eqb_neq. intros ->. by destruct Hhead. }
    cbn [app] in Hproto. by rewrite Hproto.
Qed.

Lemma exec_reference_other c s : c ≠ 64 → exec re_reference (c :: s) = None.
Proof.
  intros Hc. unfold re_reference. rewrite exec_Lit_eq.
  change (js "@") with [64]. cbn [strip]. unfold same.
  destruct (N.eqb_spec 64 c); [congruence|done].
Qed.

Lemma matchAll_reference_skip pre s :
  64 ∉ pre → matchAll re_reference (pre ++ s) = matchAll re_reference s.
Proof.
  induction pre as [|c pre IH]; [done|]. intros [Hc Hpre]%not_elem_of_cons.
  cbn [app]. rewrite matchAll_cons, exec_reference_other by done. auto.
Qed.

Lemma token_cons bang proto res : ∃ t, token bang proto res = 64 :: t.
Proof. by eexists. Qed.

Lemma matchAll_reference_token pre bang proto res rest :
  64 ∉ pre →
  (bang = js "!" ∨ (bang = [] ∧ head proto ≠ Some 33)) →
  well_formed {| protocol := proto; resource := res |} →
  stops is_resource_char rest →
  matchAll re_reference (pre ++ token bang proto res ++ rest)
  = [js "@"; bang; proto; js "://"; res] :: matchAll re_reference rest.
Proof.
  intros Hpre Hbang Hwf Hrest.
  pose proof (exec_reference_token bang proto res rest Hbang Hwf Hrest) as Hex.
  destruct (token_cons bang proto res) as [t Ht].
  rewrite matchAll_reference_skip by done. rewrite Ht in Hex |- *.
  cbn [app] in Hex |- *. by rewrite matchAll_cons, Hex.
Qed.

Lemma extractFromText_nil : extractFromText (Some []) = [].
Proof. done. Qed.

Lemma extractFromText_matchAll t :
  extractFromText (Some t)
  = map (λ ps, {| protocol := piece ps 2; resource := piece ps 4 |})
      (matchAll re_reference t).
Proof.
  destruct t as [|c t]; [|done].
  cbn [extractFromText falsy]. by rewrite (matchAll_nil _ consuming_reference).
Qed.

(** X1: A reference token that stands in a text after a stretch without
    [@], and that ends where the text ends or at white space, [<] or [>],
    is read as its protocol and resource, with or without [!]; the
    references that follow are those of the rest of the text. *)
Theorem extractFromText_token pre bang proto res rest :
  64 ∉ pre →
  (bang = js "!" ∨ (bang = [] ∧ head proto ≠ Some 33)) →
  well_formed {| protocol := proto; resource := res |} →
  stops is_resource_char rest →
  extractFromText (Some (pre ++ token bang proto res ++ rest))
  = {| protocol := proto; resource := res |} :: extractFromText (Some rest).
Proof.
  intros Hpre Hbang Hwf Hrest. rewrite !extractFromText_matchAll.
  by rewrite matchAll_reference_token.
Qed.

Lemma extractFromText_token_witness :
  extractFromText (Some (js "Be concise. " ++ token (js "!") (js "execution") (js "summarize")
                           ++ js " and more"))
  = {| protocol := js "execution"; resource := js "summarize" |}
      :: extractFromText (Some (js " and more")).
Proof.
  apply extractFromText_token.
  - intros Hin. apply (bool_decide_pack _) in Hin. by vm_compute in Hin.
  - by left.
  - unfold well_formed. cbn [protocol resource]. split_and!.
    + by vm_compute.
    + apply (bool_decide_unpack _). by vm_compute.
    + by vm_compute.
    + apply (bool_decide_unpack _). by vm_compute.
  - by vm_compute.
Defined.

(** X2: The address under which [loadDependency] asks for a reference
    reads back, as a text, as that one reference: nothing of a well-formed
    reference is lost between extraction and loading. *)
Theorem address_round_trip ref :
  well_formed ref → head (protocol ref) ≠ Some 33 →
  extractFromText (Some (address ref)) = [ref].
Proof.
  intros Hwf Hhead. destruct ref as [proto res].
  rewrite extractFromText_matchAll.
  pose proof (matchAll_reference_token [] [] proto res []) as H.
  cbn [app] in H. rewrite app_nil_r in H.
  unfold address. cbn [protocol resource] in *. unfold token in H. cbn [app] in H.
  rewrite H; try done.
  - apply not_elem_of_nil.
  - by right.
Qed.

Lemma address_round_trip_witness :
  extractFromText (Some (address {| protocol := js "thought"; resource := js "calm" |}))
  = [{| protocol := js "thought"; resource := js "calm" |}].
Proof.
  apply address_round_trip.
  - unfold well_formed. cbn [protocol resource]. split_and!.
    + by vm_compute.
    + apply (bool_decide_unpack _). by vm_compute.
    + by vm_compute.
    + apply (bool_decide_unpack _). by vm_compute.
  - by vm_compute.
Defined.

Lemma extracted_reference_origin sections ref :
  ref ∈ extractResourceReferences sections →
  well_formed ref
  ∧ ∃ key text bang,
      (key, Some text) ∈ sections
      ∧ (bang = [] ∨ bang = js "!")
      ∧ occurs (token bang (protocol ref) (resource ref)) text.
Proof.
  unfold extractResourceReferences, values.
  intros (v & Hv & Hin)%list_elem_of_In%in_flat_map.
  apply in_map_iff in Hv as ([key v'] & <- & Hkv%list_elem_of_In).
  cbn [snd] in Hin. destruct v' as [text|]; [|done].
  unfold extractFromText in Hin. destruct (falsy text); [done|].
  apply in_map_iff in Hin as (ps & <- & Hps%list_elem_of_In).
  apply matchAll_elem in Hps as (t & rest & [k ->] & Hex).
  apply exec_reference_Some in Hex as (bang & proto & res & -> & -> & Hbang & Hwf & _).
  change (piece [js "@"; bang; proto; js "://"; res] 2) with proto.
  change (piece [js "@"; bang; proto; js "://"; res] 4) with res.
  split; [done|]. exists key, (k ++ token bang proto res ++ rest), bang.
  split_and!; [done..|]. by exists k, rest.
Qed.

(** X3: Every reference that is extracted has a protocol that is not
    empty and holds no colon, and a resource that is not empty and holds
    no white space, [<] or [>]; and it is written, with or without [!],
    in one of the sections. *)
Theorem extracted_references_well_formed sections ref :
  ref ∈ extractResourceReferences sections →
  well_formed ref
  ∧ ∃ key text bang,
      (key, Some text) ∈ sections
      ∧ (bang = [] ∨ bang = js "!")
      ∧ occurs (token bang (protocol ref) (resource ref)) text.
Proof. apply extracted_reference_origin. Qed.

Lemma extracted_references_well_formed_witness :
  well_formed {| protocol := js "thought"; resource := js "calm" |}
  ∧ ∃ key text bang,
      (key, Some text)
        ∈ [("personality"%string, Some (js "Calm. @!thought://calm"));
           ("knowledge"%string, None)]
      ∧ (bang = [] ∨ bang = js "!")
      ∧ occurs (token bang (js "thought") (js "calm")) text.
Proof.
  apply (extracted_references_well_formed
           [("personality"%string, Some (js "Calm. @!thought://calm"));
            ("knowledge"%string, None)]
           {| protocol := js "thought"; resource := js "calm" |}).
  apply (bool_decide_unpack _). by vm_compute.
Defined.

End References.

(** ** RoleLoader.extractSection *)

Section Tags.

Implicit Types (s t l m rest tagName content : str).

Lemma strip_alike_1 l s m rest :
  strip true l s = Some (m, rest) → s = m ++ rest ∧ alike l m.
Proof.
  unfold alike. revert s m rest. induction l as [|a l IH]; intros s m rest; cbn [strip].
  - by intros [= <- <-].
  - destruct s as [|c s]; [done|]. unfold same.
    destruct (N.eqb_spec (canon a) (canon c)) as [Hac|Hac]; [|done].
    destruct (strip true l s) as [[m' rest']|] eqn:E; [|done].
    apply IH in E as [-> E]. intros [= <- <-]. split; [done|].
    rewrite !fmap_cons. by f_equal.
Qed.

Lemma strip_alike_2 l m rest : alike l m → strip true l (m ++ rest) = Some (m, rest).
Proof.
  unfold alike. revert m. induction l as [|a l IH]; intros [|c m] Hm; try done.
  rewrite !fmap_cons in Hm. injection Hm as Hc Hm.
  cbn [strip app]. unfold same. rewrite Hc, N.eqb_refl. by rewrite (IH _ Hm).
Qed.

Lemma strip_alike l s m rest :
  strip true l s = Some (m, rest) ↔ s = m ++ rest ∧ alike l m.
Proof.
  split; [apply strip_alike_1|]. intros [-> Hm]. by apply strip_alike_2.
Qed.

Lemma strip_alike_lit l l' s : alike l l' → strip true l s = strip true l' s.
Proof.
  intros Hl. destruct (strip true l s) as [[m rest]|] eqn:E.
  - apply strip_alike in E as [-> E]. symmetry. apply strip_alike.
    split; [done|]. unfold alike in *. congruence.
  - destruct (strip true l' s) as [[m rest]|] eqn:E'; [|done].
    apply strip_alike in E' as [-> E'].
    assert (strip true l (m ++ rest) = Some (m, rest)) as Hst.
    { apply strip_alike. split; [done|]. unfold alike in *. congruence. }
    by rewrite E in Hst.
Qed.

Lemma find_alike_lit l l' s : alike l l' → find l s = find l' s.
Proof.
  intros Hl. induction s as [|c s IH]; cbn [find];
    rewrite (strip_alike_lit l l') by done; [done|]. by rewrite IH.
Qed.

(** What [find] finds is the first place where the text stands. *)
Lemma find_Some l s before m after :
  find l s = Some (before, m, after) →
  s = before ++ m ++ after ∧ alike l m
  ∧ ∀ before' m' after',
      s = before' ++ m' ++ after' → alike l m' →
      (length before ≤ length before')%nat.
Proof.
  revert before m after.
  induction s as [|c s IH]; intros before m after; cbn [find].
  - destruct (strip true l []) as [[m0 rest]|] eqn:E; [|done].
    intros [= <- <- <-]. apply strip_alike in E as [E ?].
    split_and!; [done..|]. intros; simpl; lia.
  - destruct (strip true l (c :: s)) as [[m0 rest]|] eqn:E.
    + intros [= <- <- <-]. apply strip_alike in E as [E ?].
      split_and!; [done..|]. intros; simpl; lia.
    + destruct (find l s) as [[[b m1] a]|] eqn:Ef; [|done].
      intros [= <- <- <-]. destruct (IH _ _ _ eq_refl) as (Hs & Hm & Hmin).
      split_and!; [by rewrite Hs|done|]. intros [|c' b'] m' a' Hs' Hm'.
      * cbn [app] in Hs'.
        assert (strip true l (c :: s) = Some (m', a')) as Hst
          by (apply strip_alike; by rewrite Hs').
        by rewrite E in Hst.
      * injection Hs' as _ Hs'. simpl. apply le_n_S. by eapply Hmin.
Qed.

Lemma find_None l s :
  find l s = None ↔ ¬ ∃ before m after, s = before ++ m ++ after ∧ alike l m.
Proof.
  split.
  - induction s as [|c s IH]; cbn [find].
    + destruct (strip true l []) as [[m0 rest]|] eqn:E; [done|].
      intros _ ([|??] & m & a & Hs & Hm); [|done]. cbn [app] in Hs.
      assert (strip true l [] = Some (m, a)) as Hst
        by (apply strip_alike; by rewrite Hs).
      by rewrite E in Hst.
    + destruct (strip true l (c :: s)) as [[m0 rest]|] eqn:E; [done|].
      destruct (find l s) as [[[b m1] a]|] eqn:Ef; [done|].
      intros _ ([|c' b'] & m & a & Hs & Hm).
      * cbn [app] in Hs.
        assert (strip true l (c :: s) = Some (m, a)) as Hst
          by (apply strip_alike; by rewrite Hs).
        by rewrite E in Hst.
      * injection Hs as _ Hs. apply IH; [done|]. by exists b', m, a.
  - intros Hno. destruct (find l s) as [[[b m] a]|] eqn:E; [|done].
    apply find_Some in E as (Hs & Hm & _). destruct Hno. by exists b, m, a.
Qed.

Lemma find_None_suffix l s t : t `suffix_of` s → find l s = None → find l t = None.
Proof.
  intros [k ->] Hno. apply find_None. intros (b & m & a & -> & Hm).
  apply find_None in Hno. apply Hno. exists (k ++ b), m, a.
  by rewrite <-app_assoc.
Qed.

Lemma lazy_any_Lit_ci l acc s :
  lazy any (exec [Lit true l]) acc s =
    match find l s with
    | Some (before, m, after) => Some ([acc ++ before; m], after)
    | None => None
    end.
Proof.
  assert (Hk : ∀ t, exec [Lit true l] t =
                    match strip true l t with
                    | Some (m, rest) => Some ([m], rest)
                    | None => None
                    end).
  { intros t. cbn [exec]. by destruct (strip true l t) as [[m rest]|]. }
  revert acc. induction s as [|c s IH]; intros acc.
  - cbn [lazy find]. rewrite Hk.
    destruct (strip true l []) as [[m rest]|]; cbn [push]; [|done].
    by rewrite app_nil_r.
  - cbn [lazy find]. rewrite Hk.
    destruct (strip true l (c :: s)) as [[m rest]|]; cbn [push].
    + by rewrite app_nil_r.
    + change (any c) with true. cbv iota. rewrite IH.
      destruct (find l s) as [[[b m] a]|]; [|done].
      by rewrite <-app_assoc.
Qed.

Lemma exec_section tagName s :
  exec (re_section tagName) s =
    match strip true (open_tag tagName) s with
    | Some (o, s1) =>
        match find (close_tag tagName) s1 with
        | Some (inner, c, post) => Some ([o; inner; c], post)
        | None => None
        end
    | None => None
    end.
Proof.
  change (exec (re_section tagName) s)
    with (match strip true (open_tag tagName) s with
          | Some (m, s') =>
              push m (lazy any (exec [Lit true (close_tag tagName)]) [] s')
          | None => None
          end).
  destruct (strip true (open_tag tagName) s) as [[m s1]|]; [|done].
  rewrite lazy_any_Lit_ci.
  by destruct (find (close_tag tagName) s1) as [[[??]?]|].
Qed.

Lemma suffix_shorter {A} (t1 t2 s : list A) :
  t1 `suffix_of` s → t2 `suffix_of` s → (length t1 ≤ length t2)%nat →
  t1 `suffix_of` t2.
Proof.
  intros [k1 ->] [k2 H] Hlen. apply app_eq_inv in H as [(k & -> & ->)|(k & -> & ->)].
  - by exists k.
  - rewrite length_app in Hlen. destruct k; [by exists []|simpl in Hlen; lia].
Qed.

(** No match starts in a text where no opening tag has a closing tag
    after it. *)
Lemma search_section_none tagName s :
  (∀ t o r, t `suffix_of` s → strip true (open_tag tagName) t = Some (o, r) →
            find (close_tag tagName) r = None) →
  search (re_section tagName) s = None.
Proof.
  induction s as [|c s IH]; intros H; cbn [search]; rewrite exec_section.
  - destruct (strip true (open_tag tagName) []) as [[o r]|] eqn:E; [|done].
    by rewrite (H [] o r).
  - destruct (strip true (open_tag tagName) (c :: s)) as [[o r]|] eqn:E.
    + rewrite (H (c :: s) o r) by done. rewrite IH; [done|].
      intros t o' r' Ht. apply H. by apply suffix_cons_r.
    + rewrite IH; [done|]. intros t o' r' Ht. apply H. by apply suffix_cons_r.
Qed.

Lemma search_section tagName s :
  search (re_section tagName) s =
    match find (open_tag tagName) s with
    | Some (pre, o, s1) =>
        match find (close_tag tagName) s1 with
        | Some (inner, c, post) => Some (pre, [o; inner; c], post)
        | None => None
        end
    | None => None
    end.
Proof.
  induction s as [|c s IH].
  - cbn [search find]. rewrite exec_section.
    destruct (strip true (open_tag tagName) []) as [[o s1]|]; [|done].
    by destruct (find (close_tag tagName) s1) as [[[??]?]|].
  - cbn [search find]. rewrite exec_section.
    destruct (strip true (open_tag tagName) (c :: s)) as [[o s1]|] eqn:E.
    + destruct (find (close_tag tagName) s1) as [[[inner cl] post]|] eqn:Ec; [done|].
      rewrite search_section_none; [done|]. intros t o' r Ht Hst.
      apply (find_None_suffix _ s1); [|done].
      apply strip_sound in E as [E Ho], Hst as [Hst Ho'].
      apply (suffix_shorter _ _ (c :: s)).
      * apply suffix_cons_r. etrans; [|exact Ht]. rewrite Hst. by apply suffix_app_r.
      * rewrite E. by apply suffix_app_r.
      * apply suffix_length in Ht. apply (f_equal length) in E, Hst.
        rewrite length_app in E, Hst. simpl in E. lia.
    + rewrite IH. destruct (find (open_tag tagName) s) as [[[pre o] s1]|]; [|done].
      by destruct (find (close_tag tagName) s1) as [[[??]?]|].
Qed.

(** X4: for a tag name of letters, digits, [_] and [-], which stands for
    itself in the pattern, [extractSection] gives the trimmed text between
    the first opening tag of the content and the first closing tag after
    it, both found whatever the case of their letters; it gives [null]
    when the content has no opening tag, or no closing tag after the first
    opening one. *)
Theorem extractSection_first_pair content tagName :
  plain tagName →
  extractSection content tagName =
    match find (open_tag tagName) content with
    | Some (_, _, s1) =>
        match find (close_tag tagName) s1 with
        | Some (inner, _, _) => Some (trim inner)
        | None => None
        end
    | None => None
    end.
Proof.
  intros _. unfold extractSection. rewrite search_section.
  destruct (find (open_tag tagName) content) as [[[pre o] s1]|]; [|done].
  by destruct (find (close_tag tagName) s1) as [[[??]?]|].
Qed.

Lemma extractSection_first_pair_witness :
  extractSection
    (js "<Principle> a </principle> b <principle> c </PRINCIPLE>") (js "principle")
  = Some (js "a").
Proof.
  rewrite extractSection_first_pair; [by vm_compute|].
  apply (bool_decide_unpack _). by vm_compute.
Defined.

Lemma alike_tags tagName tagName' :
  alike tagName tagName' →
  alike (open_tag tagName) (open_tag tagName')
  ∧ alike (close_tag tagName) (close_tag tagName').
Proof.
  unfold alike, open_tag, close_tag. intros H. rewrite !fmap_app. by rewrite H.
Qed.

(** X5: the letter case of the tag name that is asked for does not
    matter, for tag names of letters, digits, [_] and [-]. *)
Theorem extractSection_tag_case content tagName tagName' :
  plain tagName → plain tagName' → alike tagName tagName' →
  extractSection content tagName = extractSection content tagName'.
Proof.
  intros _ _ [Ho Hc]%alike_tags. unfold extractSection. rewrite !search_section.
  rewrite (find_alike_lit _ _ _ Ho).
  destruct (find (open_tag tagName') content) as [[[pre o] s1]|]; [|done].
  by rewrite (find_alike_lit _ _ _ Hc).
Qed.

Lemma extractSection_tag_case_witness :
  extractSection (js "<Personality> calm </PERSONALITY>") (js "personality")
  = extractSection (js "<Personality> calm </PERSONALITY>") (js "PersonaLity").
Proof.
  apply extractSection_tag_case; [| |by vm_compute];
    apply (bool_decide_unpack _); by vm_compute.
Defined.

End Tags.

(** ** LayerAssembler.cleanContent: what is kept *)

Section Kept.

Implicit Types (s t x : str) (ps : list str) (r : regex).

(** A replacement that puts back part of what was matched only takes
    code units away. *)
Lemma replaceAll_sublist r repl s :
  (∀ t ps rest, exec r t = Some (ps, rest) → repl `sublist_of` concat ps) →
  replaceAll r repl s `sublist_of` s.
Proof.
  intros Hrepl.
  induction s as [|c s Hex IH|c s ps rest Hex Hc IH|c s ps rest Hex Hc Hs IH]
    using (scan_ind r).
  - rewrite replaceAll_nil. destruct (exec r []) as [[ps rest]|] eqn:E; [|done].
    pose proof (exec_sound _ _ _ _ E) as Hs. symmetry in Hs.
    apply app_eq_nil in Hs as [Hs _]. rewrite <-Hs. by eapply Hrepl.
  - rewrite replaceAll_cons, Hex. by apply sublist_skip.
  - rewrite replaceAll_cons, Hex, Hc. apply Hrepl in Hex. rewrite Hc in Hex.
    apply sublist_nil_r in Hex as ->. by apply sublist_skip.
  - rewrite replaceAll_cons, Hex. destruct (concat ps) as [|c' m] eqn:E; [done|].
    rewrite Hs. apply sublist_app; [|done]. rewrite <-E. by eapply Hrepl.
Qed.

Lemma exec_blank_lines_pieces t ps rest :
  exec re_blank_lines t = Some (ps, rest) →
  ∃ a b, ps = [[NL]; a; [NL]; b; [NL]].
Proof.
  unfold re_blank_lines.
  intros (m1 & t1 & ps1 & ->%strip_exact & -> & H)%exec_Lit_inv.
  change (exec (Star is_space :: ?r) t1) with (greedy is_space (exec r) [] t1) in H.
  apply greedy_inv in H as (a & t2 & ps2 & -> & H).
  apply exec_Lit_inv in H as (m2 & t3 & ps3 & ->%strip_exact & -> & H).
  change (exec (Star is_space :: ?r) t3) with (greedy is_space (exec r) [] t3) in H.
  apply greedy_inv in H as (b & t4 & ps4 & -> & H).
  apply exec_Lit_inv in H as (m3 & t5 & ps5 & ->%strip_exact & -> & H).
  cbn [exec] in H. injection H as <- _. by exists a, b.
Qed.

Lemma trimStart_sublist s : trimStart s `sublist_of` s.
Proof. destruct (trimStart_suffix s) as [k Hk]. rewrite Hk at 2. by apply sublist_inserts_l. Qed.

Lemma trim_sublist s : trim s `sublist_of` s.
Proof.
  unfold trim. etrans; [apply trimStart_sublist|].
  destruct (trimEnd_spaces s) as (w & Hw & _). rewrite Hw at 2.
  by apply sublist_inserts_r.
Qed.

Lemma cleanContent_sub x : cleanContent x `sublist_of` x.
Proof.
  rewrite cleanContent_unfold. etrans; [apply trim_sublist|].
  etrans; [apply replaceAll_sublist|].
  { intros t ps rest (a & b & ->)%exec_blank_lines_pieces. cbn [concat app].
    apply sublist_skip. apply sublist_inserts_l. apply sublist_skip.
    apply sublist_nil_l. }
  etrans; [apply replaceAll_sublist; intros; apply sublist_nil_l|].
  unfold stripTags.
  etrans; [apply replaceAll_sublist; intros; apply sublist_nil_l|].
  apply replaceAll_sublist; intros; apply sublist_nil_l.
Qed.

(** X6: [cleanContent] only takes code units away: what it returns is
    the input with some code units left out, the others in their order. *)
Theorem cleanContent_sublist x : cleanContent x `sublist_of` x.
Proof. apply cleanContent_sub. Qed.

Lemma exec_Lit_head l c r t :
  exec (Lit false (c :: l) :: r) t ≠ None → head t = Some c.
Proof.
  destruct (exec _ t) as [[ps rest]|] eqn:E; [|done]. intros _.
  apply exec_Lit_inv in E as (m & t' & ps' & E & _).
  pose proof (strip_exact _ _ _ _ E) as ->. by apply strip_sound in E as [-> _].
Qed.

Lemma exec_token_line_at t : exec re_token_line t ≠ None → 64 ∈ t.
Proof.
  destruct (exec _ t) as [[ps rest]|] eqn:E; [|done]. intros _.
  unfold re_token_line in E.
  change (exec (Star is_space :: ?r) t) with (greedy is_space (exec r) [] t) in E.
  apply greedy_pieces in E as (a & t' & ps' & -> & _ & _ & E).
  assert (head t' = Some 64) as Hh.
  { change (js "@") with [64] in E. eapply exec_Lit_head. by rewrite E. }
  destruct t' as [|c t']; [done|]. injection Hh as ->.
  apply elem_of_app. right. apply elem_of_cons. by left.
Qed.

Lemma suffix_elem_of (c : N) s t : t `suffix_of` s → c ∈ t → c ∈ s.
Proof. intros [k ->] ?. apply elem_of_app. by right. Qed.

Lemma cleanContent_plain x :
  60 ∉ x → 64 ∉ x →
  cleanContent x = trim (replaceAll re_blank_lines [NL; NL] x).
Proof.
  intros Hlt Hat. rewrite cleanContent_unfold. unfold stripTags.
  assert (Hhead : ∀ c t, t `suffix_of` x → head t = Some c → c ∈ x).
  { intros c t Ht Hh. apply (suffix_elem_of c _ t Ht).
    destruct t as [|c' t]; [done|]. injection Hh as ->. apply elem_of_cons. by left. }
  rewrite (replaceAll_id re_reference_open).
  2:{ intros t Ht. destruct (exec re_reference_open t) eqn:E; [|done].
      destruct Hlt. apply (Hhead _ t Ht).
      unfold re_reference_open in E.
      change (js "<reference") with (60 :: js "reference") in E.
      eapply exec_Lit_head. by rewrite E. }
  rewrite (replaceAll_id re_reference_close).
  2:{ intros t Ht. destruct (exec re_reference_close t) eqn:E; [|done].
      destruct Hlt. apply (Hhead _ t Ht).
      unfold re_reference_close in E.
      change (js "</reference>") with (60 :: js "/reference>") in E.
      eapply exec_Lit_head. by rewrite E. }
  rewrite (replaceAll_id re_token_line).
  2:{ intros t Ht. destruct (exec re_token_line t) eqn:E; [|done].
      destruct Hat. apply (suffix_elem_of _ _ t Ht), exec_token_line_at.
      by rewrite E. }
  done.
Qed.

(** X7: A text without [<] and [@], and without three newlines in one
    stretch of white space, is only trimmed. *)
Theorem cleanContent_plain_text x :
  60 ∉ x → 64 ∉ x → calm x → cleanContent x = trim x.
Proof. intros Hlt Hat Hcalm. by rewrite cleanContent_plain, calm_collapse. Qed.

Lemma cleanContent_plain_text_witness :
  cleanContent (js "  Be concise.  ") = trim (js "  Be concise.  ").
Proof.
  apply cleanContent_plain_text.
  - intros H. apply (bool_decide_pack _) in H. by vm_compute in H.
  - intros H. apply (bool_decide_pack _) in H. by vm_compute in H.
  - intros t Ht.
    apply (every_suffix_spec (λ t, bool_decide (lead_nl t ≤ 2)%nat)) in Ht;
      [|by vm_compute].
    by apply bool_decide_eq_true in Ht.
Defined.

(** X8: On a text without [<] and [@], cleaning twice is cleaning
    once. *)
Theorem cleanContent_plain_idempotent x :
  60 ∉ x → 64 ∉ x → cleanContent (cleanContent x) = cleanContent x.
Proof.
  intros Hlt Hat.
  assert (Hin : ∀ c, c ∉ x → c ∉ cleanContent x).
  { intros c Hc Hin. apply Hc. eapply elem_of_sublist; [done|]. apply cleanContent_sub. }
  rewrite (cleanContent_plain (cleanContent x)) by auto.
  rewrite calm_collapse by apply cleanContent_calm. apply cleanContent_trimmed.
Qed.

Lemma cleanContent_plain_idempotent_witness :
  cleanContent (cleanContent [32; 97; 10; 10; 10; 10; 98; 32])
  = cleanContent [32; 97; 10; 10; 10; 10; 98; 32].
Proof.
  apply cleanContent_plain_idempotent;
    intros H; apply (bool_decide_pack _) in H; by vm_compute in H.
Defined.

End Kept.

(** ** The pipeline as a whole *)

Section Documents.

Context {World : Type} (host : Host World).

Implicit Types (s t v content roleId : str).

Lemma trim_occurs s : occurs (trim s) s.
Proof.
  destruct (trimEnd_spaces s) as (w2 & H2 & _).
  destruct (trimStart_spaces (trimEnd s)) as (w1 & H1 & _).
  exists w1, w2. unfold trim. by rewrite app_assoc, <-H1.
Qed.

Lemma occurs_trans s t v : occurs s t → occurs t v → occurs s v.
Proof.
  intros (a & b & ->) (c & d & ->). exists (c ++ a), (b ++ d).
  by rewrite <-!app_assoc.
Qed.

Lemma extractSection_occurs content tagName v :
  extractSection content tagName = Some v → trim v = v ∧ occurs v content.
Proof.
  unfold extractSection. rewrite search_section.
  destruct (find (open_tag tagName) content) as [[[pre o] s1]|] eqn:Eo; [|done].
  destruct (find (close_tag tagName) s1) as [[[inner c] post]|] eqn:Ec; [|done].
  intros [= <-]. cbn [piece lookup list_lookup default from_option].
  split; [apply trim_trim|].
  apply find_Some in Eo as (-> & _ & _), Ec as (-> & _ & _).
  eapply occurs_trans; [apply trim_occurs|]. exists (pre ++ o), (c ++ post).
  by rewrite <-!app_assoc.
Qed.

Lemma parseDPMLContent_sections content key v :
  (key, Some v) ∈ parseDPMLContent content → trim v = v ∧ occurs v content.
Proof.
  rewrite parseDPMLContent_cut.
  destruct (cut (js "<role>") content) as [[pre s1]|] eqn:Eo; [|by intros ?%elem_of_nil].
  destruct (cut (js "</role>") s1) as [[inner post]|] eqn:Ec; [|by intros ?%elem_of_nil].
  apply cut_Some in Eo as [-> _], Ec as [-> _].
  assert (Hin : occurs inner (pre ++ js "<role>" ++ inner ++ js "</role>" ++ post)).
  { exists (pre ++ js "<role>"), (js "</role>" ++ post). by rewrite <-!app_assoc. }
  unfold sectionsOf. rewrite !elem_of_cons, elem_of_nil.
  intros [H|[H|[H|[]]]]; injection H as _ H; symmetry in H;
    apply extractSection_occurs in H as [? ?]; split; try done;
    by eapply occurs_trans.
Qed.

(** X9: A document that [loadRole] returns carries the identifier that
    was asked for and a raw text that is not empty; its sections are those
    read from the raw text, and each one is a trimmed piece of it. *)
Theorem loadRole_document roleId w doc w' :
  loadRole host roleId w = (Returned doc, w') →
  role_id doc = roleId
  ∧ raw doc ≠ []
  ∧ sections doc = parseDPMLContent (raw doc)
  ∧ ∀ key v, (key, Some v) ∈ sections doc → trim v = v ∧ occurs v (raw doc).
Proof.
  rewrite loadRole_run.
  destruct (if initialized host w then _ else _) as [[[]|e|] w1]; [|done..].
  destruct (loadResource host _ w1) as [[result|e|] w2]; [|done..].
  destruct (usable result) as [c|] eqn:Eu; [|done].
  intros [= <- <-]. cbn [role_id raw sections]. split_and!; [done| |done|].
  - by eapply usable_nonempty.
  - apply parseDPMLContent_sections.
Qed.

End Documents.

Section DocumentExamples.

Lemma loadRole_document_witness :
  let doc :=
    {| role_id := js "writer"; raw := writer_text;
       sections :=
         [("personality"%string, Some (js "Calm. @!thought://calm"));
          ("principle"%string, Some (js "Be brief. @tool://pen"));
          ("knowledge"%string, None)];
       metadata := [] |} in
  role_id doc = js "writer"
  ∧ raw doc ≠ []
  ∧ sections doc = parseDPMLContent (raw doc)
  ∧ ∀ key v, (key, Some v) ∈ sections doc → trim v = v ∧ occurs v (raw doc).
Proof.
  apply (loadRole_document (example_host shelf no_file) (js "writer") () _ ()).
  by vm_compute.
Defined.

End DocumentExamples.

Section Settled.

Context {World : Type} (host : Host World).

Lemma mapM_id_Some {B} (results : list (option B)) rs :
  mapM id results = Some rs → results = Some <$> rs.
Proof.
  revert rs. induction results as [|[x|] results IH]; intros rs; cbn [mapM].
  - by intros [= <-].
  - cbn. destruct (mapM id results) as [rs'|]; [|done]. cbn.
    intros [= <-]. by rewrite (IH rs').
  - done.
Qed.

Lemma record_settled_length {B} (promises : list (Outcome B)) order results :
  length (foldl (record_settled promises) results order) = length results.
Proof.
  revert results. induction order as [|i order IH]; intros results; cbn [foldl]; [done|].
  rewrite IH. unfold record_settled. destruct (promises !! i ≫= settle); [|done].
  by rewrite length_insert.
Qed.

(** When the await of [Promise.allSettled] returns, every promise has
    settled, and the results stand in the order of the promises. *)
Lemma allSettled_Returned {B} (promises : list (Outcome B)) w rs w' :
  allSettled host promises w = (Returned rs, w') →
  w' = w ∧ Forall settles promises ∧ rs = settled_as <$> promises.
Proof.
  unfold allSettled. set (results := foldl _ _ _).
  destruct (mapM id results) as [rs'|] eqn:E; [|done]. intros [= <- <-].
  apply mapM_id_Some in E.
  assert (Hlook : ∀ j o, promises !! j = Some o →
                         settles o ∧ rs' !! j = Some (settled_as o)).
  { intros j o Hj. pose proof (f_equal (λ l, l !! j) E) as Hr. cbv beta in Hr.
    unfold results in Hr.
    rewrite record_settled_lookup in Hr by by rewrite length_replicate.
    rewrite Hj in Hr. cbn [mbind option_bind] in Hr.
    rewrite list_lookup_fmap in Hr.
    assert (replicate (length promises) (@None (Settled B)) !! j = Some None) as Hn.
    { apply lookup_replicate_2. by eapply lookup_lt_Some. }
    rewrite Hn in Hr.
    destruct (decide (j ∈ settle_order host (length promises))).
    - destruct o as [v|err|]; cbn [settle] in Hr.
      + destruct (rs' !! j); [|done]. cbn in Hr. by simplify_eq.
      + destruct (rs' !! j); [|done]. cbn in Hr. by simplify_eq.
      + by destruct (rs' !! j).
    - by destruct (rs' !! j). }
  assert (Hlen : length rs' = length promises).
  { apply (f_equal length) in E. rewrite length_fmap in E. rewrite <-E.
    unfold results. by rewrite record_settled_length, length_replicate. }
  split_and!; [done| |].
  - apply Forall_lookup. intros j o Hj. by apply Hlook in Hj as [? _].
  - apply list_eq. intros j. rewrite list_lookup_fmap.
    destruct (promises !! j) as [o|] eqn:Ej; simpl.
    + by apply Hlook in Ej as [_ ?].
    + apply lookup_ge_None. rewrite Hlen. by apply lookup_ge_None.
Qed.

(** The bundle that [analyzeDependencies] returns, whenever it returns. *)
Lemma analyzeDependencies_Returned roleInfo w b w' :
  analyzeDependencies host roleInfo w = (Returned b, w') →
  let refs := extractResourceReferences (sections roleInfo) in
  Forall settles (answers host refs w).1
  ∧ b = bundle_of (successes refs (resolution <$> (answers host refs w).1))
  ∧ w' = (answers host refs w).2.
Proof.
  intros H refs. unfold analyzeDependencies, bind in H. fold refs in H.
  rewrite startAll_run in H.
  destruct (allSettled host _ _) as [[rs|e|] w1] eqn:E; [|done..].
  apply allSettled_Returned in E as (-> & Hset & ->).
  unfold ret in H. injection H as <- <-. split_and!; [|.. |done].
  - rewrite Forall_fmap in Hset. eapply list.Forall_impl; [exact Hset|].
    intros o Ho. unfold settles, compose in *. by destruct o.
  - unfold settled_as.
    rewrite (forEach_classify [] refs) by apply answers_length. done.
Qed.

Lemma successes_content refs os p :
  p ∈ successes refs (resolution <$> os) → p.2 ≠ [].
Proof.
  unfold successes. intros (q & Hq & Hp)%list_elem_of_omap.
  destruct q as [ref [c|]]; [|done]. injection Hp as <-. simpl.
  apply elem_of_zip_r in Hq.
  apply list_elem_of_fmap in Hq as (o & Ho & _). by eapply resolution_nonempty.
Qed.

(** X10: Whenever [analyzeDependencies] returns, every entry of the bundle
    has a content that is not empty, and stands for a reference of the
    sections that is well formed and of a recognized protocol, under the
    resource of that reference. *)
Theorem analyzeDependencies_entries roleInfo w b w' :
  analyzeDependencies host roleInfo w = (Returned b, w') →
  ∀ d, d ∈ thoughts b ++ executions b ++ knowledges b →
    dep_content d ≠ []
    ∧ ∃ ref,
        ref ∈ extractResourceReferences (sections roleInfo)
        ∧ recognized ref ∧ well_formed ref ∧ dep_id d = resource ref.
Proof.
  intros (_ & -> & _)%analyzeDependencies_Returned d Hd.
  apply bundle_entries in Hd as (p & Hp & Hrec & ->). split.
  - by eapply successes_content.
  - exists p.1. apply successes_refs in Hp. split_and!; try done.
    by apply extracted_reference_origin in Hp as [? _].
Qed.

End Settled.

Section Failures.

Context {World : Type} (host : Host World).

(** X11: Where a failure of [processRole] comes from: the initialization
    of the resource manager, the loading of the role itself, or a role
    resource that cannot be used.  No failure of a dependency or of the
    probe of the file system reaches the caller. *)
Theorem processRole_thrown_origin self roleId mode w e w' :
  processRole host self roleId mode w = (Thrown e, w') →
  (initialized host w = false
   ∧ initializeWithNewArchitecture host w = (Thrown e, w'))
  ∨ (∃ w1, ready host w w1
           ∧ loadResource host (js "@role://" ++ roleId) w1 = (Thrown e, w'))
  ∨ (∃ w1 result,
        ready host w w1
        ∧ loadResource host (js "@role://" ++ roleId) w1 = (Returned result, w')
        ∧ usable result = None
        ∧ message e = js "无法加载角色 " ++ roleId ++ js " 的内容").
Proof.
  rewrite processRole_run.
  destruct (loadRole host roleId w) as [[doc|e'|] w1] eqn:El.
  - destruct (analyzeDependencies host doc w1) as [[b|?|] w2]; [|done..].
    by destruct (checkNetworkExists host self roleId w2) as [[?|?|] w3].
  - cbn. intros [= -> ->]. rewrite loadRole_run in El.
    destruct (initialized host w) eqn:Ei.
    + destruct (loadResource host _ w) as [[result|e1|] w2] eqn:Er; [| |done].
      * destruct (usable result) eqn:Eu; [done|]. injection El as <- <-.
        right; right. exists w, result. split_and!; try done. by left.
      * injection El as <- <-. right; left. exists w. split; [by left|done].
    + destruct (initializeWithNewArchitecture host w) as [[[]|e0|] w0] eqn:E0; [| |done].
      * destruct (loadResource host _ w0) as [[result|e1|] w2] eqn:Er; [| |done].
        -- destruct (usable result) eqn:Eu; [done|]. injection El as <- <-.
           right; right. exists w0, result. split_and!; try done. by right.
        -- injection El as <- <-. right; left. exists w0. split; [by right|done].
      * injection El as <- <-. by left.
  - done.
Qed.



End Failures.

Section PipelineExamples.

Lemma analyzeDependencies_entries_witness :
  dep_content {| dep_id := js "calm"; dep_content := js "@thought://calm" |} ≠ []
  ∧ ∃ ref,
      ref ∈ extractResourceReferences
              (sections
                 (document (js "writer")
              [("personality"%string, Some (js "Calm. @!thought://calm"));
               ("principle"%string, Some (js "Be brief. @tool://pen"))]))
      ∧ recognized ref ∧ well_formed ref
      ∧ dep_id {| dep_id := js "calm"; dep_content := js "@thought://calm" |} = resource ref.
Proof.
  apply (analyzeDependencies_entries (example_host echo no_file)
           (document (js "writer")
              [("personality"%string, Some (js "Calm. @!thought://calm"));
               ("principle"%string, Some (js "Be brief. @tool://pen"))])
           ()
           {| thoughts := [{| dep_id := js "calm"; dep_content := js "@thought://calm" |}];
              executions := []; knowledges := [] |}
           ()).
  - by vm_compute.
  - apply list_elem_of_here.
Defined.

Lemma processRole_thrown_origin_witness :
  let host := example_host nothing no_file in
  let e := {| message := js "无法加载角色 ghost 的内容" |} in
  (initialized host () = false
   ∧ initializeWithNewArchitecture host () = (Thrown e, ()))
  ∨ (∃ w1, ready host () w1
           ∧ loadResource host (js "@role://" ++ js "ghost") w1 = (Thrown e, ()))
  ∨ (∃ w1 result,
        ready host () w1
        ∧ loadResource host (js "@role://" ++ js "ghost") w1 = (Returned result, ())
        ∧ usable result = None
        ∧ message e = js "无法加载角色 " ++ js "ghost" ++ js " 的内容").
Proof.
  apply (processRole_thrown_origin (example_host nothing no_file)
           {| basePath := js "/home/u/.promptx/cognition" |}
           (js "ghost") (js "command")).
  by vm_compute.
Defined.


End PipelineExamples.

(** ** cli.js: the name of an installation *)

Section Names.

Implicit Types (s t input : str).

Lemma greedy_at_end p acc s :
  greedy p at_end acc s = if forallb p s then Some ([acc ++ s], []) else None.
Proof.
  revert acc. induction s as [|c s IH]; intros acc; cbn [greedy forallb].
  - cbn. by rewrite app_nil_r.
  - destruct (p c); cbn [andb]; [|done].
    rewrite IH. destruct (forallb p s); [|done]. by rewrite <-app_assoc.
Qed.

Lemma forallb_Forall (p : N → bool) s :
  forallb p s = true ↔ Forall (λ c, p c = true) s.
Proof.
  induction s as [|c s IH]; cbn [forallb].
  - split; [by constructor|done].
  - rewrite andb_true_iff, IH. split.
    + intros [??]. by constructor.
    + by intros [??]%list.Forall_cons.
Qed.

Lemma test_name_plain s : test_name s = true ↔ s ≠ [] ∧ plain s.
Proof.
  unfold plain. destruct s as [|c s]; cbn [test_name].
  - split; [done|]. by intros [? _].
  - destruct (is_name_char c) eqn:Ec.
    + rewrite greedy_at_end. destruct (forallb is_name_char s) eqn:E.
      * apply forallb_Forall in E. split; [|done]. intros _. split; [done|].
        by constructor.
      * split; [done|]. intros [_ [_ H%forallb_Forall]%list.Forall_cons]. congruence.
    + split; [done|]. intros [_ [? _]%list.Forall_cons]. congruence.
Qed.

(** X13: A custom name is accepted exactly when, with the white space
    around it taken away, it is not empty and made of ASCII letters,
    digits, [_] and [-] only. *)
Theorem validate_Valid input :
  validate input = Valid ↔ trim input ≠ [] ∧ plain (trim input).
Proof.
  unfold validate. rewrite <-test_name_plain.
  destruct (trim input) as [|c t] eqn:E; cbn [falsy].
  - split; [done|]. by intros ?.
  - destruct (test_name (c :: t)); cbn [negb]; split; done.
Qed.

End Names.

(** ** cli.js: installRole *)

Section Installing.

Context {World : Type} (host : Host World).

Implicit Types (builder : Builder World) (selectedRole : SelectedRole)
  (installType claudeDir customName : str) (selectedTools : option (list str)).

Lemma installRole_run builder selectedRole installType claudeDir selectedTools customName w :
  installRole host builder selectedRole installType claudeDir selectedTools customName w =
    let roleName := role selectedRole in
    let name := finalName roleName installType customName in
    let wrap e := {| message := js "安装角色失败: " ++ message e |} in
    match newCognitionLoader host with
    | Err e0 => (Thrown (wrap e0), w)
    | Ok processor =>
        match processRole host processor roleName (modeOf installType) w with
        | (Thrown e0, w1) => (Thrown (wrap e0), w1)
        | (Pending, w1) => (Pending, w1)
        | (Returned content, w1) =>
            match
              (if eqb_str installType (js "agents") then
                 built (createSubagent builder
                          (agentConfig roleName name content claudeDir selectedTools) w1)
                   (js "创建Subagent失败: ")
               else (Returned false, w1))
            with
            | (Thrown e0, w2) => (Thrown (wrap e0), w2)
            | (Pending, w2) => (Pending, w2)
            | (Returned agent, w2) =>
                match
                  (if eqb_str installType (js "commands") then
                     built (createCommand builder
                              (commandConfig roleName name content claudeDir selectedTools)
                              w2)
                       (js "创建Command失败: ")
                   else (Returned false, w2))
                with
                | (Thrown e0, w3) => (Thrown (wrap e0), w3)
                | (Pending, w3) => (Pending, w3)
                | (Returned command, w3) =>
                    (Returned (resultsOf roleName installType name agent command), w3)
                end
            end
        end
    end.
Proof.
  unfold installRole, try_catch, bind, lift, ret, throw, built, resultsOf. cbv zeta.
  destruct (newCognitionLoader host) as [processor|e0]; cbn [now]; [|done].
  destruct (processRole host processor _ _ w) as [[content|e0|] w1]; [|done..].
  destruct (eqb_str installType (js "agents")).
  - destruct (createSubagent builder _ w1) as [[r|e0|] w2]; [|done..].
    destruct (build_success r); cbn [negb]; [|done].
    destruct (eqb_str installType (js "commands")); [|done].
    destruct (createCommand builder _ w2) as [[r'|e0|] w3]; [|done..].
    by destruct (build_success r').
  - destruct (eqb_str installType (js "commands")); [|done].
    destruct (createCommand builder _ w1) as [[r'|e0|] w3]; [|done..].
    by destruct (build_success r').
Qed.

Lemma built_Thrown (o : Outcome BuildResult * World) complaint e w' :
  built o complaint = (Thrown e, w') →
  (o = (Thrown e, w'))
  ∨ (∃ r, o = (Returned r, w') ∧ build_success r = false
          ∧ e = {| message := complaint ++ build_error r |}).
Proof.
  destruct o as [[r|e0|] w1]; cbn [built]; [| |done].
  - destruct (build_success r) eqn:Es; [done|]. intros [= <- <-]. right. by exists r.
  - intros [= <- <-]. by left.
Qed.

Lemma built_Returned (o : Outcome BuildResult * World) complaint made w' :
  built o complaint = (Returned made, w') →
  made = true ∧ ∃ r, o = (Returned r, w') ∧ build_success r = true.
Proof.
  destruct o as [[r|e0|] w1]; cbn [built]; [|done..].
  destruct (build_success r) eqn:Es; [|done]. intros [= <- <-]. split; [done|].
  by exists r.
Qed.

Lemma eqb_str_neq a b : eqb_str a b = false ↔ a ≠ b.
Proof. rewrite <-eqb_str_eq. by destruct (eqb_str a b). Qed.

Lemma agents_not_commands : eqb_str (js "agents") (js "commands") = false.
Proof. by vm_compute. Qed.

Lemma loadRole_unusable roleId w w1 result w2 :
  ready host w w1 →
  loadResource host (js "@role://" ++ roleId) w1 = (Returned result, w2) →
  usable result = None →
  loadRole host roleId w
  = (Thrown {| message := js "无法加载角色 " ++ roleId ++ js " 的内容" |}, w2).
Proof.
  intros Hready Hload Hu. rewrite loadRole_run.
  destruct Hready as [[-> ->]|[-> ->]]; by rewrite Hload, Hu.
Qed.

(** X14: When the resource of the role cannot be used, [installRole]
    fails with the message of [loadRole] behind its own prefix, whatever
    the builder: nothing is built. *)
Theorem installRole_unusable_role builder selectedRole installType claudeDir
    selectedTools customName processor w w1 result w2 :
  newCognitionLoader host = Ok processor →
  ready host w w1 →
  loadResource host (js "@role://" ++ role selectedRole) w1 = (Returned result, w2) →
  usable result = None →
  installRole host builder selectedRole installType claudeDir selectedTools customName w
  = (Thrown {| message := js "安装角色失败: " ++ js "无法加载角色 "
                           ++ role selectedRole ++ js " 的内容" |}, w2).
Proof.
  intros Hnew Hready Hload Hu. rewrite installRole_run, Hnew. cbv zeta.
  rewrite processRole_run, (loadRole_unusable _ _ _ _ _ Hready Hload Hu). done.
Qed.

(** X15: Every failure of [installRole] carries its prefix, before the
    message of what failed: the construction of the processor, the
    processing of the role, a builder that threw, or a builder that
    reported no success. *)
Theorem installRole_thrown_origin builder selectedRole installType claudeDir
    selectedTools customName w e w' :
  installRole host builder selectedRole installType claudeDir selectedTools customName w
  = (Thrown e, w') →
  ∃ cause,
    message e = js "安装角色失败: " ++ cause
    ∧ ((∃ e0, newCognitionLoader host = Err e0 ∧ cause = message e0)
       ∨ (∃ processor e0,
            newCognitionLoader host = Ok processor
            ∧ processRole host processor (role selectedRole) (modeOf installType) w
              = (Thrown e0, w')
            ∧ cause = message e0)
       ∨ (installType = js "agents"
          ∧ ∃ config w1,
              (∃ e0, createSubagent builder config w1 = (Thrown e0, w')
                     ∧ cause = message e0)
              ∨ (∃ r, createSubagent builder config w1 = (Returned r, w')
                      ∧ build_success r = false
                      ∧ cause = js "创建Subagent失败: " ++ build_error r))
       ∨ (installType = js "commands"
          ∧ ∃ config w1,
              (∃ e0, createCommand builder config w1 = (Thrown e0, w')
                     ∧ cause = message e0)
              ∨ (∃ r, createCommand builder config w1 = (Returned r, w')
                      ∧ build_success r = false
                      ∧ cause = js "创建Command失败: " ++ build_error r))).
Proof.
  rewrite installRole_run. cbv zeta.
  destruct (newCognitionLoader host) as [processor|e0] eqn:En.
  2:{ intros [= <- <-]. eexists. split; [done|]. left. by exists e0. }
  destruct (processRole host processor _ _ w) as [[content|e0|] w1] eqn:Ep; [| |done].
  2:{ intros [= <- <-]. eexists. split; [done|]. right; left. by exists processor, e0. }
  destruct (if eqb_str installType (js "agents") then _ else _)
    as [[agent|e1|] w2] eqn:E1; [| |done].
  - destruct (if eqb_str installType (js "commands") then _ else _)
      as [[command|e2|] w3] eqn:E2; [done| |done].
    intros [= <- <-]. destruct (eqb_str installType (js "commands")) eqn:Ec; [|done].
    apply eqb_str_eq in Ec. eexists. split; [done|]. do 3 right. split; [done|].
    do 2 eexists. apply built_Thrown in E2 as [E2|(r & E2 & Hr & ->)].
    + left. by exists e2.
    + right. by exists r.
  - intros [= <- <-]. destruct (eqb_str installType (js "agents")) eqn:Ea; [|done].
    apply eqb_str_eq in Ea. eexists. split; [done|]. right; right; left. split; [done|].
    do 2 eexists. apply built_Thrown in E1 as [E1|(r & E1 & Hr & ->)].
    + left. by exists e1.
    + right. by exists r.
Qed.

(** X16: An installation that returns has had the role processed in the
    mode of the install type, and the builder of that type has accepted
    a configuration with the final name, the processed content, the
    target directory and the selected tools; the results name the file
    after the final name.  For any other install type nothing is built
    and no file is reported. *)
Theorem installRole_installed builder selectedRole installType claudeDir
    selectedTools customName w res w' :
  installRole host builder selectedRole installType claudeDir selectedTools customName w
  = (Returned res, w') →
  let roleName := role selectedRole in
  let name := finalName roleName installType customName in
  res_roleName res = roleName ∧ res_installType res = installType
  ∧ ∃ processor content w1,
      newCognitionLoader host = Ok processor
      ∧ processRole host processor roleName (modeOf installType) w
        = (Returned content, w1)
      ∧ (installType = js "agents" →
         modeOf installType = js "subagent"
         ∧ (∃ r, createSubagent builder
                   (agentConfig roleName name content claudeDir selectedTools) w1
                 = (Returned r, w')
                 ∧ build_success r = true)
         ∧ agentFile res = Some (name ++ js ".md")
         ∧ commandFile res = None
         ∧ usage res = Some (js "Use the " ++ name ++ js " subagent to [任务描述]"))
      ∧ (installType = js "commands" →
         modeOf installType = js "command"
         ∧ (∃ r, createCommand builder
                   (commandConfig roleName name content claudeDir selectedTools) w1
                 = (Returned r, w')
                 ∧ build_success r = true)
         ∧ agentFile res = None
         ∧ commandFile res = Some (name ++ js ".md")
         ∧ usage res = Some (js "/" ++ name))
      ∧ (installType ≠ js "agents" → installType ≠ js "commands" →
         w' = w1 ∧ agentFile res = None ∧ commandFile res = None ∧ usage res = None).
Proof.
  rewrite installRole_run. cbv zeta.
  destruct (newCognitionLoader host) as [processor|e0] eqn:En; [|done].
  destruct (processRole host processor _ _ w) as [[content|e0|] w1] eqn:Ep; [|done..].
  destruct (if eqb_str installType (js "agents") then _ else _)
    as [[agent|e1|] w2] eqn:E1; [|done..].
  destruct (if eqb_str installType (js "commands") then _ else _)
    as [[command|e2|] w3] eqn:E2; [|done..].
  intros [= <- <-]. cbn [resultsOf res_roleName res_installType agentFile commandFile usage].
  split_and!; [done..|]. exists processor, content, w1. split_and!; [done..| | |].
  - intros ->. change (eqb_str (js "agents") (js "agents")) with true in E1.
    rewrite agents_not_commands in E2. injection E2 as <- <-.
    apply built_Returned in E1 as (-> & r & E1 & Hr).
    split_and!; try done. by exists r.
  - intros ->. change (eqb_str (js "commands") (js "agents")) with false in E1.
    change (eqb_str (js "commands") (js "commands")) with true in E2.
    injection E1 as <- <-. apply built_Returned in E2 as (-> & r & E2 & Hr).
    split_and!; try done. by exists r.
  - intros Ha%eqb_str_neq Hc%eqb_str_neq. rewrite Ha in E1. rewrite Hc in E2.
    injection E1 as <- <-. by injection E2 as <- <-.
Qed.

End Installing.

Section InstallExamples.

Lemma installRole_unusable_role_witness :
  installRole (example_host nothing no_file) accepting
    {| role := js "ghost"; source := js "user" |} (js "agents") (js "/p/.claude")
    None [] ()
  = (Thrown {| message := js "安装角色失败: " ++ js "无法加载角色 "
                           ++ js "ghost" ++ js " 的内容" |}, ()).
Proof.
  apply (installRole_unusable_role (example_host nothing no_file) accepting
           {| role := js "ghost"; source := js "user" |} (js "agents") (js "/p/.claude")
           None [] {| basePath := js "/home/u/.promptx/cognition" |} () ()
           (Some {| success := false; content := None; loaded_metadata := None |})).
  - by vm_compute.
  - by left.
  - done.
  - done.
Defined.

Lemma installRole_thrown_origin_witness :
  ∃ cause,
    message {| message := js "安装角色失败: 创建Subagent失败: disk full" |}
    = js "安装角色失败: " ++ cause
    ∧ ((∃ e0, newCognitionLoader (example_host shelf no_file) = Err e0 ∧ cause = message e0)
       ∨ (∃ processor e0,
            newCognitionLoader (example_host shelf no_file) = Ok processor
            ∧ processRole (example_host shelf no_file) processor (role {| role := js "writer"; source := js "user" |}) (modeOf (js "agents")) ()
              = (Thrown e0, ())
            ∧ cause = message e0)
       ∨ (js "agents" = js "agents"
          ∧ ∃ config w1,
              (∃ e0, createSubagent refusing config w1 = (Thrown e0, ())
                     ∧ cause = message e0)
              ∨ (∃ r, createSubagent refusing config w1 = (Returned r, ())
                      ∧ build_success r = false
                      ∧ cause = js "创建Subagent失败: " ++ build_error r))
       ∨ (js "agents" = js "commands"
          ∧ ∃ config w1,
              (∃ e0, createCommand refusing config w1 = (Thrown e0, ())
                     ∧ cause = message e0)
              ∨ (∃ r, createCommand refusing config w1 = (Returned r, ())
                      ∧ build_success r = false
                      ∧ cause = js "创建Command失败: " ++ build_error r))).
Proof.
  apply (installRole_thrown_origin (example_host shelf no_file) refusing
           {| role := js "writer"; source := js "user" |} (js "agents") (js "/p/.claude")
           None [] ()
           {| message := js "安装角色失败: 创建Subagent失败: disk full" |} ()).
  by vm_compute.
Defined.

Lemma installRole_installed_witness :
  let roleName := role {| role := js "writer"; source := js "user" |} in
  let name := finalName roleName (js "commands") (js "scribe") in
  res_roleName (resultsOf (js "writer") (js "commands") (js "scribe") false true) = roleName
  ∧ res_installType (resultsOf (js "writer") (js "commands") (js "scribe") false true) = js "commands"
  ∧ ∃ processor content w1,
      newCognitionLoader (example_host shelf no_file) = Ok processor
      ∧ processRole (example_host shelf no_file) processor roleName (modeOf (js "commands")) ()
        = (Returned content, w1)
      ∧ (js "commands" = js "agents" →
         modeOf (js "commands") = js "subagent"
         ∧ (∃ r, createSubagent accepting
                   (agentConfig roleName name content (js "/p/.claude") (Some [js "Read"; js "mcp__promptx__*"])) w1
                 = (Returned r, ())
                 ∧ build_success r = true)
         ∧ agentFile (resultsOf (js "writer") (js "commands") (js "scribe") false true) = Some (name ++ js ".md")
         ∧ commandFile (resultsOf (js "writer") (js "commands") (js "scribe") false true) = None
         ∧ usage (resultsOf (js "writer") (js "commands") (js "scribe") false true) = Some (js "Use the " ++ name ++ js " subagent to [任务描述]"))
      ∧ (js "commands" = js "commands" →
         modeOf (js "commands") = js "command"
         ∧ (∃ r, createCommand accepting
                   (commandConfig roleName name content (js "/p/.claude") (Some [js "Read"; js "mcp__promptx__*"])) w1
                 = (Returned r, ())
                 ∧ build_success r = true)
         ∧ agentFile (resultsOf (js "writer") (js "commands") (js "scribe") false true) = None
         ∧ commandFile (resultsOf (js "writer") (js "commands") (js "scribe") false true) = Some (name ++ js ".md")
         ∧ usage (resultsOf (js "writer") (js "commands") (js "scribe") false true) = Some (js "/" ++ name))
      ∧ (js "commands" ≠ js "agents" → js "commands" ≠ js "commands" →
         () = w1 ∧ agentFile (resultsOf (js "writer") (js "commands") (js "scribe") false true) = None ∧ commandFile (resultsOf (js "writer") (js "commands") (js "scribe") false true) = None
         ∧ usage (resultsOf (js "writer") (js "commands") (js "scribe") false true) = None).
Proof.
  apply (installRole_installed (example_host shelf no_file) accepting
           {| role := js "writer"; source := js "user" |} (js "commands") (js "/p/.claude")
           (Some [js "Read"; js "mcp__promptx__*"]) (js "scribe") ()
           (resultsOf (js "writer") (js "commands") (js "scribe") false true) ()).
  by vm_compute.
Defined.

End InstallExamples.

(** ** LayerAssembler.assembleContent: what is rendered *)

Section Rendered.

Implicit Types (parts ls pre post : list str) (s : str).

Lemma run_of_app_l ls a b : run_of ls a → run_of ls (a ++ b).
Proof. intros (pre & post & ->). exists pre, (post ++ b). by rewrite <-!app_assoc. Qed.

Lemma run_of_app_r ls a b : run_of ls b → run_of ls (a ++ b).
Proof. intros (pre & post & ->). exists (a ++ pre), post. by rewrite <-!app_assoc. Qed.

Lemma run_of_cons ls x b : run_of ls b → run_of ls (x :: b).
Proof. apply (run_of_app_r ls [x]). Qed.

Lemma run_of_refl ls : run_of ls ls.
Proof. exists [], []. by rewrite app_nil_r. Qed.

Lemma join_lines_cons p q rest :
  join_lines (p :: q :: rest) = p ++ NL :: join_lines (q :: rest).
Proof. done. Qed.

Lemma join_lines_app a b :
  a ≠ [] → b ≠ [] → join_lines (a ++ b) = join_lines a ++ NL :: join_lines b.
Proof.
  intros Ha Hb. induction a as [|p [|q a] IH]; [done| |].
  - destruct b as [|q b]; [done|]. done.
  - cbn [app] in *. rewrite !join_lines_cons, IH by done. by rewrite <-app_assoc.
Qed.

(** Parts that follow one another are found, joined, in the joined text. *)
Lemma join_lines_run ls parts :
  ls ≠ [] → run_of ls parts → occurs (join_lines ls) (join_lines parts).
Proof.
  intros Hls (pre & post & ->).
  destruct pre as [|p pre], post as [|q post].
  - rewrite app_nil_r. exists [], []. by rewrite app_nil_r.
  - cbn [app]. rewrite join_lines_app by done. by exists [], (NL :: join_lines (q :: post)).
  - rewrite app_nil_r, join_lines_app by done.
    exists (join_lines (p :: pre) ++ [NL]), []. by rewrite app_nil_r, <-app_assoc.
  - rewrite join_lines_app by (done || by destruct ls).
    rewrite join_lines_app by done.
    exists (join_lines (p :: pre) ++ [NL]), (NL :: join_lines (q :: post)).
    by rewrite <-!app_assoc.
Qed.

Lemma roleLayer_run sections key heading s :
  present sections key = Some s →
  run_of [heading; cleanContent s; []] (roleLayer sections key heading).
Proof. unfold roleLayer. intros ->. apply run_of_refl. Qed.

Lemma dependencyLayer_run heading deps d :
  d ∈ deps →
  run_of [js "### " ++ dep_id d; cleanContent (dep_content d); []]
    (dependencyLayer heading deps).
Proof.
  intros Hd. unfold dependencyLayer. destruct deps as [|d0 deps]; [by apply elem_of_nil in Hd|].
  apply run_of_cons. generalize dependent (d0 :: deps). clear. intros deps Hd.
  induction Hd as [d deps|d d' deps Hd IH]; cbn [flat_map].
  - apply (run_of_app_l _ [_; _; _]), run_of_refl.
  - by apply (run_of_app_r _ [_; _; _]).
Qed.

Lemma layout_run ls rid hasNetwork subagent command roleLines dependencyLines :
  run_of ls (roleLines ++ dependencyLines) →
  run_of ls (layout rid hasNetwork subagent command roleLines dependencyLines).
Proof.
  intros H. unfold layout. do 3 apply run_of_app_r.
  rewrite (app_assoc roleLines). by apply run_of_app_l.
Qed.

(** X17: Every section of the role that is there and not empty is
    rendered: its heading on a line, then its cleaned text; and so is
    every thought and every execution of the bundle, under its
    identifier. *)
Theorem assembleContent_renders roleInfo dependencies cognitionData mode :
  (∀ key heading s,
      (key, heading) ∈ rendered_sections →
      present (sections roleInfo) key = Some s →
      occurs (heading ++ NL :: cleanContent s ++ [NL])
        (assembleContent roleInfo dependencies cognitionData mode))
  ∧ (∀ d,
       d ∈ thoughts dependencies ++ executions dependencies →
       occurs (js "### " ++ dep_id d ++ NL :: cleanContent (dep_content d) ++ [NL])
         (assembleContent roleInfo dependencies cognitionData mode)).
Proof.
  split.
  - intros key heading s Hkey Hs.
    change (heading ++ NL :: cleanContent s ++ [NL])
      with (join_lines [heading; cleanContent s; []]).
    unfold assembleContent. apply join_lines_run; [done|].
    unfold assembleParts. apply layout_run, run_of_app_l.
    unfold rendered_sections in Hkey. rewrite !elem_of_cons, elem_of_nil in Hkey.
    destruct Hkey as [[= -> ->]|[[= -> ->]|[[= -> ->]|[]]]].
    + by apply run_of_app_l, roleLayer_run.
    + by apply run_of_app_r, run_of_app_l, roleLayer_run.
    + by do 2 apply run_of_app_r; apply roleLayer_run.
  - intros d Hd.
    change (js "### " ++ dep_id d ++ NL :: cleanContent (dep_content d) ++ [NL])
      with (join_lines [js "### " ++ dep_id d; cleanContent (dep_content d); []]).
    unfold assembleContent. apply join_lines_run; [done|].
    unfold assembleParts. apply layout_run, run_of_app_r.
    apply elem_of_app in Hd as [Hd|Hd].
    + by apply run_of_app_l, dependencyLayer_run.
    + by apply run_of_app_r, dependencyLayer_run.
Qed.

End Rendered.

Section RenderedExamples.

Lemma assembleContent_renders_witness :
  occurs (heading_personality ++ NL :: cleanContent (js "Calm. @!thought://calm") ++ [NL])
    (assembleContent
       (document (js "writer")
          [("personality"%string, Some (js "Calm. @!thought://calm"))])
       empty_bundle
       {| hasNetwork := false; networkPath := None; error := None |}
       (js "subagent")).
Proof.
  apply (proj1 (assembleContent_renders
                  (document (js "writer")
                     [("personality"%string, Some (js "Calm. @!thought://calm"))])
                  empty_bundle
                  {| hasNetwork := false; networkPath := None; error := None |}
                  (js "subagent"))
           "personality"%string heading_personality (js "Calm. @!thought://calm")).
  - apply list_elem_of_here.
  - by vm_compute.
Defined.

End RenderedExamples.

(** ** cli.js: discoverMCPServers *)

Section ServerLines.

Implicit Types (s t name command mark status line : str) (k : str → result).

(** A repetition stops at the longest stretch after which the rest of
    the pattern matches. *)
Lemma greedy_no_longer p k acc t :
  (∀ b t', t = b ++ t' → b ≠ [] → Forall (λ c, p c = true) b → k t' = None) →
  greedy p k acc t = push acc (k t).
Proof.
  revert acc. induction t as [|c t IH]; intros acc H; cbn [greedy]; [done|].
  destruct (p c) eqn:Ec; [|done].
  rewrite IH.
  - rewrite (H [c] t); [done..|]. by repeat constructor.
  - intros b t' -> Hb Hall. apply (H (c :: b) t'); [done..|]. by constructor.
Qed.

Lemma greedy_longest p k acc a t x :
  Forall (λ c, p c = true) a →
  k t = Some x →
  (∀ b t', t = b ++ t' → b ≠ [] → Forall (λ c, p c = true) b → k t' = None) →
  greedy p k acc (a ++ t) = Some ((acc ++ a) :: x.1, x.2).
Proof.
  intros Ha Hk Hno. revert acc. induction Ha as [|c a Hc Ha IH]; intros acc.
  - rewrite app_nil_r. cbn [app]. rewrite greedy_no_longer by done.
    rewrite Hk. by destruct x.
  - cbn [app greedy]. rewrite Hc, IH. by rewrite <-app_assoc.
Qed.

Lemma plus_longest p k a t x :
  a ≠ [] → Forall (λ c, p c = true) a →
  k t = Some x →
  (∀ b t', t = b ++ t' → b ≠ [] → Forall (λ c, p c = true) b → k t' = None) →
  plus p k (a ++ t) = Some (a :: x.1, x.2).
Proof.
  intros Hne Ha Hk Hno. destruct a as [|c a]; [done|].
  apply list.Forall_cons in Ha as [Hc Ha]. cbn [plus app]. rewrite Hc.
  by rewrite (greedy_longest p k [c] a t x).
Qed.

(** The same when the text that follows does not begin with a code unit
    of the class. *)
Lemma plus_stops p k a t x :
  a ≠ [] → Forall (λ c, p c = true) a → stops p t →
  k t = Some x →
  plus p k (a ++ t) = Some (a :: x.1, x.2).
Proof.
  intros Hne Ha Ht Hk. apply plus_longest; try done.
  intros [|c b] t' -> Hb Hall; [done|].
  apply list.Forall_cons in Hall as [Hc _]. cbn in Ht. congruence.
Qed.

Lemma lit_app l k t : lit l k (l ++ t) = push l (k t).
Proof. unfold lit. by rewrite strip_app. Qed.

Lemma plus_Some p k s x :
  plus p k s = Some x →
  ∃ a t ps,
    s = a ++ t ∧ a ≠ [] ∧ Forall (λ c, p c = true) a
    ∧ x = (a :: ps, x.2) ∧ k t = Some (ps, x.2).
Proof.
  unfold plus. destruct s as [|c s]; [done|]. destruct (p c) eqn:Ec; [|done].
  destruct x as [ps rest].
  intros (a & t & ps' & -> & Ha & -> & Hk)%greedy_pieces.
  exists (c :: a), t, ps'. split_and!; try done. by constructor.
Qed.

Lemma lit_Some l k s x :
  lit l k s = Some x → ∃ t ps, s = l ++ t ∧ x = (l :: ps, x.2) ∧ k t = Some (ps, x.2).
Proof.
  unfold lit. destruct (strip false l s) as [[m s']|] eqn:E; [|done].
  pose proof (strip_exact _ _ _ _ E) as ->. apply strip_sound in E as [-> _].
  destruct x as [ps rest]. intros (ps' & -> & Hk)%push_Some. by exists s', ps'.
Qed.

Lemma tight_trim s : tight s → tight (reverse s) → trim s = s.
Proof.
  intros Hs Hr. unfold trim, trimEnd.
  rewrite (tight_trimStart (reverse s)) by done. rewrite reverse_involutive.
  by apply tight_trimStart.
Qed.

(** The pattern after the command: white space, [-], white space, the
    mark, white space, the status text, the end. *)
Lemma server_tail mark status :
  mark = js "✓" ∨ mark = js "✗" →
  status ≠ [] → tight status → Forall (λ c, is_dot c = true) status →
  plus is_space
    (lit (js "-")
       (plus is_space
          (alt (lit (js "✓")) (lit (js "✗"))
             (plus is_space (greedy is_dot at_end [])))))
    (js " " ++ js "-" ++ js " " ++ mark ++ js " " ++ status)
  = Some ([js " "; js "-"; js " "; mark; js " "; status], []).
Proof.
  intros Hmark Hne Htight Hdot.
  assert (H9 : greedy is_dot at_end [] status = Some ([status], [])).
  { rewrite greedy_at_end. by apply forallb_Forall in Hdot as ->. }
  assert (H8 : plus is_space (greedy is_dot at_end []) (js " " ++ status)
               = Some ([js " "; status], [])).
  { by rewrite (plus_stops _ _ (js " ") _ ([status], []));
      [|done|by repeat constructor|exact Htight|exact H9]. }
  assert (H7 : alt (lit (js "✓")) (lit (js "✗"))
                 (plus is_space (greedy is_dot at_end [])) (mark ++ js " " ++ status)
               = Some ([mark; js " "; status], [])).
  { unfold alt. destruct Hmark as [->| ->].
    - by rewrite lit_app, H8.
    - assert (lit (js "✓") (plus is_space (greedy is_dot at_end []))
                (js "✗" ++ js " " ++ status) = None) as -> by done.
      by rewrite lit_app, H8. }
  assert (H6 : plus is_space
                 (alt (lit (js "✓")) (lit (js "✗"))
                    (plus is_space (greedy is_dot at_end [])))
                 (js " " ++ mark ++ js " " ++ status)
               = Some ([js " "; mark; js " "; status], [])).
  { by rewrite (plus_stops _ _ (js " ") _ ([mark; js " "; status], []));
      [|done|by repeat constructor|by destruct Hmark as [->| ->]|exact H7]. }
  by rewrite (plus_stops _ _ (js " ") _ ([js "-"; js " "; mark; js " "; status], []));
    [|done|by repeat constructor|done|by rewrite lit_app, H6].
Qed.

Lemma server_tail_needs k t :
  plus is_space (lit (js "-") k) t ≠ None →
  (∃ c, head t = Some c ∧ is_space c = true) ∧ 45 ∈ t.
Proof.
  destruct (plus _ _ t) as [x|] eqn:E; [|done]. intros _.
  apply plus_Some in E as (a & t1 & ps & -> & Ha & Hsp & _ & E).
  apply lit_Some in E as (t2 & ps' & -> & _).
  destruct a as [|c a]; [done|]. apply list.Forall_cons in Hsp as [Hc _]. split.
  - by exists c.
  - rewrite !elem_of_app. right. left. by apply list_elem_of_here.
Qed.

(** X18: a line [name: command - mark status] of the list of servers is
    read as its four fields, whatever dashes the command holds, when the
    status text holds none: the name goes up to the first colon, the
    command up to the last dash that a mark follows. *)
Theorem serverOf_line name command mark status :
  let line := name ++ js ":" ++ js " " ++ command
                ++ js " " ++ js "-" ++ js " " ++ mark ++ js " " ++ status in
  name ≠ [] → tight name → Forall (λ c, neqc 58 c = true) name →
  command ≠ [] → tight command → Forall (λ c, is_dot c = true) command →
  mark = js "✓" ∨ mark = js "✗" →
  status ≠ [] → tight status → tight (reverse status) →
  Forall (λ c, is_dot c = true) status → 45 ∉ status →
  includes (js "Checking MCP server health") line = false →
  serverOf line
  = Some {| server_name := trim name;
            server_command := trim command;
            connected := bool_decide (mark = js "✓");
            server_status := status |}.
Proof.
  intros line Hn1 Hn2 Hn3 Hc1 Hc2 Hc3 Hmark Hs1 Hs2 Hs3 Hs4 Hs5 Hinc.
  assert (Htrim : trim line = line).
  { apply tight_trim.
    - unfold line. by destruct name.
    - unfold line. rewrite !reverse_app. by destruct (reverse status) eqn:E;
        [apply (f_equal reverse) in E; rewrite reverse_involutive in E|]. }
  assert (Hre : re_server_line line
                = Some ([name; js ":"; js " "; command; js " "; js "-"; js " ";
                         mark; js " "; status], [])).
  { pose proof (server_tail mark status Hmark Hs1 Hs2 Hs4) as Htail.
    unfold re_server_line, line.
    rewrite (plus_stops _ _ name _
               ([js ":"; js " "; command; js " "; js "-"; js " "; mark; js " "; status],
                [])); [done|done|done|done|].
    rewrite lit_app.
    rewrite (plus_stops _ _ (js " ") _
               ([command; js " "; js "-"; js " "; mark; js " "; status], []));
      [done|done|by repeat constructor|by destruct command|].
    rewrite (plus_longest _ _ command _
               ([js " "; js "-"; js " "; mark; js " "; status], []));
      [done|done|done|exact Htail|].
    { intros b t' Heq Hb Hall.
      destruct (plus is_space _ t') as [x|] eqn:E; [|done]. exfalso.
      assert (plus is_space
                (lit (js "-")
                   (plus is_space
                      (alt (lit (js "✓")) (lit (js "✗"))
                         (plus is_space (greedy is_dot at_end []))))) t' ≠ None)
        as [(c & Hhead & Hc) Hdash]%server_tail_needs by by rewrite E.
      change (js " " ++ js "-" ++ js " " ++ mark ++ js " " ++ status)
        with (32 :: 45 :: 32 :: mark ++ 32 :: status) in Heq.
      destruct b as [|b0 b]; [done|]. injection Heq as <- Heq.
      destruct b as [|b1 b].
      + cbn [app] in Heq. subst t'. by injection Hhead as <-.
      + injection Heq as <- Heq.
        assert (45 ∉ 32 :: mark ++ 32 :: status) as Hno.
        { rewrite not_elem_of_cons, not_elem_of_app, not_elem_of_cons.
          split_and!; try done.
          destruct Hmark as [->| ->];
            [change (js "✓") with [10003]|change (js "✗") with [10007]];
            rewrite elem_of_cons, elem_of_nil; by intros [|[]]. }
        apply Hno. rewrite Heq. apply elem_of_app. by right. } }
  unfold serverOf. cbv zeta. rewrite Htrim, Hre, Hinc. cbn [negb].
  change (piece _ 0) with name. change (piece _ 3) with command.
  change (piece _ 7) with mark. change (piece _ 9) with status.
  rewrite eqb_str_decide, (tight_trim status) by done. done.
Qed.

Lemma tight_trim_nonempty s : s ≠ [] → tight s → trim s ≠ [].
Proof.
  intros Hne Ht. destruct (trimEnd_spaces s) as (w & Hw & Hsp).
  destruct s as [|c s]; [done|]. cbn in Ht.
  destruct (trimEnd (c :: s)) as [|c' e] eqn:E.
  - cbn [app] in Hw. subst w. apply list.Forall_cons in Hsp as [? _]. congruence.
  - injection Hw as <- _. unfold trim. rewrite E. cbn [trimStart]. by rewrite Ht.
Qed.

Lemma plus_inv p k s ps rest :
  plus p k s = Some (ps, rest) →
  ∃ a t ps',
    s = a ++ t ∧ a ≠ [] ∧ Forall (λ c, p c = true) a
    ∧ ps = a :: ps' ∧ k t = Some (ps', rest).
Proof.
  intros (a & t & ps' & -> & Ha & Hall & [= ->] & Hk)%plus_Some.
  by exists a, t, ps'.
Qed.

Lemma lit_inv l k s ps rest :
  lit l k s = Some (ps, rest) →
  ∃ t ps', s = l ++ t ∧ ps = l :: ps' ∧ k t = Some (ps', rest).
Proof. intros (t & ps' & -> & [= ->] & Hk)%lit_Some. by exists t, ps'. Qed.

(** Every match of the pattern of a server line, piece by piece. *)
Lemma re_server_line_Some s ps rest :
  re_server_line s = Some (ps, rest) →
  ∃ name sp1 command sp2 sp3 mark sp4 status,
    s = name ++ js ":" ++ sp1 ++ command ++ sp2 ++ js "-" ++ sp3 ++ mark ++ sp4 ++ status
    ∧ ps = [name; js ":"; sp1; command; sp2; js "-"; sp3; mark; sp4; status]
    ∧ rest = []
    ∧ (name ≠ [] ∧ Forall (λ c, neqc 58 c = true) name)
    ∧ (command ≠ [] ∧ Forall (λ c, is_dot c = true) command)
    ∧ (mark = js "✓" ∨ mark = js "✗")
    ∧ Forall (λ c, is_dot c = true) status
    ∧ Forall (λ sp, sp ≠ [] ∧ Forall (λ c, is_space c = true) sp) [sp1; sp2; sp3; sp4].
Proof.
  unfold re_server_line.
  intros (name & t0 & ps0 & -> & Hn1 & Hn2 & -> & H)%plus_inv.
  apply lit_inv in H as (t1 & ps1 & -> & -> & H).
  apply plus_inv in H as (sp1 & t2 & ps2 & -> & Ha1 & Ha2 & -> & H).
  apply plus_inv in H as (command & t3 & ps3 & -> & Hc1 & Hc2 & -> & H).
  apply plus_inv in H as (sp2 & t4 & ps4 & -> & Hb1 & Hb2 & -> & H).
  apply lit_inv in H as (t5 & ps5 & -> & -> & H).
  apply plus_inv in H as (sp3 & t6 & ps6 & -> & Hd1 & Hd2 & -> & H).
  assert (∃ mark t7 ps7,
            (mark = js "✓" ∨ mark = js "✗") ∧ t6 = mark ++ t7 ∧ ps6 = mark :: ps7
            ∧ plus is_space (greedy is_dot at_end []) t7 = Some (ps7, rest))
    as (mark & t7 & ps7 & Hmark & -> & -> & H').
  { unfold alt in H. destruct (lit (js "✓") _ t6) as [x|] eqn:E.
    - injection H as ->. apply lit_inv in E as (t7 & ps7 & -> & -> & E).
      exists (js "✓"), t7, ps7. split_and!; try done. by left.
    - apply lit_inv in H as (t7 & ps7 & -> & -> & H).
      exists (js "✗"), t7, ps7. split_and!; try done. by right. }
  apply plus_inv in H' as (sp4 & t8 & ps8 & -> & He1 & He2 & -> & H').
  apply greedy_pieces in H' as (status & t9 & ps9 & -> & Hs & -> & H').
  destruct t9 as [|??]; [|done]. injection H' as <- <-.
  exists name, sp1, command, sp2, sp3, mark, sp4, status.
  rewrite !app_nil_r. cbn [app]. split_and!; try done.
  by repeat constructor.
Qed.

(** What a line that stands for a server has: a name before its first
    colon, that does not begin with white space. *)
Lemma serverOf_Some line server :
  serverOf line = Some server →
  ∃ ps rest,
    re_server_line (trim line) = Some (ps, rest)
    ∧ server_name server = trim (piece ps 0)
    ∧ server_command server = trim (piece ps 3)
    ∧ server_status server = trim (piece ps 9)
    ∧ piece ps 0 ≠ [] ∧ tight (piece ps 0)
    ∧ Forall (λ c, neqc 58 c = true) (piece ps 0).
Proof.
  unfold serverOf. cbv zeta.
  destruct (re_server_line (trim line)) as [[ps rest]|] eqn:E; [|done].
  destruct (negb _); [|done]. intros [= <-]. exists ps, rest.
  cbn [server_name server_command server_status]. split_and!; try done;
    unfold re_server_line in E;
    apply plus_Some in E as (a & t & ps' & Hline & Ha & Hall & [= -> ] & _);
    change (piece (a :: ps') 0) with a; try done.
  assert (tight (trim line)) as Ht by apply trimStart_tight.
  rewrite Hline in Ht. by destruct a.
Qed.

(** X19: a line that is read as a server is, once trimmed, a name without
    colon, a colon, a command, a dash and a mark [✓] or [✗], with white
    space after the colon and on both sides of the dash and of the mark,
    and a status text; the server has these fields, trimmed, and is
    connected exactly when the mark is [✓].  So a line without a mark
    that white space follows is no server. *)
Theorem serverOf_sound line server :
  serverOf line = Some server →
  ∃ name sp1 command sp2 sp3 mark sp4 status,
    trim line
    = name ++ js ":" ++ sp1 ++ command ++ sp2 ++ js "-" ++ sp3 ++ mark ++ sp4 ++ status
    ∧ (name ≠ [] ∧ Forall (λ c, neqc 58 c = true) name)
    ∧ (command ≠ [] ∧ Forall (λ c, is_dot c = true) command)
    ∧ (mark = js "✓" ∨ mark = js "✗")
    ∧ Forall (λ c, is_dot c = true) status
    ∧ Forall (λ sp, sp ≠ [] ∧ Forall (λ c, is_space c = true) sp) [sp1; sp2; sp3; sp4]
    ∧ includes (js "Checking MCP server health") (trim line) = false
    ∧ server = {| server_name := trim name;
                  server_command := trim command;
                  connected := bool_decide (mark = js "✓");
                  server_status := trim status |}.
Proof.
  unfold serverOf. cbv zeta.
  destruct (re_server_line (trim line)) as [[ps rest]|] eqn:E; [|done].
  destruct (includes _ (trim line)) eqn:Ei; [done|]. cbn [negb]. intros [= <-].
  apply re_server_line_Some
    in E as (name & sp1 & command & sp2 & sp3 & mark & sp4 & status
             & Hline & -> & -> & [??] & [??] & Hmark & Hstatus & Hsp).
  exists name, sp1, command, sp2, sp3, mark, sp4, status.
  split_and!; try done.
  change (piece _ 0) with name. change (piece _ 3) with command.
  change (piece _ 7) with mark. change (piece _ 9) with status.
  by rewrite eqb_str_decide.
Qed.

End ServerLines.

Section Discovery.

Context {World : Type} (shell : Shell World).

(** X20: [discoverMCPServers] always returns, with the four default
    tools; it reports no server when the command fails; and every server
    it reports has a name that is not empty, holds no colon and is
    trimmed, as are its command and its status text. *)
Theorem discoverMCPServers_returns w :
  ∃ servers w',
    discoverMCPServers shell w = (Returned servers, w')
    ∧ w' = (execSync shell (js "claude mcp list") w).2
    ∧ defaultTools servers = [js "Read"; js "Write"; js "Edit"; js "Bash"]
    ∧ (∀ e, (execSync shell (js "claude mcp list") w).1 = Err e →
            mcpServers servers = [])
    ∧ (∀ output, (execSync shell (js "claude mcp list") w).1 = Ok output →
                 mcpServers servers = omap serverOf (split_lines output))
    ∧ ∀ server, server ∈ mcpServers servers →
        server_name server ≠ [] ∧ (58 ∉ server_name server)
        ∧ trim (server_name server) = server_name server
        ∧ trim (server_command server) = server_command server
        ∧ trim (server_status server) = server_status server.
Proof.
  unfold discoverMCPServers, try_catch, bind, ret.
  destruct (execSync shell (js "claude mcp list") w) as [[output|e] w1]; cbn [now fst snd].
  - eexists _, _. split; [done|]. cbn [defaultTools mcpServers].
    split_and!; try done.
    + by intros ? [= <-].
    + intros server (line & Hline & Hs)%list_elem_of_omap.
      apply serverOf_Some in Hs as (ps & rest & _ & -> & -> & -> & Hne & Ht & Hall).
      split_and!; try apply trim_trim.
      * by apply tight_trim_nonempty.
      * apply (trim_Forall (λ c, neqc 58 c = true)) in Hall.
        intros Hin. eapply list.Forall_forall in Hall; [|done]. done.
  - eexists _, _. split; [done|]. cbn [defaultTools mcpServers].
    split_and!; try done. by intros ? ?%elem_of_nil.
Qed.

End Discovery.

Section DiscoveryExamples.

Lemma serverOf_line_witness :
  serverOf (js "promptx" ++ js ":" ++ js " " ++ js "npx -y @promptx/mcp-server"
              ++ js " " ++ js "-" ++ js " " ++ js "✓" ++ js " " ++ js "Connected")
  = Some {| server_name := trim (js "promptx");
            server_command := trim (js "npx -y @promptx/mcp-server");
            connected := bool_decide (js "✓" = js "✓");
            server_status := js "Connected" |}.
Proof.
  apply (serverOf_line (js "promptx") (js "npx -y @promptx/mcp-server") (js "✓")
           (js "Connected")); try (by vm_compute);
    apply (bool_decide_unpack _); by vm_compute.
Defined.

Lemma serverOf_sound_witness :
  ∃ name sp1 command sp2 sp3 mark sp4 status,
    trim (js "  fs: npx fs-server  -  ✗ Failed to connect ")
    = name ++ js ":" ++ sp1 ++ command ++ sp2 ++ js "-" ++ sp3 ++ mark ++ sp4 ++ status
    ∧ (name ≠ [] ∧ Forall (λ c, neqc 58 c = true) name)
    ∧ (command ≠ [] ∧ Forall (λ c, is_dot c = true) command)
    ∧ (mark = js "✓" ∨ mark = js "✗")
    ∧ Forall (λ c, is_dot c = true) status
    ∧ Forall (λ sp, sp ≠ [] ∧ Forall (λ c, is_space c = true) sp) [sp1; sp2; sp3; sp4]
    ∧ includes (js "Checking MCP server health")
        (trim (js "  fs: npx fs-server  -  ✗ Failed to connect ")) = false
    ∧ {| server_name := js "fs"; server_command := js "npx fs-server";
         connected := false; server_status := js "Failed to connect" |}
      = {| server_name := trim name;
           server_command := trim command;
           connected := bool_decide (mark = js "✓");
           server_status := trim status |}.
Proof.
  apply (serverOf_sound (js "  fs: npx fs-server  -  ✗ Failed to connect ")
           {| server_name := js "fs"; server_command := js "npx fs-server";
              connected := false; server_status := js "Failed to connect" |}).
  by vm_compute.
Defined.

Lemma discoverMCPServers_returns_witness :
  ∃ servers w',
    discoverMCPServers (printing (js "promptx: npx -y @promptx/mcp-server - ✓ Connected")) ()
    = (Returned servers, w')
    ∧ w' = (execSync (printing (js "promptx: npx -y @promptx/mcp-server - ✓ Connected"))
              (js "claude mcp list") ()).2
    ∧ defaultTools servers = [js "Read"; js "Write"; js "Edit"; js "Bash"]
    ∧ (∀ e, (execSync (printing (js "promptx: npx -y @promptx/mcp-server - ✓ Connected"))
               (js "claude mcp list") ()).1 = Err e →
            mcpServers servers = [])
    ∧ (∀ output,
         (execSync (printing (js "promptx: npx -y @promptx/mcp-server - ✓ Connected"))
            (js "claude mcp list") ()).1 = Ok output →
         mcpServers servers = omap serverOf (split_lines output))
    ∧ ∀ server, server ∈ mcpServers servers →
        server_name server ≠ [] ∧ (58 ∉ server_name server)
        ∧ trim (server_name server) = server_name server
        ∧ trim (server_command server) = server_command server
        ∧ trim (server_status server) = server_status server.
Proof.
  apply (discoverMCPServers_returns
           (printing (js "promptx: npx -y @promptx/mcp-server - ✓ Connected")) ()).
Defined.

End DiscoveryExamples.

(** * References written more than once *)

Section Written.

Lemma matchAll_reference_none s : 64 ∉ s → matchAll re_reference s = [].
Proof.
  intros Hs. rewrite <-(app_nil_r s), matchAll_reference_skip by done.
  apply (matchAll_nil _ consuming_reference).
Qed.

Lemma reads_extractFromText text refs :
  reads text refs → extractFromText (Some text) = refs.
Proof.
  rewrite extractFromText_matchAll.
  induction 1 as [s Hs|pre bang [proto res] rest refs Hpre Hbang Hwf Hrest _ IH].
  - by rewrite matchAll_reference_none.
  - cbn [protocol resource] in *. rewrite matchAll_reference_token by done.
    cbn [map]. by rewrite IH.
Qed.

Lemma sections_read_extract sections refs :
  sections_read sections refs → extractResourceReferences sections = refs.
Proof.
  unfold extractResourceReferences, values.
  induction 1 as [|key secs refs _ IH|key text secs refs1 refs2 Hr _ IH]; [done|done|].
  cbn [map flat_map snd]. by rewrite (reads_extractFromText _ _ Hr), IH.
Qed.

Lemma reads_well_formed text refs : reads text refs → Forall well_formed refs.
Proof. induction 1; by constructor. Qed.

Lemma sections_read_well_formed sections refs :
  sections_read sections refs → Forall well_formed refs.
Proof.
  induction 1 as [| |key text secs refs1 refs2 Hr _ IH]; [done|done|].
  apply Forall_app. split; [by eapply reads_well_formed|done].
Qed.

(** *** The address of a reference tells the reference *)

Lemma colon_split (p1 p2 x y : str) :
  58 ∉ p1 → 58 ∉ p2 → p1 ++ 58 :: x = p2 ++ 58 :: y → p1 = p2 ∧ x = y.
Proof.
  revert p2. induction p1 as [|c p1 IH]; intros [|d p2] H1 H2 Heq; simpl in Heq.
  - by injection Heq as ->.
  - injection Heq as <- _. by apply not_elem_of_cons in H2 as [? _].
  - injection Heq as -> _. by apply not_elem_of_cons in H1 as [? _].
  - injection Heq as -> Heq.
    apply not_elem_of_cons in H1 as [_ H1]. apply not_elem_of_cons in H2 as [_ H2].
    by destruct (IH p2 H1 H2 Heq) as [-> ->].
Qed.

Lemma no_colon (p : str) : Forall (λ c, neqc 58 c = true) p → 58 ∉ p.
Proof.
  intros H Hin. rewrite list.Forall_forall in H. specialize (H 58 Hin).
  by vm_compute in H.
Qed.

Lemma recognized_no_colon ref : recognized ref → 58 ∉ protocol ref.
Proof.
  intros [E|[E|E]]; rewrite E; intros Hin; apply (bool_decide_pack _) in Hin;
    by vm_compute in Hin.
Qed.

Lemma address_inj r ref :
  well_formed r → recognized ref → address r = address ref → r = ref.
Proof.
  intros (_ & Hp & _) Hrec. destruct r as [p1 r1], ref as [p2 r2].
  unfold address. cbn [protocol resource] in *.
  change (js "@" ++ ?a) with (64 :: a).
  change (js "://" ++ ?a) with (58 :: 47 :: 47 :: a).
  intros [= Heq]. apply colon_split in Heq as [-> Heq].
  - by injection Heq as ->.
  - by apply no_colon.
  - by apply (recognized_no_colon {| protocol := p2; resource := r2 |}).
Qed.

Lemma filter_address_length refs ref :
  Forall well_formed refs → recognized ref →
  length (filter (λ a, a = address ref) (address <$> refs))
  = length (filter (λ r, r = ref) refs).
Proof.
  intros Hwf Hrec. induction Hwf as [|r refs Hr _ IH]; [done|].
  rewrite fmap_cons, !filter_cons.
  destruct (decide (r = ref)) as [->|Hne].
  - rewrite decide_True by done. simpl. by rewrite IH.
  - rewrite decide_False; [done|]. intros Heq. by apply Hne, address_inj.
Qed.

End Written.

Section NotDeduplicated.

Context {World : Type} (host : Host World).

(** C10, as amended: references are not de-duplicated. When the texts of
    the sections are written as tokens set apart, the loader is asked for
    the address of each token, in the order of the text, so that a
    reference written [k] times is asked for [k] times; and when it has one
    of the three protocols and resolves each time, the bucket of its
    protocol holds [k] entries for its resource. *)
Theorem references_not_deduplicated roleInfo w refs ref :
  sections_read (sections roleInfo) refs →
  let values := resolution <$> (answers host refs w).1 in
  let k := length (filter (λ r, r = ref) refs) in
  settles_all (settle_order host) →
  Forall settles (answers host refs w).1 →
  recognized ref →
  (∀ i, refs !! i = Some ref → ∃ c, values !! i = Some (Some c)) →
  ∃ b log,
    (analyzeDependencies host roleInfo w).1 = Returned b
    ∧ (analyzeDependencies (traced host) roleInfo (w, [])).2.2 = log
    ∧ log = address <$> refs
    ∧ length (filter (λ a, a = address ref) log) = k
    ∧ length (filter (λ d, dep_id d = resource ref) (bucket b (protocol ref))) = k.
Proof.
  intros Hread values k Hall Hset Hrec Hok.
  pose proof (sections_read_extract _ _ Hread) as Hrefs.
  exists (bundle_of (successes refs values)), (address <$> refs). split_and!.
  - rewrite analyzeDependencies_run; [by rewrite Hrefs|done|by rewrite Hrefs].
  - by rewrite analyzeDependencies_traced, Hrefs.
  - done.
  - apply filter_address_length; [by eapply sections_read_well_formed|done].
  - rewrite bucket_bundle_of by done. apply of_protocol_count; [|done].
    unfold values. by rewrite length_fmap, answers_length.
Qed.

End NotDeduplicated.

Section NotDeduplicatedExamples.

(** C10, counterexample: a token that runs into the next one is read as
    one reference, whose resource holds the second token. The token
    [@thought://a] stands twice in the text [@thought://a@thought://a];
    the loader is asked once, for the address [@thought://a@thought://a],
    and the one entry of the bucket is for the resource [a@thought://a]. *)
Lemma token_inside_resource :
  ¬ ∀ World (host : Host World) roleInfo w ref k,
      written (sections roleInfo) ref = k →
      settles_all (settle_order host) →
      recognized ref →
      Forall (λ o, ∃ c, resolution o = Some c)
        (answers host (extractResourceReferences (sections roleInfo)) w).1 →
      ∃ b log,
        (analyzeDependencies host roleInfo w).1 = Returned b
        ∧ (analyzeDependencies (traced host) roleInfo (w, [])).2.2 = log
        ∧ length (filter (λ a, a = address ref) log) = k
        ∧ length (filter (λ d, dep_id d = resource ref) (bucket b (protocol ref)))
          = k.
Proof.
  intros H.
  destruct (H unit (example_host echo no_file)
              (document (js "r")
                 [("personality"%string, Some (js "@thought://a@thought://a"))])
              () {| protocol := js "thought"; resource := js "a" |} 2%nat)
    as (b & log & Hb & Hlog & Hk & Hk').
  - by vm_compute.
  - apply example_settles_all.
  - by left.
  - vm_compute. repeat constructor. by eexists.
  - vm_compute in Hb. injection Hb as <-. vm_compute in Hlog. subst log.
    clear Hk'. by vm_compute in Hk.
Qed.

(** What the analysis of that text comes to. *)
Lemma joined_tokens_run :
  analyzeDependencies (traced (example_host echo no_file))
    (document (js "r")
       [("personality"%string, Some (js "@thought://a@thought://a"))])
    ((), [])
  = (Returned
       {| thoughts :=
            [{| dep_id := js "a@thought://a";
                dep_content := js "@thought://a@thought://a" |}];
          executions := []; knowledges := [] |},
     ((), [js "@thought://a@thought://a"])).
Proof. by vm_compute. Qed.

Lemma example_reads :
  sections_read
    [("personality"%string, Some (js "@thought://a and @!thought://a"));
     ("knowledge"%string, None);
     ("principle"%string, Some (js "again @thought://a"))]
    [{| protocol := js "thought"; resource := js "a" |};
     {| protocol := js "thought"; resource := js "a" |};
     {| protocol := js "thought"; resource := js "a" |}].
Proof.
  assert (Hwf : well_formed {| protocol := js "thought"; resource := js "a" |}).
  { unfold well_formed. cbn [protocol resource]. split_and!.
    - by vm_compute.
    - apply (bool_decide_unpack _). by vm_compute.
    - by vm_compute.
    - apply (bool_decide_unpack _). by vm_compute. }
  assert (Hno : ∀ s : str, bool_decide (64 ∈ s) = false → 64 ∉ s).
  { intros s Hs Hin. apply (bool_decide_pack _) in Hin. by rewrite Hs in Hin. }
  set (r := {| protocol := js "thought"; resource := js "a" |}) in *.
  apply (read_text _ _ _ [r; r] [r]).
  - apply (reads_token [] [] r (js " and @!thought://a") [r]);
      [by apply Hno; vm_compute|by right|done|by vm_compute|].
    apply (reads_token (js " and ") (js "!") r [] []);
      [by apply Hno; vm_compute|by left|done|done|].
    apply reads_end. apply Hno. by vm_compute.
  - apply read_null. apply (read_text _ _ _ [r] []); [|constructor].
    apply (reads_token (js "again ") [] r [] []);
      [by apply Hno; vm_compute|by right|done|done|].
    apply reads_end. apply Hno. by vm_compute.
Qed.

(** A reference written three times, in two sections, once with [!]. *)
Lemma references_not_deduplicated_witness :
  ∃ b log,
    (analyzeDependencies (example_host echo no_file)
       (document (js "r")
          [("personality"%string, Some (js "@thought://a and @!thought://a"));
           ("knowledge"%string, None);
           ("principle"%string, Some (js "again @thought://a"))]) ()).1
    = Returned b
    ∧ (analyzeDependencies (traced (example_host echo no_file))
         (document (js "r")
            [("personality"%string, Some (js "@thought://a and @!thought://a"));
             ("knowledge"%string, None);
             ("principle"%string, Some (js "again @thought://a"))]) ((), [])).2.2
      = log
    ∧ log = [js "@thought://a"; js "@thought://a"; js "@thought://a"]
    ∧ length (filter (λ a, a = js "@thought://a") log) = 3%nat
    ∧ length (filter (λ d, dep_id d = js "a") (thoughts b)) = 3%nat.
Proof.
  destruct (references_not_deduplicated (example_host echo no_file)
    (document (js "r")
       [("personality"%string, Some (js "@thought://a and @!thought://a"));
        ("knowledge"%string, None);
        ("principle"%string, Some (js "again @thought://a"))]) ()
    [{| protocol := js "thought"; resource := js "a" |};
     {| protocol := js "thought"; resource := js "a" |};
     {| protocol := js "thought"; resource := js "a" |}]
    {| protocol := js "thought"; resource := js "a" |})
    as (b & log & Hb & Hlog & H1 & H2 & H3).
  - exact example_reads.
  - apply example_settles_all.
  - vm_compute. by repeat constructor.
  - by left.
  - intros [|[|[|i]]] Hi; vm_compute in Hi |- *; by eauto.
  - exists b, log. split_and!; [exact Hb|exact Hlog|exact H1|exact H2|exact H3].
Defined.

End NotDeduplicatedExamples.

(** * What cleanContent leaves of blank lines and of tokens *)

(** ** A run of newlines between two pieces of text *)

Section Runs.

Implicit Types (s t a b X : str).

Local Abbreviation collapse := (replaceAll re_blank_lines [NL; NL]).

Lemma tight_reverse_cons c s :
  s ≠ [] → tight (reverse (c :: s)) ↔ tight (reverse s).
Proof.
  intros Hs. rewrite reverse_cons. destruct (reverse s) as [|d r] eqn:E; [|done].
  apply (f_equal reverse) in E. by rewrite reverse_involutive in E.
Qed.

Lemma tight_reverse_space c s :
  tight (reverse (c :: s)) → is_space c = true → s ≠ [] ∧ tight (reverse s).
Proof.
  intros Ht Hc. destruct s as [|d s]; [simpl in Ht; congruence|].
  split; [done|]. by apply (tight_reverse_cons c).
Qed.

Lemma lead_nl_app_tight s X :
  s ≠ [] → tight (reverse s) → lead_nl (s ++ X) = lead_nl s.
Proof.
  induction s as [|c s IH]; [done|]. intros _ Ht. simpl.
  destruct (is_space c) eqn:Ec; [|done].
  destruct (tight_reverse_space c s Ht Ec) as [Hs Hts]. by rewrite IH.
Qed.

Lemma after_last_nl_app_tight s X :
  s ≠ [] → tight (reverse s) →
  after_last_nl (s ++ X) = (λ r, r ++ X) <$> after_last_nl s.
Proof.
  induction s as [|c s IH]; [done|]. intros _ Ht. simpl.
  destruct (is_space c) eqn:Ec; [|done].
  destruct (tight_reverse_space c s Ht Ec) as [Hs Hts]. rewrite IH by done.
  destruct (after_last_nl s); [done|]. simpl. by destruct (NL =? c).
Qed.

Lemma exec_blank_lines_app t X :
  t ≠ [] → tight (reverse t) →
  snd <$> exec re_blank_lines (t ++ X)
  = (λ r, r ++ X) <$> (snd <$> exec re_blank_lines t).
Proof.
  intros Ht Htt. rewrite !exec_blank_lines. destruct t as [|c s]; [done|].
  cbn [app]. destruct (NL =? c) eqn:Ec; [|done].
  destruct (tight_reverse_space c s Htt (is_space_NL _ Ec)) as [Hs Hts].
  rewrite lead_nl_app_tight, after_last_nl_app_tight by done.
  by destruct (decide _).
Qed.

Lemma collapse_nil : collapse [] = [].
Proof. by rewrite replaceAll_nil. Qed.

Lemma collapse_hit c s ps rest :
  exec re_blank_lines (c :: s) = Some (ps, rest) →
  collapse (c :: s) = NL :: NL :: collapse rest.
Proof.
  intros Hex. rewrite replaceAll_cons, Hex.
  apply exec_blank_lines_Some in Hex as (_ & _ & Hc).
  by destruct (concat ps).
Qed.

(** The pass over a text that ends with a code unit that is no white
    space goes on with the text that follows as if it started there. *)
Lemma collapse_app a X :
  tight (reverse a) → collapse (a ++ X) = collapse a ++ collapse X.
Proof.
  induction a as [|c s Hex IH|c s ps rest Hex Hc IH|c s ps rest Hex Hc Hs IH]
    using (scan_ind re_blank_lines); intros Ht.
  - by rewrite collapse_nil.
  - pose proof (exec_blank_lines_app (c :: s) X ltac:(done) Ht) as Happ.
    rewrite Hex in Happ.
    change (snd <$> exec re_blank_lines (c :: s ++ X) = None) in Happ.
    apply fmap_None in Happ.
    rewrite (replaceAll_cons _ _ c s), Hex. cbn [app].
    rewrite replaceAll_cons, Happ. f_equal. apply IH.
    destruct s as [|d s]; [done|]. by apply (tight_reverse_cons c).
  - by apply exec_blank_lines_Some in Hex as (_ & _ & ?).
  - pose proof (exec_blank_lines_app (c :: s) X ltac:(done) Ht) as Happ.
    rewrite Hex in Happ.
    change (snd <$> exec re_blank_lines (c :: s ++ X) = Some (rest ++ X)) in Happ.
    apply fmap_Some in Happ as ([ps' rest'] & Hex' & Hrest).
    cbn [snd] in Hrest. subst rest'.
    rewrite (collapse_hit _ _ _ _ Hex). cbn [app].
    rewrite (collapse_hit _ _ _ _ Hex'). do 2 f_equal. apply IH.
    eapply tight_reverse_suffix; [|done]. by eapply exec_rest_suffix.
Qed.

Lemma lead_nl_run k b : tight b → lead_nl (replicate k NL ++ b) = k.
Proof.
  intros Hb. induction k as [|k IH]; simpl.
  - destruct b as [|c b]; [done|]. simpl in *. by rewrite Hb.
  - by rewrite IH.
Qed.

Lemma after_last_nl_run k b :
  tight b → after_last_nl (replicate (S k) NL ++ b) = Some b.
Proof.
  intros Hb. induction k as [|k IH].
  - simpl. destruct b as [|c b]; [done|]. simpl in *. by rewrite Hb.
  - change (replicate (S (S k)) NL ++ b) with (NL :: (replicate (S k) NL ++ b)).
    cbn [after_last_nl]. by rewrite IH.
Qed.

Lemma collapse_run k b :
  (3 ≤ k)%nat → tight b →
  collapse (replicate k NL ++ b) = NL :: NL :: collapse b.
Proof.
  intros Hk Hb. destruct k as [|[|k]]; [lia..|].
  pose proof (exec_blank_lines (replicate (S (S k)) NL ++ b)) as Hex.
  change (replicate (S (S k)) NL ++ b) with (NL :: (replicate (S k) NL ++ b)) in *.
  cbv iota in Hex. rewrite N.eqb_refl, lead_nl_run, after_last_nl_run in Hex by done.
  rewrite decide_True in Hex by lia.
  apply fmap_Some in Hex as ([ps rest] & Hex & Hrest). simpl in Hrest. subst rest.
  by rewrite (collapse_hit _ _ _ _ Hex).
Qed.

Lemma exec_blank_lines_spaces t ps rest :
  exec re_blank_lines t = Some (ps, rest) →
  Forall (λ c, is_space c = true) (concat ps) ∧ concat ps ≠ [].
Proof.
  intros H. split; [|by apply exec_blank_lines_Some in H as (_ & _ & ?)].
  revert H. unfold re_blank_lines.
  intros (m1 & t1 & ps1 & ->%strip_exact & -> & H)%exec_Lit_inv.
  change (exec (Star is_space :: ?r) t1) with (greedy is_space (exec r) [] t1) in H.
  apply greedy_pieces in H as (a & t2 & ps2 & _ & Ha & -> & H).
  apply exec_Lit_inv in H as (m2 & t3 & ps3 & ->%strip_exact & -> & H).
  change (exec (Star is_space :: ?r) t3) with (greedy is_space (exec r) [] t3) in H.
  apply greedy_pieces in H as (b & t4 & ps4 & _ & Hb & -> & H).
  apply exec_Lit_inv in H as (m3 & t5 & ps5 & ->%strip_exact & -> & H).
  cbn [exec] in H. injection H as <- _. cbn [concat app].
  repeat (first [apply Forall_app; split|apply List.Forall_cons|apply List.Forall_nil]);
    done.
Qed.

Lemma collapse_ends s :
  s ≠ [] → tight (reverse s) → collapse s ≠ [] ∧ tight (reverse (collapse s)).
Proof.
  induction s as [|c s Hex IH|c s ps rest Hex Hc IH|c s ps rest Hex Hc Hs IH]
    using (scan_ind re_blank_lines); intros Hne Ht; [done| | |].
  - rewrite replaceAll_cons, Hex. split; [done|].
    destruct s as [|d s]; [by rewrite collapse_nil|].
    destruct IH as [IH1 IH2]; [done|by apply (tight_reverse_cons c)|].
    by apply tight_reverse_cons.
  - by apply exec_blank_lines_Some in Hex as (_ & _ & ?).
  - rewrite (collapse_hit _ _ _ _ Hex). split; [done|].
    assert (rest ≠ []) as Hrest.
    { intros ->. rewrite app_nil_r in Hs. rewrite Hs in Ht.
      apply exec_blank_lines_spaces in Hex as [Hsp Hnn].
      apply Forall_reverse in Hsp. destruct (reverse (concat ps)) as [|d r] eqn:E.
      - apply (f_equal reverse) in E. by rewrite reverse_involutive in E.
      - apply list.Forall_cons in Hsp as [Hd _]. simpl in Ht. congruence. }
    destruct IH as [IH1 IH2]; [done| |].
    { eapply tight_reverse_suffix; [|done]. by eapply exec_rest_suffix. }
    apply tight_reverse_cons; [done|]. by apply tight_reverse_cons.
Qed.

Lemma collapse_starts b :
  b ≠ [] → tight b → collapse b ≠ [] ∧ tight (collapse b).
Proof.
  destruct b as [|c b]; [done|]. intros _ Hc. simpl in Hc.
  destruct (exec re_blank_lines (c :: b)) as [[ps rest]|] eqn:Hex.
  - apply exec_blank_lines_Some in Hex as (H3 & _). simpl in H3.
    rewrite Hc in H3. lia.
  - by rewrite replaceAll_cons, Hex.
Qed.

Lemma trimStart_app s X : trimStart s ≠ [] → trimStart (s ++ X) = trimStart s ++ X.
Proof.
  induction s as [|c s IH]; [done|]. simpl. by destruct (is_space c).
Qed.

Lemma trimStart_ends s : s ≠ [] → tight (reverse s) → trimStart s ≠ [].
Proof.
  induction s as [|c s IH]; [done|]. intros _ Ht. simpl.
  destruct (is_space c) eqn:Ec; [|done].
  destruct (tight_reverse_space c s Ht Ec) as [Hs Hts]. by apply IH.
Qed.

Lemma trimEnd_ends s : tight (reverse s) → trimEnd s = s.
Proof.
  intros Ht. unfold trimEnd. by rewrite tight_trimStart, reverse_involutive.
Qed.

Lemma trimEnd_app X b : b ≠ [] → tight b → trimEnd (X ++ b) = X ++ trimEnd b.
Proof.
  intros Hb Ht. unfold trimEnd. rewrite reverse_app, trimStart_app.
  - by rewrite reverse_app, reverse_involutive.
  - apply trimStart_ends.
    + intros E. apply (f_equal reverse) in E. by rewrite reverse_involutive in E.
    + by rewrite reverse_involutive.
Qed.

Lemma trimEnd_starts b : b ≠ [] → tight b → trimEnd b ≠ [] ∧ tight (trimEnd b).
Proof.
  intros Hb Ht. destruct (trimEnd_spaces b) as (w & Hw & Hsp). split.
  - intros E. rewrite E in Hw. simpl in Hw. subst w.
    destruct b as [|c b]; [done|]. apply list.Forall_cons in Hsp as [Hc _].
    simpl in Ht. congruence.
  - destruct (trimEnd b) as [|d r]; [done|]. by rewrite Hw in Ht.
Qed.

(** A run of three newlines or more between two pieces of text, the one
    ending and the other starting with a code unit that is no white space,
    comes out as two newlines between what comes out of the pieces. *)
Lemma tidy_run a b k :
  (3 ≤ k)%nat → a ≠ [] → tight (reverse a) → b ≠ [] → tight b →
  tidy (a ++ replicate k NL ++ b) = tidy a ++ [NL; NL] ++ tidy b
  ∧ tidy a ≠ [] ∧ tight (reverse (tidy a))
  ∧ tidy b ≠ [] ∧ tight (tidy b).
Proof.
  intros Hk Ha Hta Hb Htb. unfold tidy.
  rewrite collapse_app, collapse_run by done.
  destruct (collapse_ends a Ha Hta) as [HA HtA].
  destruct (collapse_starts b Hb Htb) as [HB HtB].
  destruct (trimEnd_starts _ HB HtB) as [HB' HtB'].
  pose proof (trimStart_ends _ HA HtA) as HA'.
  assert (trim (collapse a) = trimStart (collapse a)) as ->.
  { unfold trim. by rewrite trimEnd_ends. }
  assert (trim (collapse b) = trimEnd (collapse b)) as ->.
  { unfold trim. by rewrite tight_trimStart. }
  split_and!; [|done| |done|done].
  - unfold trim.
    change (collapse a ++ NL :: NL :: collapse b)
      with (collapse a ++ [NL; NL] ++ collapse b).
    rewrite (app_assoc (collapse a)), trimEnd_app by done.
    by rewrite <-app_assoc, trimStart_app.
  - eapply tight_reverse_suffix; [apply trimStart_suffix|done].
Qed.

End Runs.

(** ** Where the reference pattern matches *)

Section Tokens.

Implicit Types (s t w l m rest X : str).

Local Abbreviation collapse := (replaceAll re_blank_lines [NL; NL]).
Local Abbreviation spaces := (Forall (λ c, is_space c = true)).
Local Abbreviation marks := (Forall (λ c, is_space c = false)).

Lemma space_differs c a : is_space c = true → is_space a = false → (c =? a) = false.
Proof. intros Hc Ha. destruct (N.eqb_spec c a) as [->|]; congruence. Qed.

Lemma space_resource c : is_space c = true → is_resource_char c = false.
Proof. intros Hc. unfold is_resource_char. by rewrite Hc. Qed.

Lemma marks_colon : marks (js "://").
Proof. by repeat constructor. Qed.

(** *** The text that follows the protocol *)

Lemma opens_space l c s : marks l → is_space c = true → opens l (c :: s) = false.
Proof.
  intros Hl Hc. destruct l as [|a l]; simpl; [by apply space_resource|].
  apply list.Forall_cons in Hl as [Ha _]. by rewrite (space_differs c a).
Qed.

Lemma opens_spaces l w : marks l → spaces w → opens l w = false.
Proof.
  intros Hl Hw. destruct w as [|c w]; [by destruct l|].
  apply list.Forall_cons in Hw as [Hc _]. by apply opens_space.
Qed.

Lemma opens_app_spaces l s w : marks l → spaces w → opens l (s ++ w) = opens l s.
Proof.
  intros Hl Hw. revert s. induction Hl as [|a l Ha Hl IH]; intros [|c s].
  - by apply (opens_spaces []).
  - done.
  - apply (opens_spaces (a :: l)); [by constructor|done].
  - simpl. by rewrite IH.
Qed.

Lemma opens_collapse l s : marks l → opens l (collapse s) = opens l s.
Proof.
  intros Hl. revert s. induction Hl as [|a l Ha Hl IH]; intros [|c s].
  - by rewrite collapse_nil.
  - destruct (exec re_blank_lines (c :: s)) as [[ps rest]|] eqn:Hex.
    + rewrite (collapse_hit _ _ _ _ Hex).
      apply exec_blank_lines_Some in Hex as (H3 & _). cbn [lead_nl] in H3.
      destruct (is_space c) eqn:Ec; [|lia]. cbn [opens].
      by rewrite (space_resource c), (space_resource NL).
    + by rewrite replaceAll_cons, Hex.
  - by rewrite collapse_nil.
  - destruct (exec re_blank_lines (c :: s)) as [[ps rest]|] eqn:Hex.
    + rewrite (collapse_hit _ _ _ _ Hex).
      apply exec_blank_lines_Some in Hex as (H3 & _). cbn [lead_nl] in H3.
      destruct (is_space c) eqn:Ec; [|lia]. cbn [opens].
      by rewrite (space_differs c a), (space_differs NL a).
    + rewrite replaceAll_cons, Hex. cbn [opens]. by rewrite IH.
Qed.

(** *** The text that follows [@] *)

Lemma body_spaces w : spaces w → body w = false.
Proof.
  induction 1 as [|c w Hc Hw IH]; [done|]. cbn [body].
  by rewrite IH, (opens_spaces _ _ marks_colon Hw), andb_false_r.
Qed.

Lemma body_blank m rest :
  m ≠ [] → spaces m → body (m ++ rest) = opens (js "://") rest || body rest.
Proof.
  intros Hm Hsp. induction Hsp as [|c m Hc Hsp IH]; [done|].
  cbn [app body]. rewrite (space_differs c 58) by done. cbn [negb andb].
  destruct m as [|d m]; [done|]. rewrite IH by done.
  apply list.Forall_cons in Hsp as [Hd _].
  cbn [app]. by rewrite (opens_space _ _ _ marks_colon Hd).
Qed.

Lemma body_app_spaces s w : spaces w → body (s ++ w) = body s.
Proof.
  intros Hw. induction s as [|c s IH]; [by apply body_spaces|].
  cbn [app body]. by rewrite IH, (opens_app_spaces _ _ _ marks_colon Hw).
Qed.

Lemma body_collapse s : body (collapse s) = body s.
Proof.
  induction s as [|c s Hex IH|c s ps rest Hex Hc IH|c s ps rest Hex Hc Hs IH]
    using (scan_ind re_blank_lines).
  - by rewrite collapse_nil.
  - rewrite replaceAll_cons, Hex. cbn [body].
    by rewrite IH, (opens_collapse _ _ marks_colon).
  - by apply exec_blank_lines_Some in Hex as (_ & _ & ?).
  - rewrite (collapse_hit _ _ _ _ Hex), Hs.
    apply exec_blank_lines_spaces in Hex as [Hsp Hne].
    rewrite (body_blank (concat ps)) by done.
    change (NL :: NL :: ?x) with ([NL; NL] ++ x).
    rewrite (body_blank [NL; NL] (collapse rest)) by by repeat constructor.
    by rewrite IH, (opens_collapse _ _ marks_colon).
Qed.

(** *** The text *)

Lemma has_token_blank m rest : spaces m → has_token (m ++ rest) = has_token rest.
Proof.
  induction 1 as [|c m Hc Hsp IH]; [done|]. cbn [app has_token].
  by rewrite (space_differs c 64), IH.
Qed.

Lemma has_token_app_spaces s w : spaces w → has_token (s ++ w) = has_token s.
Proof.
  intros Hw. induction s as [|c s IH].
  - pose proof (has_token_blank w [] Hw) as H. by rewrite app_nil_r in H.
  - cbn [app has_token]. by rewrite IH, body_app_spaces.
Qed.

Lemma has_token_collapse s : has_token (collapse s) = has_token s.
Proof.
  induction s as [|c s Hex IH|c s ps rest Hex Hc IH|c s ps rest Hex Hc Hs IH]
    using (scan_ind re_blank_lines).
  - by rewrite collapse_nil.
  - rewrite replaceAll_cons, Hex. cbn [has_token]. by rewrite IH, body_collapse.
  - by apply exec_blank_lines_Some in Hex as (_ & _ & ?).
  - rewrite (collapse_hit _ _ _ _ Hex), Hs.
    apply exec_blank_lines_spaces in Hex as [Hsp Hne].
    rewrite (has_token_blank (concat ps)) by done.
    change (NL :: NL :: ?x) with ([NL; NL] ++ x).
    by rewrite (has_token_blank [NL; NL] (collapse rest)) by by repeat constructor.
Qed.

Lemma has_token_trim s : has_token (trim s) = has_token s.
Proof.
  unfold trim.
  destruct (trimStart_spaces (trimEnd s)) as (w1 & H1 & Hw1).
  destruct (trimEnd_spaces s) as (w2 & H2 & Hw2).
  rewrite H2 at 2. rewrite has_token_app_spaces by done.
  rewrite H1 at 2. by rewrite has_token_blank.
Qed.

Lemma has_token_tidy s : has_token (tidy s) = has_token s.
Proof. unfold tidy. by rewrite has_token_trim, has_token_collapse. Qed.

(** *** The pattern and the text it matches *)

Lemma opens_lit l c z : opens l (l ++ c :: z) = is_resource_char c.
Proof. induction l as [|a l IH]; [done|]. cbn [app opens]. by rewrite N.eqb_refl. Qed.

Lemma opens_inv l z :
  opens l z = true → ∃ c z', z = l ++ c :: z' ∧ is_resource_char c = true.
Proof.
  revert z. induction l as [|a l IH]; intros [|c z]; cbn [opens]; try done.
  - intros Hc. by exists c, z.
  - intros [->%N.eqb_eq (c' & z' & -> & Hc)%IH]%andb_prop. by exists c', z'.
Qed.

Lemma body_run q z :
  q ≠ [] → Forall (λ c, neqc 58 c = true) q → opens (js "://") z = true →
  body (q ++ z) = true.
Proof.
  intros Hq Hf Hz. induction Hf as [|p q Hp Hf IH]; [done|].
  cbn [app body]. unfold neqc in Hp. rewrite Hp. cbn [andb].
  destruct q as [|p' q]; [cbn [app]; by rewrite Hz|].
  rewrite IH by done. apply orb_true_r.
Qed.

Lemma body_inv s :
  body s = true →
  ∃ q z, s = q ++ z ∧ q ≠ [] ∧ Forall (λ c, neqc 58 c = true) q
         ∧ opens (js "://") z = true.
Proof.
  induction s as [|p s IH]; [done|]. cbn [body].
  intros [Hp [Hz|Hb]%orb_prop]%andb_prop.
  - exists [p], s. split_and!; [done|done|by constructor|done].
  - destruct (IH Hb) as (q & z & -> & _ & Hq & Hz).
    exists (p :: q), z. split_and!; [done|done|by constructor|done].
Qed.

Lemma exec_reference_body t :
  exec re_reference t ≠ None ↔ ∃ s, t = 64 :: s ∧ body s = true.
Proof.
  split.
  - destruct (exec re_reference t) as [[ps rest]|] eqn:E; [|done]. intros _.
    apply exec_reference_Some in E
      as (bang & proto & res & _ & -> & Hbang & (Hp1 & Hp2 & Hr1 & Hr2) & _).
    cbn [protocol resource] in *. unfold token.
    exists (bang ++ proto ++ js "://" ++ res ++ rest). split.
    { change (js "@" ++ ?x) with (64 :: x). cbn [app]. f_equal.
      by rewrite <-!app_assoc. }
    rewrite (app_assoc bang). apply body_run.
    + by destruct bang, proto.
    + apply Forall_app. split; [|done]. by destruct Hbang as [->| ->]; repeat constructor.
    + destruct res as [|c res]; [done|]. apply list.Forall_cons in Hr2 as [Hc _].
      cbn [app]. by rewrite opens_lit.
  - intros (s & -> & (q & z & -> & Hq & Hf & (c & z' & -> & Hc)%opens_inv)%body_inv).
    assert (∃ x, exec [Plus is_resource_char] (c :: z') = Some x) as [x5 E5].
    { change (exec [Plus is_resource_char] (c :: z'))
        with (if is_resource_char c then greedy is_resource_char (exec []) [c] z'
              else None).
      rewrite Hc. destruct (greedy_last is_resource_char [c] z') as (a & t & _ & _ & _ & ->).
      by eexists. }
    pose proof (exec_Lit_app (js "://") _ _ _ E5) as E4.
    assert (∃ x, exec [Plus (neqc 58); Lit false (js "://"); Plus is_resource_char]
                   (q ++ js "://" ++ c :: z')
                 = Some x) as [x3 E3].
    { eexists.
      apply (exec_Plus_all (neqc 58) _ q (js "://" ++ c :: z')
               (js "://" :: x5.1, x5.2) Hq Hf); [by vm_compute|exact E4]. }
    assert (∃ x, exec [Opt (eqc 33); Plus (neqc 58); Lit false (js "://");
                       Plus is_resource_char] (q ++ js "://" ++ c :: z')
                 = Some x) as [x2 E2].
    { destruct q as [|c0 q]; [done|]. cbn [app] in E3 |- *. rewrite exec_Opt_eq.
      rewrite E3. destruct x3 as [ps3 rest3]. cbn [push].
      destruct (eqc 33 c0); [|by eexists].
      destruct (push [c0] _); by eexists. }
    pose proof (exec_Lit_app (js "@") _ _ _ E2) as E1.
    unfold re_reference. change (64 :: ?x) with (js "@" ++ x). by rewrite E1.
Qed.

Lemma has_token_spec s : has_token s = true ↔ matches_in re_reference s.
Proof.
  induction s as [|c s IH].
  - split; [done|]. intros (t & ->%suffix_nil_inv & Hex).
    by rewrite (consuming_nil _ consuming_reference) in Hex.
  - cbn [has_token]. rewrite orb_true_iff, andb_true_iff, IH. split.
    + intros [[->%N.eqb_eq Hb]|(t & Ht & Hex)].
      * exists (64 :: s). split; [done|]. apply exec_reference_body. by exists s.
      * exists t. split; [by apply suffix_cons_r|done].
    + intros (t & [->|Ht]%suffix_cons_case & Hex).
      * apply exec_reference_body in Hex as (s' & [= -> ->] & Hb). left.
        by rewrite N.eqb_refl.
      * right. by exists t.
Qed.

(** The last two steps neither make a token nor take one away. *)
Lemma tidy_tokens s : matches_in re_reference (tidy s) ↔ matches_in re_reference s.
Proof. by rewrite <-!has_token_spec, has_token_tidy. Qed.

End Tokens.

(** ** The output of cleanContent *)

Section Output.

Implicit Types (x s t a b : str) (r : regex).

(** What is left of a text after the matches are deleted, from a code
    unit that is left on, is what is left of the text from that code
    unit on. *)
Lemma replaceAll_kept r s t1 :
  consuming r → t1 `suffix_of` replaceAll r [] s → t1 ≠ [] →
  ∃ t, t `suffix_of` s ∧ exec r t = None ∧ t1 = replaceAll r [] t
       ∧ head t = head t1.
Proof.
  intros Hr.
  induction s as [|c s Hex IH|c s ps rest Hex Hc IH|c s ps rest Hex Hc Hs IH]
    using (scan_ind r); intros Ht1 Hne.
  - rewrite replaceAll_nil, (consuming_nil _ Hr) in Ht1.
    by apply suffix_nil_inv in Ht1.
  - pose proof (replaceAll_cons r [] c s) as Heq. rewrite Hex in Heq.
    rewrite Heq in Ht1. apply suffix_cons_case in Ht1 as [->|Ht1].
    + exists (c :: s). by rewrite Heq.
    + destruct (IH Ht1 Hne) as (t & Ht & H). exists t.
      split; [by apply suffix_cons_r|done].
  - by apply Hr in Hex.
  - pose proof (replaceAll_cons r [] c s) as Heq. rewrite Hex in Heq.
    destruct (concat ps) as [|c' m] eqn:E; [done|]. cbn [app] in Heq.
    rewrite Heq in Ht1. destruct (IH Ht1 Hne) as (t & Ht & H). exists t.
    split; [|done]. etrans; [done|]. by eapply exec_rest_suffix.
Qed.

Lemma exec_token_line_colon t ps rest :
  exec re_token_line t = Some (ps, rest) → occurs (js "://") (concat ps).
Proof.
  unfold re_token_line.
  change (exec (Star is_space :: ?r) t) with (greedy is_space (exec r) [] t).
  intros (a & t1 & ps1 & _ & _ & -> & H)%greedy_pieces.
  apply exec_Lit_inv in H as (m1 & t2 & ps2 & _ & -> & H).
  apply exec_Opt_inv in H as (b & t3 & ps3 & _ & -> & H & _).
  apply exec_Plus_inv in H as (p & t4 & ps4 & _ & _ & _ & -> & H).
  apply exec_Lit_inv in H as (m2 & t5 & ps5 & ->%strip_exact & -> & _).
  exists (([] ++ a) ++ m1 ++ b ++ p), (concat ps5). cbn [concat].
  by rewrite <-!app_assoc.
Qed.

Lemma stripped_colon s :
  replaceAll re_token_line [] s = s ∨ occurs (js "://") s.
Proof.
  induction s as [|c s Hex IH|c s ps rest Hex Hc IH|c s ps rest Hex Hc Hs IH]
    using (scan_ind re_token_line).
  - left. by rewrite replaceAll_nil, (consuming_nil _ consuming_token_line).
  - rewrite replaceAll_cons, Hex. destruct IH as [->|(pre & post & ->)]; [by left|].
    right. by exists (c :: pre), post.
  - by apply consuming_token_line in Hex.
  - right. apply exec_token_line_colon in Hex as (pre & post & Hps).
    exists pre, (post ++ rest). by rewrite Hs, Hps, <-!app_assoc.
Qed.

Lemma exec_reference_colon t : exec re_reference t ≠ None → occurs (js "://") t.
Proof.
  destruct (exec re_reference t) as [[ps rest]|] eqn:E; [|done]. intros _.
  apply exec_reference_Some in E as (bang & proto & res & _ & -> & _).
  exists (js "@" ++ bang ++ proto), (res ++ rest). unfold token.
  by rewrite <-!app_assoc.
Qed.

Lemma cleanContent_tidy x : cleanContent x = tidy (stripTokens x).
Proof. apply cleanContent_unfold. Qed.

(** C6, as amended: the output of [cleanContent] never holds three
    newlines in a row. A run of three newlines or more that stands, once
    the tags and the matches of the token pattern are deleted, between two
    code units that are no white space comes out as two newlines between
    what the last two steps make of the text on either side, which ends
    and starts with a code unit that is no white space; for a text
    without [<] and [@] this is said of the input itself. The output
    holds a match of the reference pattern exactly when the text left by
    the one pass over the tokens holds one; and it holds none when every
    [@] of the text without its tags begins a match of the token pattern
    or has no [://] after it. *)
Theorem cleanContent_output x :
  ¬ occurs [NL; NL; NL] (cleanContent x)
  ∧ (∀ a b k,
       (3 ≤ k)%nat → a ≠ [] → tight (reverse a) → b ≠ [] → tight b →
       stripTokens x = a ++ replicate k NL ++ b →
       cleanContent x = tidy a ++ [NL; NL] ++ tidy b
       ∧ tidy a ≠ [] ∧ tight (reverse (tidy a))
       ∧ tidy b ≠ [] ∧ tight (tidy b))
  ∧ (∀ a b k,
       (3 ≤ k)%nat → a ≠ [] → tight (reverse a) → b ≠ [] → tight b →
       60 ∉ x → 64 ∉ x → x = a ++ replicate k NL ++ b →
       cleanContent x = cleanContent a ++ [NL; NL] ++ cleanContent b)
  ∧ (matches_in re_reference (cleanContent x)
     ↔ matches_in re_reference (stripTokens x))
  ∧ ((∀ t, t `suffix_of` stripTags x → head t = Some 64 →
           exec re_token_line t ≠ None ∨ ¬ occurs (js "://") t) →
     ¬ matches_in re_reference (cleanContent x)).
Proof.
  split_and!.
  - apply calm_no_blank_run, cleanContent_calm.
  - intros a b k Hk Ha Hta Hb Htb Heq. rewrite cleanContent_tidy, Heq.
    by apply tidy_run.
  - intros a b k Hk Ha Hta Hb Htb H60 H64 ->.
    assert ((60 ∉ a) ∧ (60 ∉ b) ∧ (64 ∉ a) ∧ (64 ∉ b)) as (? & ? & ? & ?).
    { rewrite !elem_of_app in H60, H64. tauto. }
    rewrite (cleanContent_plain (a ++ replicate k NL ++ b)) by done.
    rewrite (cleanContent_plain a), (cleanContent_plain b) by done.
    by apply tidy_run.
  - rewrite cleanContent_tidy. apply tidy_tokens.
  - intros Hat. rewrite cleanContent_tidy, tidy_tokens.
    intros (t1 & Ht1 & Hex).
    assert (t1 ≠ []) as Hne.
    { intros ->. by rewrite (consuming_nil _ consuming_reference) in Hex. }
    destruct (replaceAll_kept _ _ _ consuming_token_line Ht1 Hne)
      as (t & Ht & Hnone & -> & Hhead).
    rewrite (exec_reference_head _ Hex) in Hhead.
    destruct (Hat t Ht Hhead) as [Hm|Hno]; [done|].
    apply Hno. apply exec_reference_colon in Hex.
    by destruct (stripped_colon t) as [<-|?].
Qed.

End Output.

Section OutputExamples.

(** C6, counterexample: a token deleted in the middle joins the text
    around it into a token that stays; and a run of newlines before a
    token is deleted with the token, so that no newline is left of it. *)
Lemma cleanContent_token_left_run_lost :
  (¬ ∀ x, ¬ matches_in re_reference (cleanContent x))
  ∧ (¬ ∀ a b k,
         (3 ≤ k)%nat → a ≠ [] → tight (reverse a) → b ≠ [] → tight b →
         occurs [NL; NL] (cleanContent (a ++ replicate k NL ++ b))).
Proof.
  split.
  - intros H. apply (H (js "@a:/ @b://c /d")).
    exists (js "@a://d"). split; [by exists []|]. by vm_compute.
  - intros H.
    specialize (H (js "a") (js "@x://y b") 3%nat).
    assert (cleanContent (js "a" ++ replicate 3 NL ++ js "@x://y b") = js "ab") as Heq
      by by vm_compute.
    rewrite Heq in H. apply cut_None in H; [done|by vm_compute|lia|done..].
Qed.

(** A text with a token, a run of four newlines and an [@] that begins no
    token. *)
Lemma cleanContent_output_witness :
  cleanContent (js "Be kind. @!thought://calm Stay." ++ replicate 4 NL ++ js "me@home")
  = js "Be kind.Stay." ++ [NL; NL] ++ js "me@home"
  ∧ ¬ matches_in re_reference
        (cleanContent
           (js "Be kind. @!thought://calm Stay." ++ replicate 4 NL ++ js "me@home")).
Proof.
  destruct (cleanContent_output
              (js "Be kind. @!thought://calm Stay." ++ replicate 4 NL ++ js "me@home"))
    as (_ & Hrun & _ & _ & Htok).
  split.
  - destruct (Hrun (js "Be kind.Stay.") (js "me@home") 4%nat) as [Heq _];
      [lia|done|by vm_compute|done|by vm_compute|by vm_compute|].
    rewrite Heq. by vm_compute.
  - apply Htok. intros t Ht Hhead.
    apply (every_suffix_spec
             (λ t, match head t with
                   | Some 64 =>
                       bool_decide (exec re_token_line t ≠ None)
                       || bool_decide (cut (js "://") t = None)
                   | _ => true
                   end)) in Ht; [|by vm_compute].
    rewrite Hhead in Ht. apply orb_prop in Ht as [Ht|Ht].
    + left. by apply bool_decide_eq_true in Ht.
    + right. apply cut_None. by apply bool_decide_eq_true in Ht.
Defined.

End OutputExamples.
